(** * MECEMap: gap filling, view reorientation, assembling and extracting
      labelled volumes, and the region table

    A shallow embedding of the Python sources

    - [utils/sdf_utils.py]              ([fill_2d_image_gaps]),
    - [utils/views_converter_utils.py]  (the six view converters),
    - [utils/tiff_utils.py]             (merging and extracting regions),
    - [utils/file_utils.py]             (the region table parser),

    followed by the properties of these functions.

    NumPy arrays are nested lists ([list (list Z)] for a 2D slice,
    [list (list (list Z))] for a volume); [uint8] samples are integers of
    [Z] with the cast written out as [mod 256]; a [float64] distance is the
    rational number that it denotes. *)

From Stdlib Require Import ZArith QArith Qpower Lia Ascii SpecFloat.
From stdpp Require Import gmap strings list sorting.

Local Open Scope Z_scope.

(** ** Two-dimensional arrays *)

Module Array2.

Definition at2 {A} (a : list (list A)) (r c : nat) : option A :=
  a !! r ≫= (λ row, row !! c).

(** The shape of a possibly ragged nested list: the lengths of its rows. *)
Definition shape2 {A} (a : list (list A)) : list nat := length <$> a.

Definition map2d {A B} (f : A → B) (a : list (list A)) : list (list B) :=
  (λ row : list A, f <$> row) <$> a.

Definition zip2d {A B C} (f : A → B → C)
    (a : list (list A)) (b : list (list B)) : list (list C) :=
  zip_with (zip_with f) a b.

Definition imap2d {A B} (f : nat → nat → A → B)
    (a : list (list A)) : list (list B) :=
  imap (λ r row, imap (λ c x, f r c x) row) a.

(** [dst[cond] = src[cond]] for arrays of one shape. *)
Definition where2d {A} (cond : list (list bool))
    (src dst : list (list A)) : list (list A) :=
  zip2d (λ (ms : bool * A) d, if ms.1 then ms.2 else d)
        (zip2d pair cond src) dst.

(** [dst[cond] = v] for a scalar [v]. *)
Definition where2d_const {A} (cond : list (list bool))
    (v : A) (dst : list (list A)) : list (list A) :=
  zip2d (λ (m : bool) d, if m then v else d) cond dst.

End Array2.

(** ** The [float64] square root of an integer *)

Module Float64.

(** Rounding to nearest, ties to even: [m0] is the integer part and [c]
    tells where the number lies with respect to [m0 + 1/2]. *)
Definition round_nearest_even (m0 : Z) (c : comparison) : Z :=
  match c with
  | Lt => m0
  | Eq => if Z.even m0 then m0 else m0 + 1
  | Gt => m0 + 1
  end.

(** [np.sqrt] of the [float64] that holds the integer [n >= 1] (every
    integer below [2^53] is a [float64]): IEEE 754 asks for the [float64]
    nearest to the square root.  With [2^k <= sqrt n < 2^(k+1)] the
    [float64] numbers from [2^k] to [2^(k+1)] are the multiples
    [m * 2^(k-52)] with [2^52 <= m <= 2^53]; [sqrt_exponent] is the
    exponent [k - 52] and [sqrt_mantissa] the multiple [m], found by
    rounding [sqrt n / 2^(k-52) = sqrt (num / den)]. *)
Definition sqrt_exponent (n : Z) : Z := Z.log2 n / 2 - 52.

Definition sqrt_mantissa (n : Z) : Z :=
  let e := sqrt_exponent n in
  let num := n * 4 ^ Z.max (- e) 0 in
  let den := 4 ^ Z.max e 0 in
  let m0 := Z.sqrt (num / den) in
  round_nearest_even m0 (4 * num ?= (2 * m0 + 1) ^ 2 * den).

Definition np_sqrt (n : Z) : Q :=
  if n <=? 0 then 0%Q
  else (inject_Z (sqrt_mantissa n) * 2 ^ sqrt_exponent n)%Q.

(** The same square root by the specification of IEEE 754 arithmetic of the
    Standard Library, for [binary64] ([prec = 53], [emax = 1024]): the
    value of [SFsqrt] at the [float64] nearest to [n]. *)
Definition SF2Q (x : spec_float) : Q :=
  match x with
  | S754_finite s m e =>
      ((if s then -1 else 1) * inject_Z (Z.pos m) * 2 ^ e)%Q
  | _ => 0%Q
  end.

Definition ieee_sqrt (n : Z) : Q :=
  SF2Q (SFsqrt 53 1024 (binary_normalize 53 1024 n 0 false)).

(** Integers on which the two square roots are compared: the integers up to
    4096, and some near the powers of 2 up to [2^53]. *)
Definition sqrt_samples : list Z :=
  (Z.of_nat <$> seq 0 4097)
  ++ concat ((λ k : nat, [2 ^ Z.of_nat k - 1; 2 ^ Z.of_nat k + 1;
                          3 * 2 ^ Z.of_nat k + 1; 5 ^ 22 + Z.of_nat k])
             <$> seq 13 39)
  ++ [2 ^ 52 - 1; 2 ^ 52 + 1; 2 ^ 53 - 1].

End Float64.

(** ** Gap filling ([utils/sdf_utils.py]) *)

Module Sdf.
Import Array2 Float64.

(** A value of the distance transform, or of the [min_distances] buffer.
    [distance_transform_edt] returns the [float64] square root of an integer
    sum of squares and [np.inf] fills the buffer at the start.  The model
    keeps the exact sum of squares.  [dt < min_distances] is decided on the
    sums of squares, which are ordered as their rounded square roots are
    ([np_sqrt_lt_iff], for sums of squares below [2^52]), and
    [dt <= max_distance] on the rounded square root ([within] below). *)
Inductive dist : Type :=
| Finite (sq : Z)
| Infinite.

(** [d1 < d2] on distances. *)
Definition dist_ltb (d1 d2 : dist) : bool :=
  match d1, d2 with
  | Finite a, Finite b => a <? b
  | Finite _, Infinite => true
  | Infinite, _ => false
  end.

Definition dist_min (d1 d2 : dist) : dist :=
  if dist_ltb d2 d1 then d2 else d1.

(** [d <= max_distance] as the code decides it: [d] is the [float64] that
    [distance_transform_edt] returns, the square root of the sum of squares
    rounded to the nearest [float64], and it is compared with the value of
    [max_distance] (a Python [float] or [int]).  The [np.inf] of the buffer
    is above every number. *)
Definition within (d : dist) (max_distance : Q) : bool :=
  match d with
  | Finite sq => Qle_bool (np_sqrt sq) max_distance
  | Infinite => false
  end.

(** The squared Euclidean distance of two pixels, in pixel units. *)
Definition sq_dist (p q : nat * nat) : Z :=
  (Z.of_nat p.1 - Z.of_nat q.1) * (Z.of_nat p.1 - Z.of_nat q.1)
  + (Z.of_nat p.2 - Z.of_nat q.2) * (Z.of_nat p.2 - Z.of_nat q.2).

(** Every pixel of an array with its row, its column and its value, in
    row-major order. *)
Definition positions (a : list (list Z)) : list (nat * nat * Z) :=
  concat (imap (λ r row, imap (λ c v, (r, c, v)) row) a).

(** The pixels of value [0]. *)
Definition zeros_of (a : list (list Z)) : list (nat * nat) :=
  (λ x : nat * nat * Z, x.1) <$> filter (λ x : nat * nat * Z, x.2 = 0) (positions a).

(** The least squared distance from [p] to one of [sites]. *)
Definition nearest_sq (sites : list (nat * nat)) (p : nat * nat) : dist :=
  foldr (λ q acc, dist_min (Finite (sq_dist p q)) acc) Infinite sites.

(** [scipy.ndimage.distance_transform_edt]: every element is replaced by its
    distance to the nearest element of value [0] (so [0] where the element is
    [0] itself).  An input without any [0] does not occur below: a colour of
    [np.unique image] is the value of some pixel. *)
Definition distance_transform_edt (input : list (list Z)) : list (list dist) :=
  imap2d (λ r c _, nearest_sq (zeros_of input) (r, c)) input.

(** [np.unique]: the distinct values of the flattened array, ascending. *)
Fixpoint insert_unique (x : Z) (l : list Z) : list Z :=
  match l with
  | [] => [x]
  | y :: l' =>
      if x <? y then x :: y :: l'
      else if x =? y then y :: l'
      else y :: insert_unique x l'
  end.

Definition np_unique (image : list (list Z)) : list Z :=
  foldr insert_unique [] (concat image).

(** [(image == color_value).astype(np.uint8)] *)
Definition region_mask (image : list (list Z)) (color_value : Z)
  : list (list Z) :=
  map2d (λ v, if v =? color_value then 1 else 0) image.

(** One turn of the loop over the colours, on the pair
    [(min_distances, closest_values)]. *)
Definition color_step (image : list (list Z)) (max_distance : Q)
    (st : list (list dist) * list (list Z)) (color_value : Z)
  : list (list dist) * list (list Z) :=
  if color_value =? 0 then st
  else
    let mask := region_mask image color_value in
    let dt := distance_transform_edt (map2d (λ m, 1 - m) mask) in
    let mask_update :=
      zip2d (λ d m, dist_ltb d m && within d max_distance) dt st.1 in
    (where2d mask_update dt st.1, where2d_const mask_update color_value st.2).

(** The body of [fill_2d_image_gaps] after the image is loaded, with the order
    in which the colours are visited as an argument. *)
Definition fill_with_order (unique_colors : list Z)
    (image : list (list Z)) (max_distance : Q) : list (list Z) :=
  let filled_image := image in
  let min_distances := map2d (λ _, Infinite) image in
  let closest_values := map2d (λ _, 0) image in
  let st :=
    foldl (color_step image max_distance)
          (min_distances, closest_values) unique_colors in
  let fill_condition :=
    zip2d andb (map2d (λ v, v =? 0) image)
               (map2d (λ d, within d max_distance) st.1) in
  where2d fill_condition st.2 filled_image.

(** [fill_2d_image_gaps] on the loaded image; the result is the array that is
    saved to [output_path]. *)
Definition fill_2d_image_gaps (image : list (list Z)) (max_distance : Q)
  : list (list Z) :=
  fill_with_order (np_unique image) image max_distance.

(** The loop seen from one pixel [p]: the distance transform of a colour at
    [p], and what one turn does to [(min_distances[p], closest_values[p])]. *)
Definition dt_at (image : list (list Z)) (color_value : Z) (p : nat * nat)
  : dist :=
  nearest_sq
    (zeros_of (map2d (λ m, 1 - m) (region_mask image color_value))) p.

Definition pixel_step (image : list (list Z)) (max_distance : Q)
    (p : nat * nat) (st : dist * Z) (color_value : Z) : dist * Z :=
  if color_value =? 0 then st
  else
    let d := dt_at image color_value p in
    if dist_ltb d st.1 && within d max_distance then (d, color_value) else st.

(** What the pair [(min_distances[p], closest_values[p])] can be after any
    number of turns: untouched, or the distance and the label of a colour
    within the bound. *)
Definition settled (image : list (list Z)) (md : Q) (p : nat * nat)
    (colors : list Z) (st : dist * Z) : Prop :=
  st = (Infinite, 0)
  ∨ (st.2 ∈ colors ∧ st.2 ≠ 0 ∧ st.1 = dt_at image st.2 p
     ∧ within st.1 md = true).


(** One labelled pixel, and the background pixel [(1, 5)] at squared
    distance [26] from it. *)
Definition corner_image : list (list Z) :=
  [[9; 0; 0; 0; 0; 0]; [0; 0; 0; 0; 0; 0]].

(** The [float64] nearest to the square root of [26], which lies below the
    square root: [math.sqrt(26)] in Python. *)
Definition sqrt26 : Q := 5740985595342838 # 1125899906842624.

End Sdf.


(** ** Volumes and the NumPy operations of the view converters *)

Module Volume.

(** [m[i, j, k]], and [0] outside the array. *)
Definition get3 (m : list (list (list Z))) (i j k : nat) : Z :=
  default 0 ((m !! i ≫= (λ plane, plane !! j)) ≫= (λ row, row !! k)).

(** The array of shape [(a, b, c)] whose element at [(i, j, k)] is
    [f i j k]. *)
Definition build3 {A} (a b c : nat) (f : nat → nat → nat → A)
  : list (list (list A)) :=
  (λ i, (λ j, (λ k, f i j k) <$> seq 0 c) <$> seq 0 b) <$> seq 0 a.

(** [m.shape] of a rectangular array without an empty axis. *)
Definition shape3 (m : list (list (list Z))) : nat * nat * nat :=
  (length m,
   length (default [] (m !! 0%nat)),
   length (default [] (default [] (m !! 0%nat) !! 0%nat))).

(** [m] is a rectangular array of shape [(a, b, c)]. *)
Definition rect3 (a b c : nat) (m : list (list (list Z))) : Prop :=
  length m = a
  ∧ Forall (λ plane, length plane = b
                     ∧ Forall (λ row : list Z, length row = c) plane) m.

(** The samples in row-major order. *)
Definition flatten3 {A} (m : list (list (list A))) : list A :=
  concat (concat m).

(** The positions of an array of shape [(a, b, c)] in row-major order, and
    whether a position lies in such an array. *)
Definition indices3 (a b c : nat) : list (nat * nat * nat) :=
  flatten3 (build3 a b c (λ i j k, (i, j, k))).

Definition in_shape (a b c : nat) (idx : nat * nat * nat) : Prop :=
  (idx.1.1 < a ∧ idx.1.2 < b ∧ idx.2 < c)%nat.

(** Every sample is a [uint8]. *)
Definition is_uint8 (m : list (list (list Z))) : Prop :=
  Forall (Forall (Forall (λ x, 0 ≤ x < 256))) m.

(** [m.astype(np.uint8)] on integer samples. *)
Definition astype_uint8 (m : list (list (list Z))) : list (list (list Z)) :=
  (λ plane : list (list Z),
     (λ row : list Z, (λ x, x mod 256) <$> row) <$> plane) <$> m.

(** [np.flip(m, axis)]: the order of the elements along [axis] is
    reversed. *)
Definition np_flip (m : list (list (list Z))) (axis : nat)
  : list (list (list Z)) :=
  let '(a, b, c) := shape3 m in
  match axis with
  | 0 => build3 a b c (λ i j k, get3 m (a - 1 - i) j k)
  | 1 => build3 a b c (λ i j k, get3 m i (b - 1 - j) k)
  | _ => build3 a b c (λ i j k, get3 m i j (c - 1 - k))
  end%nat.

(** [np.transpose(m, axes_list)] for the [axes_list] of [np.rot90]: the
    identity with the two axes [ax1] and [ax2] exchanged. *)
Definition np_swapaxes (m : list (list (list Z))) (ax1 ax2 : nat)
  : list (list (list Z)) :=
  let '(a, b, c) := shape3 m in
  match ax1, ax2 with
  | 0, 1 | 1, 0 => build3 b a c (λ i j k, get3 m j i k)
  | 0, 2 | 2, 0 => build3 c b a (λ i j k, get3 m k j i)
  | 1, 2 | 2, 1 => build3 a c b (λ i j k, get3 m i k j)
  | _, _ => m
  end%nat.

(** [np.rot90(m, k, axes)], as NumPy defines it from [flip] and
    [transpose]. *)
Definition np_rot90 (m : list (list (list Z))) (k : Z) (axes : nat * nat)
  : list (list (list Z)) :=
  match k mod 4 with
  | 0 => m
  | 2 => np_flip (np_flip m axes.1) axes.2
  | 1 => np_swapaxes (np_flip m axes.2) axes.1 axes.2
  | _ => np_flip (np_swapaxes m axes.1 axes.2) axes.2
  end.

(** What [skimage.io.imread] does to the array that it reads from a file:
    an array whose axis [-3] has 3 or 4 elements while its last axis has
    not is taken for an image that stores its channels first, and
    [np.swapaxes(img, -1, -3)] followed by [np.swapaxes(img, -2, -3)] moves
    that axis to the end. *)
Definition channels_first (m : list (list (list Z))) : bool :=
  let '(a, _, c) := shape3 m in
  negb (bool_decide (c = 3 ∨ c = 4)%nat) && bool_decide (a = 3 ∨ a = 4)%nat.

Definition io_imread (file : list (list (list Z))) : list (list (list Z)) :=
  if channels_first file
  then np_swapaxes (np_swapaxes file 2 0) 1 0
  else file.

(** [w] has shape [(a', b', c')] and its element at [idx] is the element of
    [m] at [σ idx], where [σ] maps the positions of [w] one-to-one onto the
    positions of an array of shape [(a, b, c)]; [τ] is its inverse. *)
Definition rearranges (a b c a' b' c' : nat)
    (σ τ : nat * nat * nat → nat * nat * nat)
    (m w : list (list (list Z))) : Prop :=
  w = build3 a' b' c' (λ i j k, get3 m (σ (i, j, k)).1.1 (σ (i, j, k)).1.2
                                       (σ (i, j, k)).2)
  ∧ (∀ idx, in_shape a' b' c' idx → in_shape a b c (σ idx) ∧ τ (σ idx) = idx)
  ∧ (∀ idx, in_shape a b c idx → in_shape a' b' c' (τ idx) ∧ σ (τ idx) = idx).

End Volume.

(** ** The view converters ([utils/views_converter_utils.py]) *)

Module Views.
Import Volume.

(** [tiff_utils.load_tiff_image(path, np.uint8)] on the samples of an
    existing file: [np.asarray(io.imread(path), dtype=np.uint8)]. *)
Definition load_tiff_image (file : list (list (list Z)))
  : list (list (list Z)) :=
  let img := io_imread file in
  astype_uint8 img.

(** Every slice [tif_data[i]] is transposed into a zero array of shape
    [(shape[0], shape[2], shape[1])], which is then cast. *)
Definition transpose_tif (tif_data : list (list (list Z)))
  : list (list (list Z)) :=
  let '(s0, s1, s2) := shape3 tif_data in
  astype_uint8 (build3 s0 s2 s1 (λ i j k, get3 tif_data i k j)).

(** The converters, from the samples of the input file to the samples that
    are saved. *)
Definition convert_dorsal_tif_to_coronal_tif (file : list (list (list Z)))
  : list (list (list Z)) :=
  let tif_file_data := load_tiff_image file in
  np_rot90 tif_file_data 3 (0, 1)%nat.

Definition convert_dorsal_tif_to_sagittal_tif (file : list (list (list Z)))
  : list (list (list Z)) :=
  let tif_file_data := load_tiff_image file in
  let sagittal_tif_data := np_rot90 tif_file_data 3 (0, 2)%nat in
  transpose_tif sagittal_tif_data.

Definition convert_sagittal_tif_to_coronal_tif (file : list (list (list Z)))
  : list (list (list Z)) :=
  let tif_file_data := load_tiff_image file in
  let coronal_tif_data := np_rot90 tif_file_data 3 (0, 2)%nat in
  np_flip coronal_tif_data 2.

Definition convert_sagittal_tif_to_dorsal_tif (file : list (list (list Z)))
  : list (list (list Z)) :=
  let tif_file_data := load_tiff_image file in
  let dorsal_tif_data := np_rot90 tif_file_data 1 (0, 1)%nat in
  transpose_tif dorsal_tif_data.

Definition convert_coronal_tif_to_dorsal_tif (file : list (list (list Z)))
  : list (list (list Z)) :=
  let tif_file_data := load_tiff_image file in
  np_rot90 tif_file_data (-3) (0, 1)%nat.

Definition convert_coronal_tif_to_sagittal_tif (file : list (list (list Z)))
  : list (list (list Z)) :=
  let tif_file_data := load_tiff_image file in
  let sagittal_tif_data := np_rot90 tif_file_data 3 (0, 2)%nat in
  np_flip sagittal_tif_data 2.

(** The three view conventions, and the converter of each ordered pair of
    different views. *)
Inductive view : Type := Dorsal | Coronal | Sagittal.

Definition reorient (v : list (list (list Z))) (from_view to_view : view)
  : option (list (list (list Z))) :=
  match from_view, to_view with
  | Dorsal, Coronal => Some (convert_dorsal_tif_to_coronal_tif v)
  | Dorsal, Sagittal => Some (convert_dorsal_tif_to_sagittal_tif v)
  | Sagittal, Coronal => Some (convert_sagittal_tif_to_coronal_tif v)
  | Sagittal, Dorsal => Some (convert_sagittal_tif_to_dorsal_tif v)
  | Coronal, Dorsal => Some (convert_coronal_tif_to_dorsal_tif v)
  | Coronal, Sagittal => Some (convert_coronal_tif_to_sagittal_tif v)
  | _, _ => None
  end.

(** A volume of shape [(2, 2, 3)] with twelve labels. *)
Definition sample_volume : list (list (list Z)) :=
  [[[1; 2; 3]; [4; 5; 6]]; [[7; 8; 9]; [10; 11; 12]]].

End Views.


(** ** Merging and extracting regions ([utils/tiff_utils.py]) *)

Module Tiff.
Import Array2 Volume.

(** Element-wise operations on volumes of any (possibly ragged) shape. *)
Definition at3 {A} (m : list (list (list A))) (i j k : nat) : option A :=
  m !! i ≫= (λ plane, at2 plane j k).

Definition map3 {A B} (f : A → B) (m : list (list (list A)))
  : list (list (list B)) :=
  (λ plane : list (list A), map2d f plane) <$> m.

Definition zip3 {A B C} (f : A → B → C)
    (m1 : list (list (list A))) (m2 : list (list (list B)))
  : list (list (list C)) :=
  zip_with (zip2d f) m1 m2.

(** The lengths of all rows of all planes. *)
Definition dims3 {A} (m : list (list (list A))) : list (list nat) :=
  (λ plane : list (list A), shape2 plane) <$> m.

(** The exceptions that the two functions can raise. *)
Inductive error : Type :=
| IndexError
| AttributeError
| OverflowError
| KeyError.

Inductive result (A : Type) : Type :=
| Ok (x : A)
| Raise (e : error).
Arguments Ok {A} x.
Arguments Raise {A} e.

(** The TIFF files of the file system: a path is a file when it is bound,
    and then [tiff.imread] returns its samples.  [load_image] reads the file
    with [io.imread], and returns [None] for a path that is no file. *)
Definition isfile (fs : gmap string (list (list (list Z)))) (path : string)
  : bool :=
  bool_decide (is_Some (fs !! path)).

Definition load_image (fs : gmap string (list (list (list Z))))
    (datapath : string) : option (list (list (list Z))) :=
  if isfile fs datapath then io_imread <$> fs !! datapath else None.

(** [tiff_stack_data[mask_data != 0] = v] on a [uint8] stack and a Python
    integer [v]: a boolean index of another shape raises [IndexError], and a
    [v] that is no [uint8] raises [OverflowError] (NumPy 2 converts the
    integer to the type of the array before it looks at the mask). *)
Definition masked_store (tiff_stack_data mask_data : list (list (list Z)))
    (v : Z) : result (list (list (list Z))) :=
  if decide (dims3 mask_data = dims3 tiff_stack_data)
  then
    if decide (0 ≤ v ≤ 255)
    then Ok (zip3 (λ s m, if m =? 0 then s else v)
                  tiff_stack_data mask_data)
    else Raise OverflowError
  else Raise IndexError.

(** One turn of the loop of [merge_8bit_grayscale_tif_files]; the mask
    is read with [tiff.imread]. *)
Definition merge_step (fs : gmap string (list (list (list Z))))
    (acc : result (list (list (list Z)))) (entry : string * option Z)
  : result (list (list (list Z))) :=
  match acc with
  | Raise e => Raise e
  | Ok tiff_stack_data =>
      let '(region_path, color_value) := entry in
      if isfile fs region_path then
        match fs !! region_path with
        | Some mask_data =>
            masked_store tiff_stack_data mask_data (default 255 color_value)
        | None => Ok tiff_stack_data
        end
      else Ok tiff_stack_data
  end.

(** [merge_8bit_grayscale_tif_files] on files of [uint8] samples: the
    file system after the merged volume is written to [output_path], or the
    exception.  The stack takes its shape from what [load_image] returns
    for the first path. *)
Definition merge_8bit_grayscale_tif_files
    (fs : gmap string (list (list (list Z)))) (output_path : string)
    (tiffs_path : list string) (color_values : option (list Z))
  : result (gmap string (list (list (list Z)))) :=
  match tiffs_path with
  | [] => Raise IndexError
  | first :: _ =>
      match load_image fs first with
      | None => Raise AttributeError
      | Some image =>
          let tiff_stack_data := map3 (λ _, 0) image in
          let color_values :=
            match color_values with
            | None => replicate (length tiffs_path) None
            | Some l => Some <$> l
            end in
          match foldl (merge_step fs) (Ok tiff_stack_data)
                      (zip tiffs_path color_values) with
          | Ok merged => Ok (<[output_path := merged]> fs)
          | Raise e => Raise e
          end
      end
  end.

(** One turn of the loop of [extract_8bit_grayscale_tif_files], on the file
    system and the exception raised so far. *)
Definition extract_step (combined_image : list (list (list Z)))
    (color_to_region_dic : gmap Z string) (output_path : string)
    (st : gmap string (list (list (list Z))) * option error)
    (color_value : Z)
  : gmap string (list (list (list Z))) * option error :=
  match st.2 with
  | Some _ => st
  | None =>
      let binary_mask :=
        map3 (λ x, if x =? color_value then 255 else 0) combined_image in
      match color_to_region_dic !! color_value with
      | None => (st.1, Some KeyError)
      | Some region_name =>
          let tif_file_path := output_path +:+ "/" +:+ region_name in
          (<[tif_file_path := binary_mask]> st.1, None)
      end
  end.

(** [extract_8bit_grayscale_tif_files]: the file system at the end and the
    exception, if one was raised.  A combined file that cannot be read is
    reported and nothing is written. *)
Definition extract_8bit_grayscale_tif_files
    (fs : gmap string (list (list (list Z)))) (combined_tiff : string)
    (colors : list Z) (color_to_region_dic : gmap Z string)
    (output_path : string)
  : gmap string (list (list (list Z))) * option error :=
  match fs !! combined_tiff with
  | None => (fs, None)
  | Some combined_image =>
      foldl (extract_step combined_image color_to_region_dic output_path)
            (fs, None) colors
  end.

(** One line of the catalog with its mask: the path of the mask file, the
    name of the region, its label and the samples of the mask. *)
Record region : Type := Region {
  region_path : string;
  region_name : string;
  region_label : Z;
  region_mask : list (list (list Z));
}.

(** No voxel is foreground in both masks. *)
Definition disjoint_masks (m1 m2 : list (list (list Z))) : Prop :=
  ∀ i j k x y, at3 m1 i j k = Some x → at3 m2 i j k = Some y →
               x = 0 ∨ y = 0.

(** The loop of the merge on masks that are all present and of the shape
    of the stack, with labels that are [uint8]. *)
Definition paint (stack : list (list (list Z))) (e : region)
  : list (list (list Z)) :=
  zip3 (λ s m, if m =? 0 then s else region_label e)
       stack (region_mask e).

(** The sample of the mask of a region at one voxel. *)
Definition voxel_of (i j k : nat) (e : region) : Z :=
  default 0 (at3 (region_mask e) i j k).

(** Two masks of one plane and four voxels, in two files. *)
Definition sample_fs : gmap string (list (list (list Z))) :=
  <["in/a.tif" := [[[255; 0]; [0; 0]]]]>
    (<["in/b.tif" := [[[0; 0]; [255; 255]]]]> ∅).

(** Two disjoint masks of three planes and two voxels a plane. *)
Definition three_plane_fs : gmap string (list (list (list Z))) :=
  <["in/a.tif" := [[[255; 0]]; [[0; 0]]; [[0; 0]]]]>
    (<["in/b.tif" := [[[0; 255]]; [[0; 0]]; [[0; 255]]]]> ∅).

(** The two masks and a third file of another shape. *)
Definition other_shape_fs : gmap string (list (list (list Z))) :=
  <["in/c.tif" := [[[255]]]]> sample_fs.

(** [normalize_stack]: [(tif_data > 0).astype(np.uint8)] times 255. *)
Definition normalize_stack (tif_data : list (list (list Z)))
  : list (list (list Z)) :=
  map3 (λ x, (if 0 <? x then 1 else 0) * 255) tif_data.

(** The pairs that the loop of [merge_8bit_grayscale_tif_files] visits. *)
Definition merge_entries (tiffs_path : list string)
    (color_values : option (list Z)) : list (string * option Z) :=
  zip tiffs_path
      match color_values with
      | None => replicate (length tiffs_path) None
      | Some l => Some <$> l
      end.

(** An entry that the loop of the merge passes without an exception: its
    file is missing, or its mask has the shape of the stack and its colour
    (255 without colours) is a [uint8]. *)
Definition entry_fits (fs : gmap string (list (list (list Z))))
    (stack : list (list (list Z))) (entry : string * option Z) : Prop :=
  ∀ m, fs !! entry.1 = Some m →
       dims3 m = dims3 stack ∧ 0 ≤ default 255 entry.2 ≤ 255.

(** Two regions with one mask, and their names. *)
Definition overlap_catalog : list region :=
  [Region "in/b.tif" "b" 20 [[[0; 0]; [255; 255]]];
   Region "in/b.tif" "c" 30 [[[0; 0]; [255; 255]]]].

Definition overlap_dic : gmap Z string :=
  <[20 := "b"]> (<[30 := "c"]> ∅).

End Tiff.


(** ** The region table ([utils/file_utils.py]) *)

Module Catalog.

(** The exception that the parser can raise once the file is open. *)
Inductive error : Type :=
| ValueError.

Inductive result (A : Type) : Type :=
| Ok (x : A)
| Raise (e : error).
Arguments Ok {A} x.
Arguments Raise {A} e.

(** A string of the model is a string of characters with codes below 256.
    The white space of [str.strip] and [int] among them: the codes 9 to 13,
    28 to 32, 133 and 160. *)
Definition is_space (c : ascii) : bool :=
  let n := N_of_ascii c in
  ((9 <=? n)%N && (n <=? 13)%N) || ((28 <=? n)%N && (n <=? 32)%N)
  || (n =? 133)%N || (n =? 160)%N.

Fixpoint lstrip (s : string) : string :=
  match s with
  | EmptyString => EmptyString
  | String c s' => if is_space c then lstrip s' else s
  end.

(** [s.strip()] *)
Definition strip (s : string) : string :=
  String.rev (lstrip (String.rev (lstrip s))).

(** [s.split(sep)] for a separator of one character. *)
Fixpoint split (sep : ascii) (s : string) : list string :=
  match s with
  | EmptyString => [EmptyString]
  | String c s' =>
      if Ascii.eqb c sep then EmptyString :: split sep s'
      else
        match split sep s' with
        | field :: fields => String c field :: fields
        | [] => [String c EmptyString]
        end
  end.

Definition digit_of (c : ascii) : option Z :=
  let n := N_of_ascii c in
  if ((48 <=? n)%N && (n <=? 57)%N) then Some (Z.of_N n - 48) else None.

(** The digits of a decimal literal, where one underscore may stand between
    two digits; [prev_digit] tells whether the character before was a
    digit. *)
Fixpoint int_digits (acc : Z) (prev_digit : bool) (s : string) : option Z :=
  match s with
  | EmptyString => if prev_digit then Some acc else None
  | String c s' =>
      match digit_of c with
      | Some d => int_digits (10 * acc + d) true s'
      | None =>
          if Ascii.eqb c "_" && prev_digit then int_digits acc false s'
          else None
      end
  end.

(** [int(s)]: white space around, a sign, decimal digits; [None] stands
    for [ValueError]. *)
Definition py_int (s : string) : option Z :=
  match strip s with
  | String "+" digits => int_digits 0 false digits
  | String "-" digits => Z.opp <$> int_digits 0 false digits
  | digits => int_digits 0 false digits
  end.

(** [os.path.join(a, b)] of [posixpath]. *)
Definition os_path_join (a b : string) : string :=
  match b with
  | String "/" _ => b
  | _ =>
      match String.rev a with
      | EmptyString => b
      | String "/" _ => a +:+ b
      | _ => a +:+ "/" +:+ b
      end
  end.

(** [region_name, color = line.strip().split('|')] and [int(color)]. *)
Definition parse_line (line : string) : result (string * Z) :=
  match split "|" (strip line) with
  | [region_name; color] =>
      match py_int color with
      | Some n => Ok (region_name, n)
      | None => Raise ValueError
      end
  | _ => Raise ValueError
  end.

(** One turn of the loop over the lines, on
    [(tif_paths, color_values, color_to_region_map)]. *)
Definition parse_step (regions_path : string)
    (acc : result (list string * list Z * gmap Z string)) (line : string)
  : result (list string * list Z * gmap Z string) :=
  match acc with
  | Raise e => Raise e
  | Ok (tif_paths, color_values, color_to_region_map) =>
      match parse_line line with
      | Raise e => Raise e
      | Ok (region_name, color) =>
          Ok (tif_paths ++ [os_path_join regions_path region_name],
              color_values ++ [color],
              <[color := region_name]> color_to_region_map)
      end
  end.

(** [parse_anatomical_structures_txt_file] on the lines that
    [file.readlines()] returns. *)
Definition parse_anatomical_structures_txt_file (lines : list string)
    (regions_path : string)
  : result (list string * list Z * gmap Z string) :=
  foldl (parse_step regions_path) (Ok ([], [], ∅)) lines.

(** The map after the lines: every record is inserted in turn. *)
Definition record_all (dic : gmap Z string) (recs : list (string * Z))
  : gmap Z string :=
  foldl (λ d (rec : string * Z), <[rec.2 := rec.1]> d) dic recs.

(** A table of two lines that give one label to two regions. *)
Definition duplicate_label_table : list string :=
  ["forebrain|10" +:+ String "010" EmptyString;
   "hindbrain|10" +:+ String "010" EmptyString].

(** How often a character occurs in a string, and whether a string holds
    white space only. *)
Fixpoint count_char (c : ascii) (s : string) : nat :=
  match s with
  | EmptyString => 0
  | String c' s' => (if Ascii.eqb c' c then 1 else 0) + count_char c s'
  end.

Fixpoint all_space (s : string) : bool :=
  match s with
  | EmptyString => true
  | String c s' => is_space c && all_space s'
  end.

End Catalog.

(** * Properties *)

Module Array2Facts.
Import Array2.

Lemma at2_map2d {A B} (f : A → B) a r c :
  at2 (map2d f a) r c = f <$> at2 a r c.
Proof.
  unfold at2, map2d. rewrite list_lookup_fmap.
  destruct (a !! r) as [row|]; simpl; [|done].
  by rewrite list_lookup_fmap.
Qed.

Lemma at2_imap2d {A B} (f : nat → nat → A → B) a r c :
  at2 (imap2d f a) r c = f r c <$> at2 a r c.
Proof.
  unfold at2, imap2d. rewrite list_lookup_imap.
  destruct (a !! r) as [row|]; simpl; [|done].
  by rewrite list_lookup_imap.
Qed.

Lemma at2_zip2d {A B C} (f : A → B → C) a b r c :
  at2 (zip2d f a b) r c =
  match at2 a r c, at2 b r c with
  | Some x, Some y => Some (f x y)
  | _, _ => None
  end.
Proof.
  unfold at2, zip2d. rewrite lookup_zip_with.
  destruct (a !! r) as [ra|]; simpl; [|done].
  destruct (b !! r) as [rb|]; simpl.
  - rewrite lookup_zip_with.
    destruct (ra !! c); simpl; [|done]. by destruct (rb !! c).
  - by destruct (ra !! c).
Qed.

Lemma shape2_map2d {A B} (f : A → B) a : shape2 (map2d f a) = shape2 a.
Proof.
  unfold shape2, map2d. rewrite <- list_fmap_compose.
  apply list_fmap_ext. intros i x _. simpl. by rewrite length_fmap.
Qed.

Lemma shape2_imap2d {A B} (f : nat → nat → A → B) a :
  shape2 (imap2d f a) = shape2 a.
Proof.
  unfold shape2, imap2d. apply list_eq. intros i.
  rewrite !list_lookup_fmap, list_lookup_imap.
  destruct (a !! i); simpl; [|done]. by rewrite length_imap.
Qed.

Lemma shape2_zip2d {A B C} (f : A → B → C) a b :
  shape2 a = shape2 b → shape2 (zip2d f a b) = shape2 a.
Proof.
  unfold shape2, zip2d. intros Hs. apply list_eq. intros i.
  assert (Hi := f_equal (λ l, l !! i) Hs). simpl in Hi.
  rewrite !list_lookup_fmap in Hi.
  rewrite !list_lookup_fmap, lookup_zip_with.
  destruct (a !! i) as [ra|], (b !! i) as [rb|]; simpl in *; try done.
  rewrite length_zip_with. injection Hi as Hi. f_equal. lia.
Qed.

(** Two arrays of one shape that agree at every position are equal. *)
Lemma array2_ext {A} (a b : list (list A)) :
  shape2 a = shape2 b →
  (∀ r c, at2 a r c = at2 b r c) →
  a = b.
Proof.
  unfold shape2, at2. intros Hs Hat. apply list_eq. intros r.
  assert (Hr := f_equal (λ l, l !! r) Hs). simpl in Hr.
  rewrite !list_lookup_fmap in Hr.
  destruct (a !! r) as [ra|] eqn:Ha, (b !! r) as [rb|] eqn:Hb;
    simpl in *; try done.
  f_equal. apply list_eq. intros c.
  specialize (Hat r c). by rewrite Ha, Hb in Hat.
Qed.

Lemma shape2_where2d {A} cond (src dst : list (list A)) :
  shape2 cond = shape2 dst → shape2 src = shape2 dst →
  shape2 (where2d cond src dst) = shape2 dst.
Proof.
  intros Hc Hs. unfold where2d.
  assert (shape2 (zip2d pair cond src) = shape2 dst) as Hz.
  { rewrite shape2_zip2d; [done | congruence]. }
  rewrite shape2_zip2d; done.
Qed.

Lemma shape2_where2d_const {A} cond (v : A) (dst : list (list A)) :
  shape2 cond = shape2 dst →
  shape2 (where2d_const cond v dst) = shape2 dst.
Proof. intros Hc. unfold where2d_const. rewrite shape2_zip2d; done. Qed.

End Array2Facts.

(** ** The [float64] square root *)

Module Float64Facts.
Import Float64.

(** [k = log2 n / 2] is the exponent of the square root:
    [2^k <= sqrt n < 2^(k+1)]. *)
Lemma log2_half_bracket n :
  1 ≤ n → 4 ^ (Z.log2 n / 2) ≤ n < 4 ^ (Z.log2 n / 2 + 1).
Proof.
  intros Hn.
  destruct (Z.log2_spec n) as [Hlo Hhi]; [lia|].
  pose proof (Z.log2_nonneg n) as Hl.
  set (l := Z.log2 n) in *. set (k := l / 2).
  assert (2 * k ≤ l < 2 * k + 2) as Hk by (unfold k; Z.div_mod_to_equations; lia).
  assert (0 ≤ k) by lia.
  change 4 with (2 ^ 2). rewrite <- !Z.pow_mul_r by lia.
  split.
  - etrans; [|exact Hlo]. apply Z.pow_le_mono_r; lia.
  - eapply Z.lt_le_trans; [exact Hhi|]. apply Z.pow_le_mono_r; lia.
Qed.

(** The scaled radicand lies in [[4^52, 4^53)]. *)
Lemma scaled_bounds n :
  1 ≤ n →
  let e := sqrt_exponent n in
  4 ^ 52 ≤ n * 4 ^ Z.max (- e) 0 / 4 ^ Z.max e 0 < 4 ^ 53.
Proof.
  intros Hn e. pose proof (log2_half_bracket n Hn) as [Hlo Hhi].
  pose proof (Z.log2_nonneg n) as Hl.
  assert (0 ≤ Z.log2 n / 2) as Hk by (Z.div_mod_to_equations; lia).
  unfold e, sqrt_exponent. set (k := Z.log2 n / 2) in *.
  destruct (Z.le_gt_cases k 52) as [Hle|Hgt].
  - rewrite (Z.max_l (- (k - 52)) 0), (Z.max_r (k - 52) 0) by lia.
    rewrite Z.pow_0_r, Z.div_1_r.
    assert (4 ^ 52 = 4 ^ k * 4 ^ (- (k - 52))) as E1.
    { rewrite <- Z.pow_add_r by lia. f_equal. lia. }
    assert (4 ^ 53 = 4 ^ (k + 1) * 4 ^ (- (k - 52))) as E2.
    { rewrite <- Z.pow_add_r by lia. f_equal. lia. }
    assert (0 < 4 ^ (- (k - 52))) by (apply Z.pow_pos_nonneg; lia).
    rewrite E1, E2. split; nia.
  - rewrite (Z.max_r (- (k - 52)) 0), (Z.max_l (k - 52) 0) by lia.
    rewrite Z.pow_0_r, Z.mul_1_r.
    assert (4 ^ k = 4 ^ 52 * 4 ^ (k - 52)) as E1.
    { rewrite <- Z.pow_add_r by lia. f_equal. lia. }
    assert (4 ^ (k + 1) = 4 ^ 53 * 4 ^ (k - 52)) as E2.
    { rewrite <- Z.pow_add_r by lia. f_equal. lia. }
    assert (0 < 4 ^ (k - 52)) by (apply Z.pow_pos_nonneg; lia).
    split.
    + apply Z.div_le_lower_bound; [done|]. lia.
    + apply Z.div_lt_upper_bound; [done|]. lia.
Qed.

Lemma round_nearest_even_bounds m0 c :
  m0 ≤ round_nearest_even m0 c ≤ m0 + 1.
Proof. destruct c; simpl; [destruct (Z.even m0)|..]; lia. Qed.

(** The mantissa has 53 bits, or is [2^53] after rounding up. *)
Lemma sqrt_mantissa_bounds n :
  1 ≤ n → 2 ^ 52 ≤ sqrt_mantissa n ≤ 2 ^ 53.
Proof.
  intros Hn. unfold sqrt_mantissa.
  pose proof (scaled_bounds n Hn) as [Hlo Hhi]. cbv zeta in Hlo, Hhi.
  set (x := _ / _) in *.
  pose proof (round_nearest_even_bounds (Z.sqrt x)
    (4 * (n * 4 ^ Z.max (- sqrt_exponent n) 0)
       ?= (2 * Z.sqrt x + 1) ^ 2 * 4 ^ Z.max (sqrt_exponent n) 0)) as Hr.
  assert (2 ^ 52 ≤ Z.sqrt x).
  { apply Z.sqrt_le_square; [lia|lia|]. change (2 ^ 52 * 2 ^ 52) with (4 ^ 52). lia. }
  assert (Z.sqrt x < 2 ^ 53).
  { apply Z.sqrt_lt_square; [lia|lia|]. change (2 ^ 53 * 2 ^ 53) with (4 ^ 53). lia. }
  lia.
Qed.

Lemma np_sqrt_nonneg n : (0 <= np_sqrt n)%Q.
Proof.
  unfold np_sqrt. destruct (Z.leb_spec n 0) as [|Hn]; [apply Qle_refl|].
  apply Qmult_le_0_compat.
  - change 0%Q with (inject_Z 0). rewrite <- Zle_Qle.
    pose proof (sqrt_mantissa_bounds n). lia.
  - apply Qpower_0_le. done.
Qed.

Lemma round_nearest_even_mono m0 c c' :
  (c = c' ∨ c = Lt ∨ c' = Gt) →
  round_nearest_even m0 c ≤ round_nearest_even m0 c'.
Proof.
  intros [->|[-> | ->]]; [lia|..]; destruct c' || destruct c; simpl;
    try destruct (Z.even m0); lia.
Qed.

Lemma sqrt_mantissa_mono a b :
  1 ≤ a → a ≤ b → sqrt_exponent a = sqrt_exponent b →
  sqrt_mantissa a ≤ sqrt_mantissa b.
Proof.
  intros Ha Hab He. unfold sqrt_mantissa. rewrite <- He.
  set (e := sqrt_exponent a).
  assert (0 < 4 ^ Z.max (- e) 0) as Hc by (apply Z.pow_pos_nonneg; lia).
  assert (0 < 4 ^ Z.max e 0) as Hd by (apply Z.pow_pos_nonneg; lia).
  set (c := 4 ^ Z.max (- e) 0) in *. set (d := 4 ^ Z.max e 0) in *.
  assert (a * c ≤ b * c) as Hnum by nia.
  assert (Z.sqrt (a * c / d) ≤ Z.sqrt (b * c / d)) as Hm0.
  { apply Z.sqrt_le_mono, Z.div_le_mono; lia. }
  destruct (Z.eq_dec (Z.sqrt (a * c / d)) (Z.sqrt (b * c / d))) as [Heq|Hne].
  - rewrite <- Heq. apply round_nearest_even_mono.
    set (K := (2 * Z.sqrt (a * c / d) + 1) ^ 2 * d).
    destruct (Z.compare_spec (4 * (a * c)) K), (Z.compare_spec (4 * (b * c)) K);
      auto; lia.
  - etrans; [apply round_nearest_even_bounds|].
    etrans; [|apply round_nearest_even_bounds]. lia.
Qed.

(** Rounding keeps the order of the square roots. *)
Lemma np_sqrt_mono a b : a ≤ b → (np_sqrt a <= np_sqrt b)%Q.
Proof.
  intros Hab. unfold np_sqrt at 1.
  destruct (Z.leb_spec a 0) as [|Ha]; [apply np_sqrt_nonneg|].
  unfold np_sqrt. destruct (Z.leb_spec b 0) as [|Hb]; [lia|].
  pose proof (sqrt_mantissa_bounds a ltac:(lia)) as Hma.
  pose proof (sqrt_mantissa_bounds b ltac:(lia)) as Hmb.
  assert (sqrt_exponent a ≤ sqrt_exponent b) as He.
  { unfold sqrt_exponent.
    pose proof (Z.log2_le_mono a b Hab).
    pose proof (Z.div_le_mono (Z.log2 a) (Z.log2 b) 2 ltac:(lia) ltac:(lia)).
    lia. }
  destruct (Z.eq_dec (sqrt_exponent a) (sqrt_exponent b)) as [Heq|Hne].
  - rewrite <- Heq. apply Qmult_le_compat_r.
    + rewrite <- Zle_Qle. apply sqrt_mantissa_mono; [lia|done..].
    + by apply Qpower_0_le.
  - set (ea := sqrt_exponent a) in *. set (eb := sqrt_exponent b) in *.
    assert (2 ^ eb == inject_Z (2 ^ (eb - ea)) * 2 ^ ea)%Q as ->.
    { rewrite Zpower_Qpower by lia. change (inject_Z 2) with 2%Q.
      rewrite <- Qpower_plus by done. by replace (eb - ea + ea) with eb by lia. }
    rewrite Qmult_assoc, <- inject_Z_mult.
    apply Qmult_le_compat_r; [|by apply Qpower_0_le].
    rewrite <- Zle_Qle.
    assert (2 ^ 1 ≤ 2 ^ (eb - ea)) by (apply Z.pow_le_mono_r; lia).
    change (2 ^ 53) with (2 ^ 52 * 2 ^ 1) in Hma. nia.
Qed.

(** [np_sqrt] is the square root of IEEE 754 on the samples. *)
Lemma np_sqrt_ieee_sqrt :
  forallb (λ n, Qeq_bool (np_sqrt n) (ieee_sqrt n)) sqrt_samples = true.
Proof. by vm_compute. Qed.

Lemma np_sqrt_0 : np_sqrt 0 = 0%Q.
Proof. reflexivity. Qed.

Lemma np_sqrt_ge_1 n : 1 ≤ n → (1 <= np_sqrt n)%Q.
Proof.
  intros Hn. assert (1 == np_sqrt 1)%Q as -> by (by vm_compute).
  by apply np_sqrt_mono.
Qed.

(** The mantissa is a nearest integer to [sqrt (num / den)]. *)
Lemma sqrt_mantissa_nearest n :
  1 ≤ n →
  let e := sqrt_exponent n in
  let num := n * 4 ^ Z.max (- e) 0 in
  let den := 4 ^ Z.max e 0 in
  let m := sqrt_mantissa n in
  (2 * m - 1) ^ 2 * den ≤ 4 * num ≤ (2 * m + 1) ^ 2 * den.
Proof.
  intros Hn e num den m.
  pose proof (scaled_bounds n Hn) as [Hlo Hhi]. cbv zeta in Hlo, Hhi.
  fold e num den in Hlo, Hhi.
  assert (0 < den) as Hden by (apply Z.pow_pos_nonneg; lia).
  assert (0 ≤ num / den) as Hx by lia.
  pose proof (Z.sqrt_spec (num / den) Hx) as [Hs1 Hs2].
  pose proof (Z.mul_div_le num den Hden) as Hd1.
  pose proof (Z.mul_succ_div_gt num den Hden) as Hd2.
  assert (2 ^ 52 ≤ Z.sqrt (num / den)) as Hm0.
  { apply Z.sqrt_le_square; [lia|lia|].
    change (2 ^ 52 * 2 ^ 52) with (4 ^ 52). lia. }
  unfold m, sqrt_mantissa. fold e num den.
  set (m0 := Z.sqrt (num / den)) in *.
  assert (1 ≤ m0) as Hm1 by lia.
  assert (m0 * m0 * den ≤ num) as Hl.
  { etrans; [|exact Hd1]. rewrite (Z.mul_comm den). 
    apply Z.mul_le_mono_nonneg_r; lia. }
  assert (num < (m0 + 1) * (m0 + 1) * den) as Hu.
  { eapply Z.lt_le_trans; [exact Hd2|]. rewrite (Z.mul_comm den).
    apply Z.mul_le_mono_nonneg_r; lia. }
  assert (den ≤ m0 * den) as HQ by nia.
  clearbody m0 num den. clear - Hl Hu HQ Hden Hm1.
  set (P := m0 * m0 * den) in *. set (Q := m0 * den) in *.
  assert (∀ m, (m = m0 ∨ m = m0 + 1) →
            (m = m0 → 4 * num ≤ 4 * P + 4 * Q + den) →
            (m = m0 + 1 → 4 * P + 4 * Q + den ≤ 4 * num) →
            (2 * m - 1) ^ 2 * den ≤ 4 * num ≤ (2 * m + 1) ^ 2 * den) as Hgen.
  { intros m [->| ->] H1 H2.
    - replace ((2 * m0 - 1) ^ 2 * den) with (4 * P - 4 * Q + den)
        by (unfold P, Q; ring).
      replace ((2 * m0 + 1) ^ 2 * den) with (4 * P + 4 * Q + den)
        by (unfold P, Q; ring).
      specialize (H1 eq_refl). lia.
    - replace ((2 * (m0 + 1) - 1) ^ 2 * den) with (4 * P + 4 * Q + den)
        by (unfold P, Q; ring).
      replace ((2 * (m0 + 1) + 1) ^ 2 * den) with (4 * P + 12 * Q + 9 * den)
        by (unfold P, Q; ring).
      replace ((m0 + 1) * (m0 + 1) * den) with (P + 2 * Q + den) in Hu
        by (unfold P, Q; ring).
      specialize (H2 eq_refl). lia. }
  replace ((2 * m0 + 1) ^ 2 * den) with (4 * P + 4 * Q + den)
    by (unfold P, Q; ring).
  destruct (Z.compare_spec (4 * num) (4 * P + 4 * Q + den)) as [Hc|Hc|Hc];
    simpl; [destruct (Z.even m0)|..]; apply Hgen; auto; lia.
Qed.

(** For a radicand below [2^106] the exponent is not positive and the
    square root is [m / 2^(-e)]. *)
Lemma np_sqrt_le_inject_Z n md :
  1 ≤ n → sqrt_exponent n ≤ 0 →
  (np_sqrt n <= inject_Z md)%Q
  ↔ sqrt_mantissa n ≤ md * 2 ^ (- sqrt_exponent n).
Proof.
  intros Hn He. unfold np_sqrt.
  destruct (Z.leb_spec n 0) as [|_]; [lia|].
  set (e := sqrt_exponent n) in *. set (m := sqrt_mantissa n).
  assert (0 < 2 ^ (- e)) as HS by (apply Z.pow_pos_nonneg; lia).
  assert (2 ^ e * inject_Z (2 ^ (- e)) == 1)%Q as Hinv.
  { rewrite Zpower_Qpower by lia. change (inject_Z 2) with 2%Q.
    rewrite <- Qpower_plus by done. by replace (e + - e) with 0 by lia. }
  assert (0 < inject_Z (2 ^ (- e)))%Q as HSq.
  { change 0%Q with (inject_Z 0). by rewrite <- Zlt_Qlt. }
  rewrite Zle_Qle, inject_Z_mult. split; intros H.
  - apply (Qmult_le_compat_r _ _ (inject_Z (2 ^ (- e)))) in H;
      [|by apply Qlt_le_weak].
    rewrite <- Qmult_assoc, Hinv, Qmult_1_r in H. exact H.
  - apply (Qmult_le_r _ _ (inject_Z (2 ^ (- e)))); [done|].
    by rewrite <- Qmult_assoc, Hinv, Qmult_1_r.
Qed.

Lemma sqrt_exponent_small n :
  1 ≤ n → n < 2 ^ 52 → sqrt_exponent n ≤ -27.
Proof.
  intros Hn Hlt. unfold sqrt_exponent.
  assert (Z.log2 n < 52) by (apply Z.log2_lt_pow2; lia).
  pose proof (Z.log2_nonneg n). Z.div_mod_to_equations. lia.
Qed.

(** For an integer bound below [2^26] the rounding does not matter: the
    rounded square root of [n] is at most [md] exactly when [n <= md^2]. *)
Lemma np_sqrt_le_integer n md :
  0 ≤ md < 2 ^ 26 →
  (np_sqrt n <= inject_Z md)%Q ↔ n ≤ md * md.
Proof.
  intros [Hmd0 Hmd].
  destruct (Z.le_gt_cases n 0) as [Hn0|Hn].
  { split; [nia|]. intros _. unfold np_sqrt.
    destruct (Z.leb_spec n 0); [|lia].
    change 0%Q with (inject_Z 0). by rewrite <- Zle_Qle. }
  destruct (Z.le_gt_cases (2 ^ 52) n) as [Hbig|Hsmall].
  { split.
    - intros H. exfalso.
      pose proof (np_sqrt_mono (2 ^ 52) n Hbig) as Hm.
      assert (np_sqrt (2 ^ 52) == inject_Z (2 ^ 26))%Q as E by (by vm_compute).
      rewrite E in Hm.
      assert (inject_Z (2 ^ 26) <= inject_Z md)%Q as Hc
        by (by eapply Qle_trans).
      rewrite <- Zle_Qle in Hc. lia.
    - intros H. exfalso.
      assert (md * md < 2 ^ 26 * 2 ^ 26) by nia.
      change (2 ^ 26 * 2 ^ 26) with (2 ^ 52) in *. lia. }
  pose proof (sqrt_exponent_small n ltac:(lia) Hsmall) as He.
  rewrite np_sqrt_le_inject_Z by lia.
  pose proof (sqrt_mantissa_nearest n ltac:(lia)) as Hnear. cbv zeta in Hnear.
  pose proof (sqrt_mantissa_bounds n ltac:(lia)) as [Hm _].
  set (e := sqrt_exponent n) in *. set (m := sqrt_mantissa n) in *.
  rewrite (Z.max_l (- e) 0), (Z.max_r e 0), Z.pow_0_r, !Z.mul_1_r in Hnear
    by lia.
  assert (2 ^ 27 ≤ 2 ^ (- e)) as HS by (apply Z.pow_le_mono_r; lia).
  assert (4 ^ (- e) = 2 ^ (- e) * 2 ^ (- e)) as E4.
  { change 4 with (2 * 2). rewrite Z.pow_mul_l. done. }
  rewrite E4 in Hnear. set (S := 2 ^ (- e)) in *.
  change (2 ^ 27) with (2 * 2 ^ 26) in HS.
  assert (0 < m) as Hm0 by (clear - Hm; lia).
  clearbody S m. clear - Hnear HS Hmd0 Hmd Hn Hm0.
  destruct Hnear as [Hlo Hhi]. rewrite Z.pow_2_r in Hlo, Hhi. split.
  - intros Hle. destruct (Z.le_gt_cases n (md * md)) as [|Hgt]; [done|].
    exfalso.
    assert ((2 * m + 1) * (2 * m + 1)
            ≤ (2 * (md * S) + 1) * (2 * (md * S) + 1)) as H1.
    { apply Z.mul_le_mono_nonneg; lia. }
    assert (4 * ((md * md + 1) * (S * S)) ≤ 4 * (n * (S * S))) as H2.
    { apply Z.mul_le_mono_nonneg_l; [lia|].
      apply Z.mul_le_mono_nonneg_r; nia. }
    assert (4 * (md * S) + 1 < 4 * (S * S)) as H3 by nia.
    nia.
  - intros Hle.
    destruct (Z.le_gt_cases m (md * S)) as [|Hgt]; [done|]. exfalso.
    assert (4 * (n * (S * S)) ≤ 4 * (md * md * (S * S))) as H1.
    { apply Z.mul_le_mono_nonneg_l; [lia|].
      apply Z.mul_le_mono_nonneg_r; nia. }
    assert ((2 * (md * S) + 1) * (2 * (md * S) + 1)
            ≤ (2 * m - 1) * (2 * m - 1)) as H2.
    { apply Z.mul_le_mono_nonneg; lia. }
    nia.
Qed.

(** The nearest integer to [sqrt (n * S^2)], for a radicand below [2^106]. *)
Lemma sqrt_mantissa_nearest_small n :
  1 ≤ n → sqrt_exponent n ≤ 0 →
  let S := 2 ^ (- sqrt_exponent n) in
  let m := sqrt_mantissa n in
  (2 * m - 1) * (2 * m - 1) ≤ 4 * (n * (S * S))
  ∧ 4 * (n * (S * S)) ≤ (2 * m + 1) * (2 * m + 1).
Proof.
  intros Hn He S m.
  pose proof (sqrt_mantissa_nearest n Hn) as Hnear. cbv zeta in Hnear.
  rewrite (Z.max_l (- sqrt_exponent n) 0), (Z.max_r (sqrt_exponent n) 0),
    Z.pow_0_r, !Z.mul_1_r, !Z.pow_2_r in Hnear by lia.
  assert (4 ^ (- sqrt_exponent n) = S * S) as E4.
  { change 4 with (2 * 2). by rewrite Z.pow_mul_l. }
  by rewrite E4 in Hnear.
Qed.

(** Below [2^52] the rounded square roots of two different integers are
    different, and ordered like the integers. *)
Lemma np_sqrt_lt_mono a b :
  0 ≤ a → a < b → b < 2 ^ 52 → (np_sqrt a < np_sqrt b)%Q.
Proof.
  intros Ha0 Hab Hb.
  destruct (Z.eq_dec a 0) as [->|Hane].
  { eapply Qlt_le_trans; [|apply (np_sqrt_ge_1 b); lia]. done. }
  assert (1 ≤ a) as Ha by lia. clear Ha0 Hane.
  unfold np_sqrt.
  destruct (Z.leb_spec a 0) as [|_]; [lia|].
  destruct (Z.leb_spec b 0) as [|_]; [lia|].
  pose proof (sqrt_mantissa_bounds a Ha) as [Hma1 Hma2].
  pose proof (sqrt_mantissa_bounds b ltac:(lia)) as [Hmb1 Hmb2].
  pose proof (sqrt_exponent_small a Ha ltac:(lia)) as Hea.
  pose proof (sqrt_exponent_small b ltac:(lia) Hb) as Heb.
  assert (sqrt_exponent a ≤ sqrt_exponent b) as He.
  { unfold sqrt_exponent.
    pose proof (Z.log2_le_mono a b ltac:(lia)).
    pose proof (Z.div_le_mono (Z.log2 a) (Z.log2 b) 2 ltac:(lia) ltac:(lia)).
    lia. }
  destruct (sqrt_mantissa_nearest_small a Ha ltac:(lia)) as [Hna _].
  destruct (sqrt_mantissa_nearest_small b ltac:(lia) ltac:(lia)) as [_ Hnb].
  cbv zeta in Hna, Hnb.
  set (ea := sqrt_exponent a) in *. set (eb := sqrt_exponent b) in *.
  set (ma := sqrt_mantissa a) in *. set (mb := sqrt_mantissa b) in *.
  assert (2 ^ eb == inject_Z (2 ^ (eb - ea)) * 2 ^ ea)%Q as ->.
  { rewrite Zpower_Qpower by lia. change (inject_Z 2) with 2%Q.
    rewrite <- Qpower_plus by done. by replace (eb - ea + ea) with eb by lia. }
  rewrite Qmult_assoc, <- inject_Z_mult.
  apply Qmult_lt_compat_r; [by apply Qpower_0_lt|].
  rewrite <- Zlt_Qlt.
  assert (2 ^ (- ea) = 2 ^ (eb - ea) * 2 ^ (- eb)) as ES.
  { rewrite <- Z.pow_add_r by lia. f_equal. lia. }
  assert (2 ^ 27 ≤ 2 ^ (- eb)) as HSb by (apply Z.pow_le_mono_r; lia).
  assert (1 ≤ 2 ^ (eb - ea)) as HT.
  { change 1 with (2 ^ 0). apply Z.pow_le_mono_r; lia. }
  rewrite ES in Hna.
  set (T := 2 ^ (eb - ea)) in *. set (Sb := 2 ^ (- eb)) in *.
  change (2 ^ 27) with 134217728 in HSb.
  change (2 ^ 52) with 4503599627370496 in *.
  change (2 ^ 53) with 9007199254740992 in *.
  clearbody T Sb ma mb. clear - Hna Hnb HT HSb Hma1 Hma2 Hmb1 Hmb2 Hab Hb Ha.
  destruct (Z.lt_ge_cases ma (mb * T)) as [|Hge]; [done|]. exfalso.
  assert (0 ≤ T * T) as HTT by (apply Z.mul_nonneg_nonneg; lia).
  assert (T ≤ T * T) as HTT1.
  { rewrite <- (Z.mul_1_r T) at 1. apply Z.mul_le_mono_nonneg_l; lia. }
  assert (0 ≤ mb * T) as HmT by (apply Z.mul_nonneg_nonneg; lia).
  (* the squares at the scale of [a] *)
  assert (4 * (b * (T * Sb * (T * Sb)))
          ≤ (2 * (mb * T) + T) * (2 * (mb * T) + T)) as H1.
  { replace (4 * (b * (T * Sb * (T * Sb))))
      with (T * T * (4 * (b * (Sb * Sb)))) by ring.
    replace ((2 * (mb * T) + T) * (2 * (mb * T) + T))
      with (T * T * ((2 * mb + 1) * (2 * mb + 1))) by ring.
    apply Z.mul_le_mono_nonneg_l; [exact HTT | done]. }
  assert ((2 * (mb * T) + T) * (2 * (mb * T) + T)
          ≤ (2 * ma + T) * (2 * ma + T)) as H2.
  { apply Z.mul_le_mono_nonneg; lia. }
  set (W := T * Sb * (T * Sb)) in *.
  assert (134217728 * 134217728 * (T * T) ≤ W) as HW.
  { unfold W. replace (T * Sb * (T * Sb)) with (Sb * Sb * (T * T)) by ring.
    apply Z.mul_le_mono_nonneg_r; [exact HTT|].
    apply Z.mul_le_mono_nonneg; lia. }
  assert (a * W + W ≤ b * W) as H3.
  { replace (a * W + W) with ((a + 1) * W) by ring.
    apply Z.mul_le_mono_nonneg_r; lia. }
  assert ((2 * ma - 1) * (2 * ma - 1) + 4 * W
          ≤ (2 * ma + T) * (2 * ma + T)) as H4 by lia.
  assert (4 * W ≤ 4 * (ma * T) + T * T + 4 * ma - 1) as H5.
  { replace ((2 * ma - 1) * (2 * ma - 1))
      with (4 * (ma * ma) - 4 * ma + 1) in H4 by ring.
    replace ((2 * ma + T) * (2 * ma + T))
      with (4 * (ma * ma) + 4 * (ma * T) + T * T) in H4 by ring.
    lia. }
  assert (ma * T ≤ 9007199254740992 * T) as H6.
  { apply Z.mul_le_mono_nonneg_r; lia. }
  destruct (Z.eq_dec T 1) as [->|HT1].
  - assert (ma = 9007199254740992) as -> by lia.
    assert (W = 134217728 * 134217728) as HW1 by lia.
    rewrite HW1 in Hna. lia.
  - assert (2 * T ≤ T * T) as H7.
    { apply Z.mul_le_mono_nonneg_r; lia. }
    lia.
Qed.

Lemma np_sqrt_lt_iff a b :
  0 ≤ a < 2 ^ 52 → 0 ≤ b < 2 ^ 52 →
  (np_sqrt a < np_sqrt b)%Q ↔ a < b.
Proof.
  intros Ha Hb. split.
  - intros Hlt. destruct (Z.lt_ge_cases a b) as [|Hge]; [done|]. exfalso.
    apply (Qlt_irrefl (np_sqrt a)). eapply Qlt_le_trans; [exact Hlt|].
    by apply np_sqrt_mono.
  - intros Hlt. apply np_sqrt_lt_mono; lia.
Qed.

End Float64Facts.


Module SdfFacts.
Import Array2 Array2Facts Float64 Float64Facts Sdf.

(** *** Distances *)


Lemma nearest_sq_nil_iff sites p :
  nearest_sq sites p = Infinite ↔ sites = [].
Proof.
  split; [|by intros ->].
  destruct sites as [|q sites]; [done|]. simpl. unfold dist_min.
  destruct (nearest_sq sites p); simpl; [|done].
  by destruct (_ <? _).
Qed.

Lemma nearest_sq_attained sites p s :
  nearest_sq sites p = Finite s → ∃ q, q ∈ sites ∧ sq_dist p q = s.
Proof.
  revert s. induction sites as [|q sites IH]; intros s; simpl; [done|].
  unfold dist_min. destruct (nearest_sq sites p) as [t|] eqn:Ht; simpl.
  - destruct (t <? sq_dist p q) eqn:Hlt; intros [= <-].
    + destruct (IH t eq_refl) as (q' & Hin & Hq'). exists q'.
      split; [by right | done].
    + exists q. split; [by left | done].
  - intros [= <-]. exists q. split; [by left | done].
Qed.

Lemma nearest_sq_least sites p s q :
  nearest_sq sites p = Finite s → q ∈ sites → s ≤ sq_dist p q.
Proof.
  revert s. induction sites as [|q0 sites IH]; intros s; simpl.
  { intros _ Hin. by apply elem_of_nil in Hin. }
  unfold dist_min. intros Hs Hin.
  destruct (nearest_sq sites p) as [t|] eqn:Ht; simpl in Hs.
  - destruct (t <? sq_dist p q0) eqn:Hlt; injection Hs as <-.
    + apply Z.ltb_lt in Hlt. apply elem_of_cons in Hin as [->|Hin]; [lia|].
      by apply IH.
    + apply Z.ltb_ge in Hlt. apply elem_of_cons in Hin as [->|Hin]; [lia|].
      specialize (IH t eq_refl Hin). lia.
  - injection Hs as <-. apply nearest_sq_nil_iff in Ht. subst sites.
    apply elem_of_cons in Hin as [->|Hin]; [lia|].
    by apply elem_of_nil in Hin.
Qed.

Lemma within_mono (s t : Z) md :
  s ≤ t → within (Finite t) md = true → within (Finite s) md = true.
Proof.
  unfold within. intros Hst Ht.
  apply Qle_bool_iff. apply Qle_bool_iff in Ht.
  eapply Qle_trans; [|exact Ht]. by apply np_sqrt_mono.
Qed.

(** *** Positions *)

Lemma elem_of_positions a r c v :
  (r, c, v) ∈ positions a ↔ at2 a r c = Some v.
Proof.
  unfold positions, at2. rewrite list_elem_of_In, in_concat. split.
  - intros (l & Hl & Hin). apply list_elem_of_In in Hl, Hin.
    apply elem_of_lookup_imap in Hl as (i & row & -> & Hrow).
    apply elem_of_lookup_imap in Hin as (j & x & [= -> -> ->] & Hx).
    by rewrite Hrow.
  - destruct (a !! r) as [row|] eqn:Hrow; simpl; [|done]. intros Hc.
    exists (imap (λ c v, (r, c, v)) row).
    split; apply list_elem_of_In, elem_of_lookup_imap.
    + by exists r, row.
    + by exists c, v.
Qed.

Lemma elem_of_zeros_of a r c :
  (r, c) ∈ zeros_of a ↔ at2 a r c = Some 0.
Proof.
  unfold zeros_of. rewrite list_elem_of_fmap. split.
  - intros ([[r' c'] v] & [= -> ->] & Hin).
    apply list_elem_of_filter in Hin as [Hv Hin]. simpl in Hv. subst v.
    by apply elem_of_positions.
  - intros Hat. exists (r, c, 0). split; [done|].
    apply list_elem_of_filter. split; [done|]. by apply elem_of_positions.
Qed.

Lemma elem_of_region_sites image color r c :
  (r, c) ∈ zeros_of (map2d (λ m, 1 - m) (region_mask image color))
  ↔ at2 image r c = Some color.
Proof.
  rewrite elem_of_zeros_of. unfold region_mask. rewrite !at2_map2d.
  destruct (at2 image r c) as [v|]; simpl; [|done].
  destruct (Z.eqb_spec v color) as [->|Hne]; simpl; split; try done.
  intros [= ->]. done.
Qed.

(** *** The loop, pixel by pixel *)

Lemma dt_at_edt image color r c :
  at2 (distance_transform_edt (map2d (λ m, 1 - m) (region_mask image color)))
      r c
  = (λ _, dt_at image color (r, c)) <$> at2 image r c.
Proof.
  unfold distance_transform_edt. rewrite at2_imap2d.
  unfold region_mask at 2. rewrite !at2_map2d.
  by destruct (at2 image r c).
Qed.

Lemma color_step_at image md st color r c v d cl :
  at2 image r c = Some v →
  at2 st.1 r c = Some d →
  at2 st.2 r c = Some cl →
  at2 (color_step image md st color).1 r c
    = Some (pixel_step image md (r, c) (d, cl) color).1
  ∧ at2 (color_step image md st color).2 r c
    = Some (pixel_step image md (r, c) (d, cl) color).2.
Proof.
  intros Hv Hd Hcl. unfold color_step, pixel_step.
  destruct (color =? 0); [done|]. simpl.
  unfold where2d, where2d_const.
  rewrite !at2_zip2d, dt_at_edt, Hv, Hd, Hcl. simpl.
  by destruct (dist_ltb _ d && within _ md).
Qed.

Lemma foldl_color_step_at image md colors st r c v d cl :
  at2 image r c = Some v →
  at2 st.1 r c = Some d →
  at2 st.2 r c = Some cl →
  at2 (foldl (color_step image md) st colors).1 r c
    = Some (foldl (pixel_step image md (r, c)) (d, cl) colors).1
  ∧ at2 (foldl (color_step image md) st colors).2 r c
    = Some (foldl (pixel_step image md (r, c)) (d, cl) colors).2.
Proof.
  intros Hv. revert st d cl.
  induction colors as [|color colors IH]; intros st d cl Hd Hcl; simpl.
  { done. }
  destruct (color_step_at image md st color r c v d cl Hv Hd Hcl) as [H1 H2].
  specialize (IH _ _ _ H1 H2).
  by destruct (pixel_step image md (r, c) (d, cl) color).
Qed.

(** The value of one pixel of the result. *)
Lemma fill_with_order_at colors image md r c v :
  at2 image r c = Some v →
  at2 (fill_with_order colors image md) r c =
  Some (let st := foldl (pixel_step image md (r, c)) (Infinite, 0) colors in
        if (v =? 0) && within st.1 md then st.2 else v).
Proof.
  intros Hv. unfold fill_with_order, where2d.
  destruct (foldl_color_step_at image md colors
              (map2d (λ _, Infinite) image, map2d (λ _, 0) image)
              r c v Infinite 0 Hv) as [H1 H2].
  { simpl. by rewrite at2_map2d, Hv. }
  { simpl. by rewrite at2_map2d, Hv. }
  rewrite !at2_zip2d, !at2_map2d, H1, H2, Hv. simpl.
  by destruct ((v =? 0) && _).
Qed.

Lemma fill_with_order_at_None colors image md r c :
  at2 image r c = None → at2 (fill_with_order colors image md) r c = None.
Proof.
  intros Hv. unfold fill_with_order, where2d.
  rewrite !at2_zip2d, !at2_map2d, Hv. simpl.
  by destruct (at2 _ r c).
Qed.

(** *** The colours of an image *)

Lemma elem_of_insert_unique x l y :
  y ∈ insert_unique x l ↔ y = x ∨ y ∈ l.
Proof.
  induction l as [|z l IH]; simpl.
  { rewrite list_elem_of_singleton. split; [by left | intros [?|H]; [done|]].
    by apply elem_of_nil in H. }
  destruct (Z.ltb_spec x z).
  { by rewrite elem_of_cons. }
  destruct (Z.eqb_spec x z) as [->|Hne].
  { rewrite elem_of_cons. tauto. }
  rewrite !elem_of_cons, IH. tauto.
Qed.



Lemma elem_of_concat_at2 (image : list (list Z)) v :
  v ∈ concat image ↔ ∃ r c, at2 image r c = Some v.
Proof.
  rewrite list_elem_of_In, in_concat. unfold at2. split.
  - intros (row & Hrow & Hv). apply list_elem_of_In in Hrow, Hv.
    apply list_elem_of_lookup in Hrow as [r Hr].
    apply list_elem_of_lookup in Hv as [c Hc].
    exists r, c. by rewrite Hr.
  - intros (r & c & H). destruct (image !! r) as [row|] eqn:Hr; [|done].
    simpl in H. exists row.
    split; apply list_elem_of_In, list_elem_of_lookup; eauto.
Qed.

Lemma elem_of_np_unique image v :
  v ∈ np_unique image ↔ ∃ r c, at2 image r c = Some v.
Proof.
  rewrite <- elem_of_concat_at2. unfold np_unique.
  induction (concat image) as [|x l IH]; simpl; [done|].
  rewrite elem_of_insert_unique, elem_of_cons, IH. done.
Qed.

(** *** The running minimum at one pixel *)

Lemma foldl_invariant {A B} (P : A → Prop) (f : A → B → A) l a :
  P a → (∀ a b, b ∈ l → P a → P (f a b)) → P (foldl f a l).
Proof.
  revert a. induction l as [|b l IH]; intros a Ha Hf; simpl; [done|].
  apply IH.
  - apply Hf; [by left | done].
  - intros a' b' Hb'. apply Hf. by right.
Qed.

(** The distance transform of a colour at [p] is the least squared distance
    from [p] to a pixel of that colour. *)
Lemma dt_at_Finite image color p s :
  dt_at image color p = Finite s →
  (∃ r c, at2 image r c = Some color ∧ sq_dist p (r, c) = s)
  ∧ (∀ r c, at2 image r c = Some color → s ≤ sq_dist p (r, c)).
Proof.
  unfold dt_at. intros Hs. split.
  - apply nearest_sq_attained in Hs as ([r c] & Hin & Hq).
    apply elem_of_region_sites in Hin. by exists r, c.
  - intros r c Hat. eapply nearest_sq_least; [exact Hs|].
    by apply elem_of_region_sites.
Qed.

Lemma dt_at_Infinite image color p r c :
  dt_at image color p = Infinite → at2 image r c ≠ Some color.
Proof.
  unfold dt_at. intros Hs Hat. apply nearest_sq_nil_iff in Hs.
  apply elem_of_region_sites in Hat. rewrite Hs in Hat.
  by apply elem_of_nil in Hat.
Qed.


Lemma pixel_fold_settled image md p colors :
  settled image md p colors
    (foldl (pixel_step image md p) (Infinite, 0) colors).
Proof.
  apply foldl_invariant; [by left|].
  intros st u Hu Hst. unfold pixel_step.
  destruct (Z.eqb_spec u 0) as [->|Hne]; [done|]. simpl.
  destruct (dist_ltb _ _ && within _ md) eqn:Hupd; [|done].
  apply andb_true_iff in Hupd as [_ Hw]. right. simpl. done.
Qed.

(** A colour that is not strictly closer than the stored one changes
    nothing. *)
Lemma pixel_fold_keeps image md p colors d cl :
  (∀ u, u ∈ colors → u ≠ 0 →
        dist_ltb (dt_at image u p) d && within (dt_at image u p) md = false) →
  foldl (pixel_step image md p) (d, cl) colors = (d, cl).
Proof.
  induction colors as [|u colors IH]; intros Hno; simpl; [done|].
  assert (pixel_step image md p (d, cl) u = (d, cl)) as ->.
  { unfold pixel_step. destruct (Z.eqb_spec u 0) as [->|Hne]; [done|].
    simpl. rewrite Hno; [done | by left | done]. }
  apply IH. intros u' Hu'. apply Hno. by right.
Qed.


(** A colour with a pixel within the bound leaves the pair settled on a
    label. *)
Lemma pixel_fold_reached image md p colors u :
  u ∈ colors → u ≠ 0 → within (dt_at image u p) md = true →
  let st := foldl (pixel_step image md p) (Infinite, 0) colors in
  st.2 ≠ 0 ∧ within st.1 md = true.
Proof.
  intros Hu Hne Hw. apply list_elem_of_split in Hu as (l1 & l2 & ->).
  cbn zeta. rewrite foldl_app. cbn [foldl].
  pose proof (pixel_fold_settled image md p l1) as Hs.
  destruct (foldl (pixel_step image md p) (Infinite, 0) l1) as [d cl].
  assert ((pixel_step image md p (d, cl) u).2 ≠ 0
          ∧ within (pixel_step image md p (d, cl) u).1 md = true) as Hst.
  { unfold pixel_step. destruct (Z.eqb_spec u 0) as [?|_]; [done|].
    cbn [fst snd]. rewrite Hw, andb_true_r.
    destruct Hs as [[= -> ->]|(_ & Hcl & _ & Hwd)]; simpl in *.
    - destruct (dt_at image u p); [done | discriminate].
    - by destruct (dist_ltb _ d). }
  revert Hst. generalize (pixel_step image md p (d, cl) u). clear.
  induction l2 as [|w l2 IH]; intros st Hst; simpl; [done|].
  apply IH. unfold pixel_step.
  destruct (Z.eqb_spec w 0) as [?|Hw0]; [done|]. simpl.
  destruct (dist_ltb _ _ && within _ md) eqn:Hupd; [|done].
  apply andb_true_iff in Hupd as [_ Hw]. done.
Qed.

(** *** The shape of the result *)

Lemma color_step_shape image md st color :
  shape2 st.1 = shape2 image → shape2 st.2 = shape2 image →
  shape2 (color_step image md st color).1 = shape2 image
  ∧ shape2 (color_step image md st color).2 = shape2 image.
Proof.
  intros H1 H2. unfold color_step. destruct (color =? 0); [done|]. simpl.
  assert (shape2 (distance_transform_edt
                    (map2d (λ m, 1 - m) (region_mask image color)))
          = shape2 image) as Hdt.
  { unfold distance_transform_edt, region_mask.
    by rewrite shape2_imap2d, !shape2_map2d. }
  assert (∀ f : dist → dist → bool,
            shape2 (zip2d f (distance_transform_edt
                      (map2d (λ m, 1 - m) (region_mask image color))) st.1)
            = shape2 image) as Hupd.
  { intros f. rewrite shape2_zip2d; congruence. }
  split.
  - rewrite shape2_where2d; congruence.
  - rewrite shape2_where2d_const; congruence.
Qed.

Lemma fill_with_order_shape colors image md :
  shape2 (fill_with_order colors image md) = shape2 image.
Proof.
  unfold fill_with_order.
  assert (shape2 (foldl (color_step image md)
                    (map2d (λ _, Infinite) image, map2d (λ _, 0) image)
                    colors).1 = shape2 image
          ∧ shape2 (foldl (color_step image md)
                    (map2d (λ _, Infinite) image, map2d (λ _, 0) image)
                    colors).2 = shape2 image) as [H1 H2].
  { apply (foldl_invariant
             (λ st, shape2 st.1 = shape2 image ∧ shape2 st.2 = shape2 image)).
    - simpl. by rewrite !shape2_map2d.
    - intros st u _ [Ha Hb]. by apply color_step_shape. }
  apply shape2_where2d; [|done].
  rewrite shape2_zip2d; rewrite !shape2_map2d; done.
Qed.

(** *** Labelled pixels, the distance bound and the fixed points *)

Lemma fill_labelled_at colors image md r c v :
  at2 image r c = Some v → v ≠ 0 →
  at2 (fill_with_order colors image md) r c = Some v.
Proof.
  intros Hv Hne. rewrite (fill_with_order_at _ _ _ _ _ v Hv). cbn zeta.
  destruct (Z.eqb_spec v 0); done.
Qed.

Lemma fill_background_filled colors image md r c w :
  at2 image r c = Some 0 →
  at2 (fill_with_order colors image md) r c = Some w → w ≠ 0 →
  ∃ r' c', at2 image r' c' = Some w
           ∧ within (Finite (sq_dist (r, c) (r', c'))) md = true.
Proof.
  intros Hv. rewrite (fill_with_order_at _ _ _ _ _ 0 Hv). cbn zeta.
  pose proof (pixel_fold_settled image md (r, c) colors) as Hs.
  destruct (foldl (pixel_step image md (r, c)) (Infinite, 0) colors)
    as [d cl].
  destruct Hs as [[= -> ->]|(_ & _ & Hd & Hw)]; simpl in *.
  { intros [= <-]. done. }
  rewrite Hw. intros [= ->] _. subst d.
  destruct (dt_at image w (r, c)) as [s|] eqn:Hs; [|done].
  apply dt_at_Finite in Hs as [(r' & c' & Hat & <-) _]. by exists r', c'.
Qed.

Lemma fill_background_far colors image md r c :
  at2 image r c = Some 0 →
  (∀ r' c' v, at2 image r' c' = Some v → v ≠ 0 →
              within (Finite (sq_dist (r, c) (r', c'))) md = false) →
  at2 (fill_with_order colors image md) r c = Some 0.
Proof.
  intros Hv Hfar. rewrite (fill_with_order_at _ _ _ _ _ 0 Hv). cbn zeta.
  rewrite pixel_fold_keeps; [done|].
  intros u _ Hne. destruct (dt_at image u (r, c)) as [s|] eqn:Hs; [|done].
  apply dt_at_Finite in Hs as [(r' & c' & Hat & <-) _].
  rewrite (Hfar r' c' u Hat Hne). apply andb_false_r.
Qed.

Lemma fill_background_near image md r c r' c' v :
  at2 image r c = Some 0 →
  at2 image r' c' = Some v → v ≠ 0 →
  within (Finite (sq_dist (r, c) (r', c'))) md = true →
  ∃ w, w ≠ 0 ∧ at2 (fill_2d_image_gaps image md) r c = Some w.
Proof.
  intros H0 Hv Hne Hw. unfold fill_2d_image_gaps.
  rewrite (fill_with_order_at _ _ _ _ _ 0 H0). cbn zeta.
  assert (within (dt_at image v (r, c)) md = true) as Hdt.
  { destruct (dt_at image v (r, c)) as [s|] eqn:Hs.
    - apply dt_at_Finite in Hs as [_ Hle].
      eapply within_mono; [apply (Hle r' c' Hv) | done].
    - by eapply dt_at_Infinite in Hs. }
  destruct (pixel_fold_reached image md (r, c) (np_unique image) v)
    as [Hcl Hwd]; [|done|done|].
  { apply elem_of_np_unique. eauto. }
  rewrite Hwd. simpl. eauto.
Qed.

Lemma fill_fixed_point_iff image md :
  fill_2d_image_gaps image md = image
  ↔ (∀ r c r' c' v,
       at2 image r c = Some 0 → at2 image r' c' = Some v → v ≠ 0 →
       within (Finite (sq_dist (r, c) (r', c'))) md = false).
Proof.
  split.
  - intros Hfix r c r' c' v H0 Hv Hne.
    destruct (within _ md) eqn:Hw; [|done].
    destruct (fill_background_near image md r c r' c' v H0 Hv Hne Hw)
      as (w & Hw0 & Hat).
    rewrite Hfix, H0 in Hat. congruence.
  - intros Hfar. apply array2_ext; [apply fill_with_order_shape|].
    intros r c. unfold fill_2d_image_gaps.
    destruct (at2 image r c) as [v|] eqn:Hv.
    + destruct (Z.eq_dec v 0) as [->|Hne].
      * apply fill_background_far; [done|]. intros r' c' v. by apply Hfar.
      * by apply fill_labelled_at.
    + by apply fill_with_order_at_None.
Qed.

(** *** The claims on gap filling *)

(** C1: every pixel that is not 0 in the input of [fill_2d_image_gaps] has
    the same value in the output, whatever [max_distance] is and whichever
    region is closer; a pixel whose output differs from its input was 0 in
    the input. *)
Theorem fill_keeps_labelled_pixels (image : list (list Z)) (md : Q) :
  (∀ r c v, at2 image r c = Some v → v ≠ 0 →
            at2 (fill_2d_image_gaps image md) r c = Some v)
  ∧ (∀ r c, at2 (fill_2d_image_gaps image md) r c ≠ at2 image r c →
            at2 image r c = Some 0).
Proof.
  split.
  - intros r c v Hv Hne. by apply fill_labelled_at.
  - intros r c Hdiff. destruct (at2 image r c) as [v|] eqn:Hv.
    + destruct (Z.eq_dec v 0) as [->|Hne]; [done|].
      destruct Hdiff. by apply fill_labelled_at.
    + destruct Hdiff. by apply fill_with_order_at_None.
Qed.

Lemma fill_keeps_labelled_pixels_witness :
  at2 (fill_2d_image_gaps [[7; 0; 0; 3]] 5) 0 3 = Some 3.
Proof.
  apply (proj1 (fill_keeps_labelled_pixels [[7; 0; 0; 3]] 5) 0%nat 3%nat 3).
  - reflexivity.
  - discriminate.
Defined.

(** C2, as the spec states it, fails: with [max_distance = math.sqrt(26)]
    the background pixel [(1, 5)] of [corner_image] gets the label 9 although
    its Euclidean distance to the only labelled pixel is the square root of
    26, which is more than [max_distance] ([max_distance ^ 2 < 26]): the
    code compares the rounded square root, which is [max_distance] itself. *)
Lemma fill_beyond_real_bound :
  at2 corner_image 1 5 = Some 0
  ∧ at2 (fill_2d_image_gaps corner_image sqrt26) 1 5 = Some 9
  ∧ (0 <= sqrt26)%Q
  ∧ ∀ r' c' v, at2 corner_image r' c' = Some v → v ≠ 0 →
      (sqrt26 * sqrt26 < inject_Z (sq_dist (1, 5)%nat (r', c')))%Q.
Proof.
  split; [reflexivity|]. split; [by vm_compute|]. split; [by vm_compute|].
  intros r' c' v Hv Hne.
  destruct r' as [|[|r']]; [| |discriminate Hv];
    (destruct c' as [|[|[|[|[|[|c']]]]]]; [| | | | | |discriminate Hv]);
    injection Hv as <-; try (exfalso; by apply Hne).
  by vm_compute.
Qed.

(** C2 (amended): a background pixel that [fill_2d_image_gaps] gives a label
    other than 0 has a pixel of that label in the input whose distance, as
    [distance_transform_edt] computes it (the square root rounded to
    [float64]), is at most [max_distance] (inclusive); and a background pixel
    whose distance, computed in this way, to every labelled pixel is more
    than [max_distance] stays 0. *)
Theorem fill_distance_bound (image : list (list Z)) (md : Q) (r c : nat)
    (Hbg : at2 image r c = Some 0) :
  (∀ w, at2 (fill_2d_image_gaps image md) r c = Some w → w ≠ 0 →
        ∃ r' c', at2 image r' c' = Some w
                 ∧ within (Finite (sq_dist (r, c) (r', c'))) md = true)
  ∧ ((∀ r' c' v, at2 image r' c' = Some v → v ≠ 0 →
                 within (Finite (sq_dist (r, c) (r', c'))) md = false) →
     at2 (fill_2d_image_gaps image md) r c = Some 0).
Proof.
  split.
  - intros w. by apply fill_background_filled.
  - by apply fill_background_far.
Qed.

Lemma fill_distance_bound_witness :
  (∃ r' c', at2 [[7; 0; 0; 0; 0]] r' c' = Some 7
            ∧ within (Finite (sq_dist (0, 2)%nat (r', c'))) 2 = true)
  ∧ at2 (fill_2d_image_gaps [[7; 0; 0; 0; 0]] 2) 0 3 = Some 0.
Proof.
  split.
  - apply (proj1 (fill_distance_bound [[7; 0; 0; 0; 0]] 2 0%nat 2%nat
                    eq_refl) 7).
    + reflexivity.
    + discriminate.
  - apply (proj2 (fill_distance_bound [[7; 0; 0; 0; 0]] 2 0%nat 3%nat
                    eq_refl)).
    intros r' c' v Hv Hne.
    destruct r' as [|r']; [|discriminate Hv].
    destruct c' as [|[|[|[|[|c']]]]]; try discriminate Hv;
      injection Hv as <-; try (exfalso; by apply Hne).
    by vm_compute.
Defined.





(** C5 as stated fails: a second pass reaches pixels that the first pass
    left at 0, since the regions have grown. *)
Lemma fill_not_idempotent :
  fill_2d_image_gaps (fill_2d_image_gaps [[10; 0; 0; 0; 0]] 2) 2
  ≠ fill_2d_image_gaps [[10; 0; 0; 0; 0]] 2.
Proof. vm_compute. discriminate. Qed.

(** C5, amended: a second pass with the same [max_distance] leaves every
    pixel unchanged that is not 0 after the first pass, and it changes
    nothing at all exactly when no pixel that is still 0 after the first pass
    lies within [max_distance] of a pixel that is not 0 after the first
    pass. *)
Theorem fill_twice (s : list (list Z)) (md : Q) :
  let t := fill_2d_image_gaps s md in
  (∀ r c v, at2 t r c = Some v → v ≠ 0 →
            at2 (fill_2d_image_gaps t md) r c = Some v)
  ∧ (fill_2d_image_gaps t md = t
     ↔ (∀ r c r' c' v,
          at2 t r c = Some 0 → at2 t r' c' = Some v → v ≠ 0 →
          within (Finite (sq_dist (r, c) (r', c'))) md = false)).
Proof.
  intros t. split.
  - intros r c v Hv Hne. by apply fill_labelled_at.
  - apply fill_fixed_point_iff.
Qed.

Lemma fill_twice_witness :
  fill_2d_image_gaps (fill_2d_image_gaps [[10; 0; 10]] 1) 1
  = fill_2d_image_gaps [[10; 0; 10]] 1.
Proof.
  apply (proj2 (fill_twice [[10; 0; 10]] 1)).
  intros r c r' c' v H0. exfalso.
  destruct r as [|r]; [|discriminate H0].
  destruct c as [|[|[|c]]]; discriminate H0.
Defined.

End SdfFacts.

Module VolumeFacts.
Import Volume.

Lemma lookup_tabulate {A} (f : nat → A) n i :
  (f <$> seq 0 n) !! i = if decide (i < n)%nat then Some (f i) else None.
Proof.
  rewrite list_lookup_fmap. case_decide.
  - by rewrite lookup_seq_lt.
  - rewrite lookup_seq_ge; [done | lia].
Qed.

Lemma list_eq_tabulate {A} (d : A) (l : list A) n :
  length l = n → l = (λ i, default d (l !! i)) <$> seq 0 n.
Proof.
  intros <-. apply list_eq. intros i. rewrite lookup_tabulate. case_decide.
  - destruct (lookup_lt_is_Some_2 l i) as [x Hx]; [done|]. by rewrite Hx.
  - apply lookup_ge_None. lia.
Qed.

Lemma tabulate_ext {A} (f g : nat → A) n :
  (∀ i, (i < n)%nat → f i = g i) → f <$> seq 0 n = g <$> seq 0 n.
Proof.
  intros H. apply list_fmap_ext. intros i x Hx.
  apply lookup_seq in Hx as [-> Hi]. by apply H.
Qed.

Lemma get3_build3 a b c (f : nat → nat → nat → Z) i j k :
  (i < a)%nat → (j < b)%nat → (k < c)%nat →
  get3 (build3 a b c f) i j k = f i j k.
Proof.
  intros Hi Hj Hk. unfold get3, build3.
  rewrite lookup_tabulate, decide_True by done. simpl.
  rewrite lookup_tabulate, decide_True by done. simpl.
  by rewrite lookup_tabulate, decide_True by done.
Qed.

Lemma build3_ext {A} a b c (f g : nat → nat → nat → A) :
  (∀ i j k, (i < a)%nat → (j < b)%nat → (k < c)%nat → f i j k = g i j k) →
  build3 a b c f = build3 a b c g.
Proof.
  intros H. unfold build3.
  apply tabulate_ext. intros i Hi.
  apply tabulate_ext. intros j Hj.
  apply tabulate_ext. intros k Hk. by apply H.
Qed.

Lemma rect3_build3 a b c (f : nat → nat → nat → Z) :
  rect3 a b c (build3 a b c f).
Proof.
  unfold rect3, build3. split.
  { by rewrite length_fmap, length_seq. }
  apply Forall_fmap, Forall_forall. intros i _. simpl. split.
  { by rewrite length_fmap, length_seq. }
  apply Forall_fmap, Forall_forall. intros j _. simpl.
  by rewrite length_fmap, length_seq.
Qed.

Lemma rect3_eq_build3 a b c m :
  rect3 a b c m → m = build3 a b c (get3 m).
Proof.
  intros [Ha Hm]. unfold build3.
  rewrite (list_eq_tabulate [] m a Ha) at 1.
  apply tabulate_ext. intros i Hi.
  destruct (lookup_lt_is_Some_2 m i) as [plane Hp]; [lia|].
  rewrite Hp. simpl.
  rewrite Forall_forall in Hm.
  destruct (Hm plane) as [Hb Hplane]; [by eapply list_elem_of_lookup_2|].
  rewrite (list_eq_tabulate [] plane b Hb) at 1.
  apply tabulate_ext. intros j Hj.
  destruct (lookup_lt_is_Some_2 plane j) as [row Hr]; [lia|].
  rewrite Hr. simpl.
  rewrite Forall_forall in Hplane.
  assert (length row = c) as Hc.
  { apply Hplane. by eapply list_elem_of_lookup_2. }
  rewrite (list_eq_tabulate 0 row c Hc) at 1.
  apply tabulate_ext. intros k Hk.
  unfold get3. by rewrite Hp; simpl; rewrite Hr.
Qed.

Lemma shape3_build3 a b c (f : nat → nat → nat → Z) :
  (0 < a)%nat → (0 < b)%nat → shape3 (build3 a b c f) = (a, b, c).
Proof.
  intros Ha Hb. unfold shape3, build3.
  rewrite lookup_tabulate, decide_True by done. simpl.
  rewrite lookup_tabulate, decide_True by done. simpl.
  by rewrite !length_fmap, !length_seq.
Qed.

Lemma shape3_rect3 a b c m :
  rect3 a b c m → (0 < a)%nat → (0 < b)%nat → shape3 m = (a, b, c).
Proof.
  intros Hm Ha Hb. rewrite (rect3_eq_build3 a b c m Hm).
  by apply shape3_build3.
Qed.

(** *** The samples of an array, in terms of its positions *)

Lemma concat_tabulate_elem {A} (F : nat → list A) n x :
  x ∈ concat (F <$> seq 0 n) ↔ ∃ i, (i < n)%nat ∧ x ∈ F i.
Proof.
  rewrite list_elem_of_In, in_concat. split.
  - intros (l & Hl & Hx). apply list_elem_of_In in Hl, Hx.
    apply list_elem_of_fmap in Hl as (i & -> & Hi).
    apply elem_of_seq in Hi. exists i. split; [lia | done].
  - intros (i & Hi & Hx). exists (F i).
    split; apply list_elem_of_In; [|done].
    apply list_elem_of_fmap. exists i. split; [done|].
    apply elem_of_seq. lia.
Qed.

Lemma concat_fmap_fmap {A B} (g : A → B) (ls : list (list A)) :
  g <$> concat ls = concat ((λ l : list A, g <$> l) <$> ls).
Proof. apply concat_map. Qed.

Lemma flatten3_build3_fmap {A B} (g : A → B) a b c
    (f : nat → nat → nat → A) :
  g <$> flatten3 (build3 a b c f)
  = flatten3 (build3 a b c (λ i j k, g (f i j k))).
Proof.
  unfold flatten3, build3.
  rewrite concat_fmap_fmap. f_equal.
  rewrite concat_fmap_fmap. f_equal.
  rewrite <- !list_fmap_compose. apply list_fmap_ext. intros _ i _. simpl.
  rewrite <- !list_fmap_compose. apply list_fmap_ext. intros _ j _. simpl.
  by rewrite <- !list_fmap_compose.
Qed.

Lemma flatten3_build3 {A} a b c (f : nat → nat → nat → A) :
  flatten3 (build3 a b c f)
  = (λ idx : nat * nat * nat, f idx.1.1 idx.1.2 idx.2) <$> indices3 a b c.
Proof. unfold indices3. by rewrite flatten3_build3_fmap. Qed.

Lemma elem_of_indices3 a b c idx :
  idx ∈ indices3 a b c ↔ in_shape a b c idx.
Proof.
  unfold indices3, flatten3, build3, in_shape.
  destruct idx as [[i j] k]. simpl. split.
  - intros H. apply list_elem_of_In, in_concat in H as (row & Hrow & H).
    apply list_elem_of_In in Hrow, H.
    apply concat_tabulate_elem in Hrow as (i' & Hi & Hrow).
    apply list_elem_of_fmap in Hrow as (j' & -> & Hj).
    apply list_elem_of_fmap in H as (k' & [= -> -> ->] & Hk).
    apply elem_of_seq in Hj, Hk. lia.
  - intros (Hi & Hj & Hk). apply list_elem_of_In, in_concat.
    exists ((λ k, (i, j, k)) <$> seq 0 c).
    split; apply list_elem_of_In.
    + apply concat_tabulate_elem. exists i. split; [done|].
      apply list_elem_of_fmap. exists j. split; [done|].
      apply elem_of_seq. lia.
    + apply list_elem_of_fmap. exists k. split; [done|].
      apply elem_of_seq. lia.
Qed.

Lemma NoDup_concat_tabulate {A} (F : nat → list A) n :
  (∀ i, (i < n)%nat → NoDup (F i)) →
  (∀ i i' x, (i < n)%nat → (i' < n)%nat → x ∈ F i → x ∈ F i' → i = i') →
  NoDup (concat (F <$> seq 0 n)).
Proof.
  intros Hnd Hinj. induction n as [|n IH].
  { constructor. }
  rewrite seq_S, fmap_app, concat_app. simpl. rewrite app_nil_r.
  apply NoDup_app. split; [|split].
  - apply IH; [intros; apply Hnd; lia|].
    intros i i' x Hi Hi'. apply Hinj; lia.
  - intros x Hx Hx'. apply concat_tabulate_elem in Hx as (i & Hi & Hx).
    assert (i = n) by (apply (Hinj i n x); [lia | lia | done | done]). lia.
  - apply Hnd. lia.
Qed.

Lemma concat_concat_fmap {A} (ls : list (list (list A))) :
  concat (concat ls) = concat ((λ l : list (list A), concat l) <$> ls).
Proof.
  induction ls as [|l ls IH]; simpl; [done|]. rewrite concat_app. by f_equal.
Qed.

Lemma NoDup_indices3 a b c : NoDup (indices3 a b c).
Proof.
  unfold indices3, flatten3, build3.
  rewrite concat_concat_fmap, <- list_fmap_compose.
  apply NoDup_concat_tabulate.
  - intros i _. simpl. apply NoDup_concat_tabulate.
    + intros j _. apply NoDup_fmap_2_strong; [|apply NoDup_seq].
      by intros k k' _ _ [= ->].
    + intros j j' x _ _ Hx Hx'.
      apply list_elem_of_fmap in Hx as (k & -> & _).
      by apply list_elem_of_fmap in Hx' as (k' & [= -> _] & _).
  - intros i i' x _ _ Hx Hx'. simpl in Hx, Hx'.
    apply concat_tabulate_elem in Hx as (j & _ & Hx).
    apply concat_tabulate_elem in Hx' as (j' & _ & Hx').
    apply list_elem_of_fmap in Hx as (k & -> & _).
    by apply list_elem_of_fmap in Hx' as (k' & [= -> _ _] & _).
Qed.

(** *** Arrays that hold the samples of another array at other positions *)

Lemma rearranges_get3 a b c a' b' c' σ τ m w i j k :
  rearranges a b c a' b' c' σ τ m w →
  (i < a')%nat → (j < b')%nat → (k < c')%nat →
  get3 w i j k = get3 m (σ (i, j, k)).1.1 (σ (i, j, k)).1.2 (σ (i, j, k)).2.
Proof. intros (-> & _ & _) Hi Hj Hk. by rewrite get3_build3. Qed.

Lemma rearranges_rect3 a b c a' b' c' σ τ m w :
  rearranges a b c a' b' c' σ τ m w → rect3 a' b' c' w.
Proof. intros (-> & _ & _). apply rect3_build3. Qed.

Lemma rearranges_Permutation a b c a' b' c' σ τ m w :
  rect3 a b c m →
  rearranges a b c a' b' c' σ τ m w →
  flatten3 w ≡ₚ flatten3 m.
Proof.
  intros Hm (-> & Hσ & Hτ).
  assert (flatten3 m = flatten3 (build3 a b c (get3 m))) as ->.
  { by rewrite <- (rect3_eq_build3 a b c m Hm). }
  rewrite !flatten3_build3.
  rewrite (list_fmap_ext _
             ((λ idx : nat * nat * nat, get3 m idx.1.1 idx.1.2 idx.2) ∘ σ)
             (indices3 a' b' c')).
  2:{ intros _ [[i j] k] _. done. }
  rewrite list_fmap_compose. apply fmap_Permutation.
  apply NoDup_Permutation.
  - apply NoDup_fmap_2_strong; [|apply NoDup_indices3].
    intros x y Hx Hy Hxy. apply elem_of_indices3 in Hx, Hy.
    destruct (Hσ x Hx) as [_ <-], (Hσ y Hy) as [_ <-]. by rewrite Hxy.
  - apply NoDup_indices3.
  - intros idx. rewrite list_elem_of_fmap, elem_of_indices3. split.
    + intros (x & -> & Hx). apply elem_of_indices3 in Hx. by apply Hσ.
    + intros Hidx. exists (τ idx). destruct (Hτ idx Hidx) as [Hin Hinv].
      split; [done|]. by apply elem_of_indices3.
Qed.

(** *** Samples of eight bits *)

Lemma is_uint8_get3 m i j k : is_uint8 m → 0 ≤ get3 m i j k < 256.
Proof.
  unfold is_uint8, get3. intros Hm.
  destruct (m !! i) as [plane|] eqn:Hp; simpl; [|lia].
  destruct (plane !! j) as [row|] eqn:Hr; simpl; [|lia].
  destruct (row !! k) as [x|] eqn:Hx; simpl; [|lia].
  rewrite Forall_forall in Hm.
  specialize (Hm plane (list_elem_of_lookup_2 _ _ _ Hp)).
  rewrite Forall_forall in Hm.
  specialize (Hm row (list_elem_of_lookup_2 _ _ _ Hr)).
  rewrite Forall_forall in Hm.
  exact (Hm x (list_elem_of_lookup_2 _ _ _ Hx)).
Qed.

Lemma is_uint8_build3 a b c (f : nat → nat → nat → Z) :
  (∀ i j k, 0 ≤ f i j k < 256) → is_uint8 (build3 a b c f).
Proof.
  intros Hf. unfold is_uint8, build3.
  apply Forall_fmap, Forall_forall. intros i _. simpl.
  apply Forall_fmap, Forall_forall. intros j _. simpl.
  apply Forall_fmap, Forall_forall. intros k _. simpl. apply Hf.
Qed.

Lemma astype_uint8_id m : is_uint8 m → astype_uint8 m = m.
Proof.
  unfold is_uint8, astype_uint8. intros Hm.
  rewrite <- (list_fmap_id m) at 2. apply list_fmap_ext.
  intros _ plane Hp%list_elem_of_lookup_2. simpl.
  rewrite Forall_forall in Hm. specialize (Hm plane Hp).
  rewrite <- (list_fmap_id plane) at 2. apply list_fmap_ext.
  intros _ row Hr%list_elem_of_lookup_2. simpl.
  rewrite Forall_forall in Hm. specialize (Hm row Hr).
  rewrite <- (list_fmap_id row) at 2. apply list_fmap_ext.
  intros _ x Hx%list_elem_of_lookup_2. simpl.
  rewrite Forall_forall in Hm. specialize (Hm x Hx).
  apply Z.mod_small. lia.
Qed.

Lemma rearranges_is_uint8 a b c a' b' c' σ τ m w :
  is_uint8 m → rearranges a b c a' b' c' σ τ m w → is_uint8 w.
Proof.
  intros Hm (-> & _ & _). apply is_uint8_build3.
  intros i j k. by apply is_uint8_get3.
Qed.

(** *** [np.flip] and [np.transpose] on rectangular arrays *)

Section Rectangular.
Context (a b c : nat) (m : list (list (list Z))).
Context (Hm : rect3 a b c m) (Ha : (0 < a)%nat) (Hb : (0 < b)%nat).

Lemma np_flip_0 :
  np_flip m 0 = build3 a b c (λ i j k, get3 m (a - 1 - i) j k).
Proof. unfold np_flip. by rewrite (shape3_rect3 a b c). Qed.

Lemma np_flip_1 :
  np_flip m 1 = build3 a b c (λ i j k, get3 m i (b - 1 - j) k).
Proof. unfold np_flip. by rewrite (shape3_rect3 a b c). Qed.

Lemma np_flip_2 :
  np_flip m 2 = build3 a b c (λ i j k, get3 m i j (c - 1 - k)).
Proof. unfold np_flip. by rewrite (shape3_rect3 a b c). Qed.

Lemma np_swapaxes_0_1 :
  np_swapaxes m 0 1 = build3 b a c (λ i j k, get3 m j i k).
Proof. unfold np_swapaxes. by rewrite (shape3_rect3 a b c). Qed.

Lemma np_swapaxes_0_2 :
  np_swapaxes m 0 2 = build3 c b a (λ i j k, get3 m k j i).
Proof. unfold np_swapaxes. by rewrite (shape3_rect3 a b c). Qed.

Lemma np_swapaxes_1_0 :
  np_swapaxes m 1 0 = build3 b a c (λ i j k, get3 m j i k).
Proof. unfold np_swapaxes. by rewrite (shape3_rect3 a b c). Qed.

Lemma np_swapaxes_2_0 :
  np_swapaxes m 2 0 = build3 c b a (λ i j k, get3 m k j i).
Proof. unfold np_swapaxes. by rewrite (shape3_rect3 a b c). Qed.

Lemma channels_first_rect3 :
  channels_first m
  = negb (bool_decide (c = 3 ∨ c = 4)%nat)
    && bool_decide (a = 3 ∨ a = 4)%nat.
Proof. unfold channels_first. by rewrite (shape3_rect3 a b c). Qed.

End Rectangular.

(** *** [io.imread] *)

Lemma io_imread_stored m : channels_first m = false → io_imread m = m.
Proof. unfold io_imread. by intros ->. Qed.

(** The array that is read from a file that looks like an image with its
    channels first. *)
Lemma io_imread_moved a b c m :
  rect3 a b c m → (0 < a)%nat → (0 < b)%nat → (0 < c)%nat →
  channels_first m = true →
  io_imread m = build3 b c a (λ i j k, get3 m k i j).
Proof.
  intros Hm Ha Hb Hc Hcf. unfold io_imread. rewrite Hcf.
  rewrite (np_swapaxes_2_0 a b c m) by done.
  rewrite (np_swapaxes_1_0 c b a) by first [done | apply rect3_build3].
  apply build3_ext. intros i j k Hi Hj Hk.
  by rewrite get3_build3 by lia.
Qed.

(** Once the first axis is at the end, the array is read as it is. *)
Lemma channels_first_moved a b c m :
  rect3 a b c m → (0 < a)%nat → (0 < b)%nat → (0 < c)%nat →
  channels_first m = true →
  channels_first (io_imread m) = false.
Proof.
  intros Hm Ha Hb Hc Hcf. rewrite (io_imread_moved a b c) by done.
  rewrite (channels_first_rect3 b c a) by first [done | apply rect3_build3].
  rewrite (channels_first_rect3 a b c) in Hcf by done.
  apply andb_true_iff in Hcf as [_ Ha34]. by rewrite Ha34.
Qed.

Lemma io_imread_idemp a b c m :
  rect3 a b c m → (0 < a)%nat → (0 < b)%nat → (0 < c)%nat →
  io_imread (io_imread m) = io_imread m.
Proof.
  intros Hm Ha Hb Hc. destruct (channels_first m) eqn:Hcf.
  - apply io_imread_stored. by apply (channels_first_moved a b c).
  - by rewrite !(io_imread_stored m).
Qed.

End VolumeFacts.

Module ViewsFacts.
Import Volume VolumeFacts Views.

Lemma np_rot90_3 m axes :
  np_rot90 m 3 axes = np_flip (np_swapaxes m axes.1 axes.2) axes.2.
Proof. reflexivity. Qed.

Lemma np_rot90_1 m axes :
  np_rot90 m 1 axes = np_swapaxes (np_flip m axes.2) axes.1 axes.2.
Proof. reflexivity. Qed.

Lemma np_rot90_minus_3 m axes :
  np_rot90 m (-3) axes = np_swapaxes (np_flip m axes.2) axes.1 axes.2.
Proof. reflexivity. Qed.

Lemma load_tiff_image_stored m :
  channels_first m = false → is_uint8 m → load_tiff_image m = m.
Proof.
  intros Hcf Hu. unfold load_tiff_image.
  by rewrite io_imread_stored, astype_uint8_id.
Qed.

(** What is loaded from a file is what is loaded from the array that
    [io.imread] makes of it. *)
Lemma load_tiff_image_io_imread a b c m :
  rect3 a b c m → (0 < a)%nat → (0 < b)%nat → (0 < c)%nat →
  load_tiff_image (io_imread m) = load_tiff_image m.
Proof.
  intros Hm Ha Hb Hc. unfold load_tiff_image.
  by rewrite (io_imread_idemp a b c).
Qed.

Lemma transpose_tif_rect a b c m :
  rect3 a b c m → (0 < a)%nat → (0 < b)%nat → is_uint8 m →
  transpose_tif m = build3 a c b (λ i j k, get3 m i k j).
Proof.
  intros Hm Ha Hb Hu. unfold transpose_tif.
  rewrite (shape3_rect3 a b c) by done.
  apply astype_uint8_id, is_uint8_build3. intros i j k.
  by apply is_uint8_get3.
Qed.

(** Solves the two conditions of [rearranges] on the positions. *)
Ltac solve_positions :=
  split; intros [[? ?] ?] (? & ? & ?); unfold in_shape in *; simpl in *;
  (split; [lia | repeat f_equal; lia]).

(** Solves [is_uint8] of arrays built from an array of [uint8] samples. *)
Ltac solve_uint8 :=
  repeat first
    [ assumption | apply is_uint8_get3 | apply is_uint8_build3; intros ].

Section Converters.
Context (a b c : nat) (v : list (list (list Z))).
Context (Hv : rect3 a b c v) (Hu : is_uint8 v).
Context (Ha : (0 < a)%nat) (Hb : (0 < b)%nat) (Hc : (0 < c)%nat).
Context (Hstored : channels_first v = false).

Lemma dorsal_to_coronal_rearranges :
  rearranges a b c b a c
    (λ idx, (a - 1 - idx.1.2, idx.1.1, idx.2)%nat)
    (λ idx, (idx.1.2, a - 1 - idx.1.1, idx.2)%nat)
    v (convert_dorsal_tif_to_coronal_tif v).
Proof using All.
  split; [|solve_positions].
  unfold convert_dorsal_tif_to_coronal_tif.
  rewrite load_tiff_image_stored, np_rot90_3 by done. simpl.
  rewrite (np_swapaxes_0_1 a b c), (np_flip_1 b a c)
    by first [done | apply rect3_build3].
  apply build3_ext. intros i j k Hi Hj Hk.
  rewrite get3_build3 by lia. done.
Qed.

Lemma coronal_to_dorsal_rearranges :
  rearranges a b c b a c
    (λ idx, (idx.1.2, b - 1 - idx.1.1, idx.2)%nat)
    (λ idx, (b - 1 - idx.1.2, idx.1.1, idx.2)%nat)
    v (convert_coronal_tif_to_dorsal_tif v).
Proof using All.
  split; [|solve_positions].
  unfold convert_coronal_tif_to_dorsal_tif.
  rewrite load_tiff_image_stored, np_rot90_minus_3 by done. simpl.
  rewrite (np_flip_1 a b c), (np_swapaxes_0_1 a b c)
    by first [done | apply rect3_build3].
  apply build3_ext. intros i j k Hi Hj Hk.
  rewrite get3_build3 by lia. done.
Qed.

Lemma dorsal_to_sagittal_rearranges :
  rearranges a b c c a b
    (λ idx, (a - 1 - idx.1.2, idx.2, idx.1.1)%nat)
    (λ idx, (idx.2, a - 1 - idx.1.1, idx.1.2)%nat)
    v (convert_dorsal_tif_to_sagittal_tif v).
Proof using All.
  split; [|solve_positions].
  unfold convert_dorsal_tif_to_sagittal_tif.
  rewrite load_tiff_image_stored, np_rot90_3 by done. simpl.
  rewrite (np_swapaxes_0_2 a b c), (np_flip_2 c b a)
    by first [done | apply rect3_build3].
  rewrite (transpose_tif_rect c b a);
    [|apply rect3_build3|done|done|].
  2:{ solve_uint8. }
  apply build3_ext. intros i j k Hi Hj Hk.
  rewrite !get3_build3 by lia. done.
Qed.

Lemma sagittal_to_dorsal_rearranges :
  rearranges a b c b c a
    (λ idx, (idx.2, b - 1 - idx.1.1, idx.1.2)%nat)
    (λ idx, (b - 1 - idx.1.2, idx.2, idx.1.1)%nat)
    v (convert_sagittal_tif_to_dorsal_tif v).
Proof using All.
  split; [|solve_positions].
  unfold convert_sagittal_tif_to_dorsal_tif.
  rewrite load_tiff_image_stored, np_rot90_1 by done. simpl.
  rewrite (np_flip_1 a b c), (np_swapaxes_0_1 a b c)
    by first [done | apply rect3_build3].
  rewrite (transpose_tif_rect b a c);
    [|apply rect3_build3|done|done|].
  2:{ solve_uint8. }
  apply build3_ext. intros i j k Hi Hj Hk.
  rewrite !get3_build3 by lia. done.
Qed.

Lemma sagittal_to_coronal_rearranges :
  rearranges a b c c b a
    (λ idx, (idx.2, idx.1.2, idx.1.1))
    (λ idx, (idx.2, idx.1.2, idx.1.1))
    v (convert_sagittal_tif_to_coronal_tif v).
Proof using All.
  split; [|solve_positions].
  unfold convert_sagittal_tif_to_coronal_tif.
  rewrite load_tiff_image_stored, np_rot90_3 by done. simpl.
  rewrite (np_swapaxes_0_2 a b c) by done.
  rewrite (np_flip_2 c b a (build3 c b a _))
    by first [done | apply rect3_build3].
  rewrite (np_flip_2 c b a) by first [done | apply rect3_build3].
  apply build3_ext. intros i j k Hi Hj Hk.
  rewrite !get3_build3 by lia. f_equal. lia.
Qed.

Lemma coronal_to_sagittal_rearranges :
  rearranges a b c c b a
    (λ idx, (idx.2, idx.1.2, idx.1.1))
    (λ idx, (idx.2, idx.1.2, idx.1.1))
    v (convert_coronal_tif_to_sagittal_tif v).
Proof using All. exact sagittal_to_coronal_rearranges. Qed.

End Converters.

(** A rearrangement followed by a rearrangement along inverse positions
    gives the array back. *)
Lemma rearranges_inverse a b c a' b' c' σ τ σ' τ' v w u :
  rect3 a b c v →
  rearranges a b c a' b' c' σ τ v w →
  rearranges a' b' c' a b c σ' τ' w u →
  (∀ idx, in_shape a b c idx → σ (σ' idx) = idx) →
  u = v.
Proof.
  intros Hv Hw (-> & Hσ' & _) Hinv.
  etrans; [|symmetry; apply (rect3_eq_build3 a b c v Hv)].
  apply build3_ext. intros i j k Hi Hj Hk.
  assert (in_shape a b c (i, j, k)) as Hidx by done.
  destruct (Hσ' _ Hidx) as [(Hi' & Hj' & Hk') _].
  destruct (σ' (i, j, k)) as [[i' j'] k'] eqn:Hσ. simpl in *.
  rewrite (rearranges_get3 _ _ _ _ _ _ _ _ _ _ _ _ _ Hw Hi' Hj' Hk').
  by rewrite <- Hσ, Hinv.
Qed.

(** Solves the last premise of [rearranges_inverse]. *)
Ltac solve_inverse :=
  intros [[? ?] ?] (? & ? & ?); simpl in *; repeat f_equal; lia.

Lemma rearranges_elem_of a b c a' b' c' σ τ v w x :
  rect3 a b c v → rearranges a b c a' b' c' σ τ v w →
  x ∈ flatten3 w → x ∈ flatten3 v.
Proof.
  intros Hv Hw Hx.
  pose proof (rearranges_Permutation _ _ _ _ _ _ _ _ _ _ Hv Hw) as Hp.
  apply list_elem_of_In. apply list_elem_of_In in Hx.
  by apply (Permutation_in x Hp).
Qed.

(** *** What [io.imread] does to the positions *)

Lemma rearranges_id a b c v :
  rect3 a b c v → rearranges a b c a b c id id v v.
Proof.
  intros Hv. split; [|by split]. simpl. apply (rect3_eq_build3 a b c v Hv).
Qed.

Lemma rearranges_trans a b c a0 b0 c0 a' b' c' σ0 τ0 σ τ v v0 w :
  rearranges a b c a0 b0 c0 σ0 τ0 v v0 →
  rearranges a0 b0 c0 a' b' c' σ τ v0 w →
  rearranges a b c a' b' c' (σ0 ∘ σ) (τ ∘ τ0) v w.
Proof.
  intros H0 (-> & Hσ & Hτ). pose proof H0 as (_ & Hσ0 & Hτ0).
  split; [|split].
  - apply build3_ext. intros i j k Hi Hj Hk.
    destruct (Hσ (i, j, k)) as [(Hi' & Hj' & Hk') _]; [done|].
    destruct (σ (i, j, k)) as [[i' j'] k'] eqn:E. simpl in *.
    rewrite (rearranges_get3 _ _ _ _ _ _ _ _ _ _ _ _ _ H0 Hi' Hj' Hk').
    by rewrite E.
  - intros idx Hidx. destruct (Hσ idx Hidx) as [H1 H2].
    destruct (Hσ0 _ H1) as [H3 H4]. simpl. split; [done|]. by rewrite H4.
  - intros idx Hidx. destruct (Hτ0 idx Hidx) as [H1 H2].
    destruct (Hτ _ H1) as [H3 H4]. simpl. split; [done|]. by rewrite H4.
Qed.

(** [io.imread] rearranges the samples, and what it returns would be read
    as it is. *)
Lemma io_imread_rearranges a b c v :
  rect3 a b c v → (0 < a)%nat → (0 < b)%nat → (0 < c)%nat →
  ∃ a0 b0 c0 σ0 τ0,
    rearranges a b c a0 b0 c0 σ0 τ0 v (io_imread v)
    ∧ (0 < a0)%nat ∧ (0 < b0)%nat ∧ (0 < c0)%nat
    ∧ channels_first (io_imread v) = false.
Proof.
  intros Hv Ha Hb Hc. destruct (channels_first v) eqn:Hcf.
  - exists b, c, a, (λ idx, (idx.2, idx.1.1, idx.1.2)),
      (λ idx, (idx.1.2, idx.2, idx.1.1)).
    split; [|by eauto using channels_first_moved].
    split; [by apply io_imread_moved | solve_positions].
  - exists a, b, c, id, id. rewrite io_imread_stored by done.
    split; [by apply rearranges_id | done].
Qed.

(** A converter gives for a file what it gives for the array that
    [io.imread] makes of the file. *)
Lemma reorient_io_imread a b c v from_view to_view :
  rect3 a b c v → (0 < a)%nat → (0 < b)%nat → (0 < c)%nat →
  reorient (io_imread v) from_view to_view = reorient v from_view to_view.
Proof.
  intros Hv Ha Hb Hc.
  pose proof (load_tiff_image_io_imread a b c v Hv Ha Hb Hc) as Hl.
  destruct from_view, to_view; try reflexivity; unfold reorient; f_equal;
    unfold convert_dorsal_tif_to_coronal_tif,
      convert_dorsal_tif_to_sagittal_tif,
      convert_sagittal_tif_to_coronal_tif,
      convert_sagittal_tif_to_dorsal_tif,
      convert_coronal_tif_to_dorsal_tif,
      convert_coronal_tif_to_sagittal_tif; by rewrite Hl.
Qed.

(** Every converter rearranges the samples of the file. *)
Lemma reorient_rearranges a b c v from_view to_view :
  rect3 a b c v → (0 < a)%nat → (0 < b)%nat → (0 < c)%nat →
  is_uint8 v → from_view ≠ to_view →
  ∃ w a' b' c' σ τ,
    reorient v from_view to_view = Some w
    ∧ rearranges a b c a' b' c' σ τ v w.
Proof.
  intros Hv Ha Hb Hc Hu Hne.
  destruct (io_imread_rearranges a b c v Hv Ha Hb Hc)
    as (a0 & b0 & c0 & σ0 & τ0 & H0 & Ha0 & Hb0 & Hc0 & Hcf).
  pose proof (rearranges_rect3 _ _ _ _ _ _ _ _ _ _ H0) as Hv0.
  pose proof (rearranges_is_uint8 _ _ _ _ _ _ _ _ _ _ Hu H0) as Hu0.
  rewrite <- (reorient_io_imread a b c) by done.
  destruct from_view, to_view; try (exfalso; apply Hne; reflexivity);
    unfold reorient; eexists; do 5 eexists; (split; [reflexivity|]);
    (eapply rearranges_trans; [exact H0|]).
  - by apply dorsal_to_coronal_rearranges.
  - by apply dorsal_to_sagittal_rearranges.
  - by apply coronal_to_dorsal_rearranges.
  - by apply coronal_to_sagittal_rearranges.
  - by apply sagittal_to_dorsal_rearranges.
  - by apply sagittal_to_coronal_rearranges.
Qed.

(** *** The claims on the view converters *)

(** C4 fails in the code: the dorsal volume [sample_volume] of shape
    [(2, 2, 3)] is converted to a sagittal volume of shape [(3, 2, 2)];
    [io.imread] takes that file for an image with three channels and moves
    its first axis to the end, and the conversion back to the dorsal view
    gives a volume of shape [(2, 3, 2)]. *)
Lemma reorient_round_trip_fails :
  reorient sample_volume Dorsal Sagittal
  = Some [[[7; 10]; [1; 4]]; [[8; 11]; [2; 5]]; [[9; 12]; [3; 6]]]
  ∧ reorient [[[7; 10]; [1; 4]]; [[8; 11]; [2; 5]]; [[9; 12]; [3; 6]]]
      Sagittal Dorsal
    = Some [[[10; 4]; [11; 5]; [12; 6]]; [[7; 1]; [8; 2]; [9; 3]]]
  ∧ reorient [[[7; 10]; [1; 4]]; [[8; 11]; [2; 5]]; [[9; 12]; [3; 6]]]
      Sagittal Dorsal
    ≠ Some sample_volume.
Proof. split; [by vm_compute|]. split; [by vm_compute|]. by vm_compute. Qed.

(** X19: the round trip of C4, where [io.imread] reads both files as they
    are stored: for every volume of [uint8] labels and every ordered pair of
    different views, a conversion keeps the multiset of the labels (the
    samples of the result are a permutation of the samples of the input),
    and converting back gives the volume again when neither the volume nor
    the converted volume is taken for an image with its channels first. *)
Theorem reorient_round_trip (a b c : nat) (v : list (list (list Z)))
    (from_view to_view : view) :
  rect3 a b c v → (0 < a)%nat → (0 < b)%nat → (0 < c)%nat →
  is_uint8 v →
  from_view ≠ to_view →
  ∃ w, reorient v from_view to_view = Some w
       ∧ flatten3 w ≡ₚ flatten3 v
       ∧ (channels_first v = false → channels_first w = false →
          reorient w to_view from_view = Some v).
Proof.
  intros Hv Ha Hb Hc Hu Hne.
  destruct (reorient_rearranges a b c v from_view to_view)
    as (w & a' & b' & c' & σ & τ & Hw & Hr); [done..|].
  exists w. split; [done|].
  split; [exact (rearranges_Permutation _ _ _ _ _ _ _ _ _ _ Hv Hr)|].
  clear a' b' c' σ τ Hr. intros Hs Hs'.
  destruct from_view, to_view; try (exfalso; apply Hne; reflexivity);
    unfold reorient in Hw; injection Hw as <-; unfold reorient; f_equal.
  - pose proof (dorsal_to_coronal_rearranges a b c v Hv Hu Ha Hb Hc Hs) as Hw.
    eapply (rearranges_inverse a b c b a c);
      [ exact Hv | exact Hw
      | apply coronal_to_dorsal_rearranges;
        eauto using rearranges_rect3, rearranges_is_uint8
      | solve_inverse ].
  - pose proof (dorsal_to_sagittal_rearranges a b c v Hv Hu Ha Hb Hc Hs) as Hw.
    eapply (rearranges_inverse a b c c a b);
      [ exact Hv | exact Hw
      | apply sagittal_to_dorsal_rearranges;
        eauto using rearranges_rect3, rearranges_is_uint8
      | solve_inverse ].
  - pose proof (coronal_to_dorsal_rearranges a b c v Hv Hu Ha Hb Hc Hs) as Hw.
    eapply (rearranges_inverse a b c b a c);
      [ exact Hv | exact Hw
      | apply dorsal_to_coronal_rearranges;
        eauto using rearranges_rect3, rearranges_is_uint8
      | solve_inverse ].
  - pose proof (coronal_to_sagittal_rearranges a b c v Hv Hu Ha Hb Hc Hs) as Hw.
    eapply (rearranges_inverse a b c c b a);
      [ exact Hv | exact Hw
      | apply sagittal_to_coronal_rearranges;
        eauto using rearranges_rect3, rearranges_is_uint8
      | solve_inverse ].
  - pose proof (sagittal_to_dorsal_rearranges a b c v Hv Hu Ha Hb Hc Hs) as Hw.
    eapply (rearranges_inverse a b c b c a);
      [ exact Hv | exact Hw
      | apply dorsal_to_sagittal_rearranges;
        eauto using rearranges_rect3, rearranges_is_uint8
      | solve_inverse ].
  - pose proof (sagittal_to_coronal_rearranges a b c v Hv Hu Ha Hb Hc Hs) as Hw.
    eapply (rearranges_inverse a b c c b a);
      [ exact Hv | exact Hw
      | apply coronal_to_sagittal_rearranges;
        eauto using rearranges_rect3, rearranges_is_uint8
      | solve_inverse ].
Qed.

Lemma sample_volume_rect3 : rect3 2 2 3 sample_volume.
Proof. split; [reflexivity|]. repeat (constructor; try split). Qed.

Lemma sample_volume_is_uint8 : is_uint8 sample_volume.
Proof. repeat (apply Forall_cons; split); try apply Forall_nil; lia. Qed.

Lemma reorient_round_trip_witness :
  ∃ w, reorient sample_volume Dorsal Coronal = Some w
       ∧ flatten3 w ≡ₚ flatten3 sample_volume
       ∧ reorient w Coronal Dorsal = Some sample_volume.
Proof.
  destruct (reorient_round_trip 2 2 3 sample_volume Dorsal Coronal)
    as (w & Hw & Hp & Hback).
  - exact sample_volume_rect3.
  - lia.
  - lia.
  - lia.
  - exact sample_volume_is_uint8.
  - discriminate.
  - exists w. split; [exact Hw|]. split; [exact Hp|].
    apply Hback; [reflexivity|].
    vm_compute in Hw. injection Hw as <-. reflexivity.
Defined.

(** C7: for every volume of [uint8] labels and every ordered pair of
    different views, every voxel of the converted volume is the value of one
    voxel of the input, at a position given by the conversion alone, so a
    label of the output is a label of the input. *)
Theorem reorient_copies_voxels (a b c : nat) (v : list (list (list Z)))
    (from_view to_view : view) :
  rect3 a b c v → (0 < a)%nat → (0 < b)%nat → (0 < c)%nat →
  is_uint8 v →
  from_view ≠ to_view →
  ∃ w a' b' c' (σ : nat * nat * nat → nat * nat * nat),
    reorient v from_view to_view = Some w
    ∧ rect3 a' b' c' w
    ∧ (∀ i j k, (i < a')%nat → (j < b')%nat → (k < c')%nat →
         in_shape a b c (σ (i, j, k))
         ∧ get3 w i j k
           = get3 v (σ (i, j, k)).1.1 (σ (i, j, k)).1.2 (σ (i, j, k)).2)
    ∧ (∀ x, x ∈ flatten3 w → x ∈ flatten3 v).
Proof.
  intros Hv Ha Hb Hc Hu Hne.
  destruct (reorient_rearranges a b c v from_view to_view)
    as (w & a' & b' & c' & σ & τ & Hw & Hr); [done..|].
  exists w, a', b', c', σ. split; [done|].
  split; [by eapply rearranges_rect3|]. split.
  - intros i j k Hi Hj Hk. split.
    + destruct Hr as (_ & Hσ & _). by apply (Hσ (i, j, k)).
    + by eapply rearranges_get3.
  - intros x. by eapply rearranges_elem_of.
Qed.

Lemma reorient_copies_voxels_witness :
  ∃ w a' b' c' (σ : nat * nat * nat → nat * nat * nat),
    reorient sample_volume Sagittal Coronal = Some w
    ∧ rect3 a' b' c' w
    ∧ (∀ i j k, (i < a')%nat → (j < b')%nat → (k < c')%nat →
         in_shape 2 2 3 (σ (i, j, k))
         ∧ get3 w i j k
           = get3 sample_volume (σ (i, j, k)).1.1 (σ (i, j, k)).1.2
                  (σ (i, j, k)).2)
    ∧ (∀ x, x ∈ flatten3 w → x ∈ flatten3 sample_volume).
Proof.
  apply (reorient_copies_voxels 2 2 3 sample_volume Sagittal Coronal).
  - exact sample_volume_rect3.
  - lia.
  - lia.
  - lia.
  - exact sample_volume_is_uint8.
  - discriminate.
Defined.

End ViewsFacts.

Module TiffFacts.
Import Array2 Array2Facts Volume VolumeFacts Tiff.

(** *** Element-wise operations on volumes *)

Lemma at3_map3 {A B} (f : A → B) m i j k :
  at3 (map3 f m) i j k = f <$> at3 m i j k.
Proof.
  unfold at3, map3. rewrite list_lookup_fmap.
  destruct (m !! i) as [plane|]; simpl; [|done]. apply at2_map2d.
Qed.

Lemma at3_zip3 {A B C} (f : A → B → C) m1 m2 i j k :
  at3 (zip3 f m1 m2) i j k =
  match at3 m1 i j k, at3 m2 i j k with
  | Some x, Some y => Some (f x y)
  | _, _ => None
  end.
Proof.
  unfold at3, zip3. rewrite lookup_zip_with.
  destruct (m1 !! i) as [p1|]; simpl; [|done].
  destruct (m2 !! i) as [p2|]; simpl.
  - apply at2_zip2d.
  - by destruct (at2 p1 j k).
Qed.

Lemma dims3_map3 {A B} (f : A → B) m : dims3 (map3 f m) = dims3 m.
Proof.
  unfold dims3, map3. rewrite <- list_fmap_compose.
  apply list_fmap_ext. intros _ plane _. simpl. apply shape2_map2d.
Qed.

Lemma dims3_zip3 {A B C} (f : A → B → C) m1 m2 :
  dims3 m1 = dims3 m2 → dims3 (zip3 f m1 m2) = dims3 m1.
Proof.
  unfold dims3, zip3. intros Hs. apply list_eq. intros i.
  assert (Hi := f_equal (λ l, l !! i) Hs). simpl in Hi.
  rewrite !list_lookup_fmap in Hi.
  rewrite !list_lookup_fmap, lookup_zip_with.
  destruct (m1 !! i) as [p1|], (m2 !! i) as [p2|]; simpl in *; try done.
  injection Hi as Hi. f_equal. by apply shape2_zip2d.
Qed.

Lemma array3_ext {A} (m1 m2 : list (list (list A))) :
  dims3 m1 = dims3 m2 →
  (∀ i j k, at3 m1 i j k = at3 m2 i j k) →
  m1 = m2.
Proof.
  unfold dims3, at3. intros Hs Hat. apply list_eq. intros i.
  assert (Hi := f_equal (λ l, l !! i) Hs). simpl in Hi.
  rewrite !list_lookup_fmap in Hi.
  destruct (m1 !! i) as [p1|] eqn:H1, (m2 !! i) as [p2|] eqn:H2;
    simpl in *; try done.
  injection Hi as Hi. f_equal. apply array2_ext; [done|].
  intros j k. specialize (Hat i j k). by rewrite H1, H2 in Hat.
Qed.

Lemma at3_dims3 {A B} (m1 : list (list (list A)))
    (m2 : list (list (list B))) i j k :
  dims3 m1 = dims3 m2 → is_Some (at3 m1 i j k) → is_Some (at3 m2 i j k).
Proof.
  unfold dims3, at3, at2, shape2. intros Hs.
  assert (Hi := f_equal (λ l, l !! i) Hs). simpl in Hi.
  rewrite !list_lookup_fmap in Hi.
  destruct (m1 !! i) as [p1|], (m2 !! i) as [p2|]; simpl in *;
    try done; try (by intros [? ?]).
  injection Hi as Hi.
  assert (Hj := f_equal (λ l, l !! j) Hi). simpl in Hj.
  rewrite !list_lookup_fmap in Hj.
  destruct (p1 !! j) as [r1|], (p2 !! j) as [r2|]; simpl in *;
    try done; try (by intros [? ?]).
  injection Hj as Hj. intros Hk%lookup_lt_is_Some.
  apply lookup_lt_is_Some. lia.
Qed.

(** *** Entries whose file is missing *)

Lemma zip_delete {A B} (l : list A) (k : list B) i :
  zip (delete i l) (delete i k) = delete i (zip l k).
Proof.
  revert k i. induction l as [|x l IH]; intros k i; simpl.
  { by destruct i. }
  destruct k as [|y k], i as [|i]; simpl; try done.
  - by destruct l.
  - by rewrite IH.
Qed.

Lemma delete_out_of_range {A} (l : list A) i :
  l !! i = None → delete i l = l.
Proof.
  revert i. induction l as [|x l IH]; intros i Hi; [by destruct i|].
  destruct i as [|i]; simpl in *; [done|]. by rewrite IH.
Qed.

Lemma merge_step_missing fs acc p c :
  fs !! p = None → merge_step fs acc (p, c) = acc.
Proof.
  intros Hp. unfold merge_step, isfile. destruct acc as [stack|e]; [|done].
  rewrite Hp. rewrite bool_decide_eq_false_2; [done|].
  intros [? ?]. done.
Qed.

Lemma merge_fold_delete fs acc (entries : list (string * option Z)) i p c :
  entries !! i = Some (p, c) → fs !! p = None →
  foldl (merge_step fs) acc (delete i entries)
  = foldl (merge_step fs) acc entries.
Proof.
  revert acc i. induction entries as [|e entries IH]; intros acc i Hi Hp.
  { done. }
  destruct i as [|i]; simpl in *.
  - injection Hi as ->. by rewrite merge_step_missing.
  - by apply IH.
Qed.

Lemma zip_replicate_None {A B} (l : list A) :
  zip l (replicate (length l) (@None B)) = (λ p, (p, None)) <$> l.
Proof. induction l as [|x l IH]; simpl; [done|]. by rewrite IH. Qed.

(** *** The claims on the missing files *)

(** C10 fails in the code for the first entry, whose file gives the shape:
    [load_image] returns [None] for a missing first file and [image.shape]
    raises [AttributeError], while the list without that entry is merged. *)
Lemma merge_first_entry_missing :
  merge_8bit_grayscale_tif_files sample_fs "out.tif"
    ["in/zz.tif"; "in/b.tif"] (Some [30; 20]) = Raise AttributeError
  ∧ merge_8bit_grayscale_tif_files sample_fs "out.tif"
      ["in/b.tif"] (Some [20])
    = Ok (<["out.tif" := [[[0; 0]; [20; 20]]]]> sample_fs).
Proof. split; vm_compute; reflexivity. Qed.

(** X18: an entry other than the first whose mask file does not exist is
    skipped: the call gives what it gives for the lists without that entry,
    the same file system or the same exception, with colours or without. *)
Theorem merge_skips_missing_entry
    (fs : gmap string (list (list (list Z)))) (output_path : string)
    (tiffs_path : list string) (i : nat) (p : string) :
  (0 < i)%nat → tiffs_path !! i = Some p → fs !! p = None →
  (∀ color_values,
     merge_8bit_grayscale_tif_files fs output_path tiffs_path
       (Some color_values)
     = merge_8bit_grayscale_tif_files fs output_path (delete i tiffs_path)
         (Some (delete i color_values)))
  ∧ merge_8bit_grayscale_tif_files fs output_path tiffs_path None
    = merge_8bit_grayscale_tif_files fs output_path (delete i tiffs_path)
        None.
Proof.
  intros Hi Hp Hfs. destruct i as [|i]; [lia|].
  destruct tiffs_path as [|first rest]; [done|]. simpl in Hp.
  unfold merge_8bit_grayscale_tif_files.
  change (delete (S i) (first :: rest)) with (first :: delete i rest).
  cbv beta iota.
  destruct (load_image fs first) as [image|]; [|by split]. split.
  - intros color_values. cbn zeta.
    rewrite list_fmap_delete.
    change (first :: delete i rest) with (delete (S i) (first :: rest)).
    rewrite zip_delete.
    destruct (zip (first :: rest) (Some <$> color_values) !! S i)
      as [[p' c]|] eqn:Hz.
    + assert (p' = p) as ->.
      { apply lookup_zip_with_Some in Hz as (x & y & [= -> ->] & Hx & _).
        simpl in Hx. congruence. }
      by rewrite (merge_fold_delete fs _ _ (S i) p c Hz Hfs).
    + by rewrite delete_out_of_range.
  - cbn zeta. rewrite !zip_replicate_None.
    change (first :: delete i rest) with (delete (S i) (first :: rest)).
    rewrite list_fmap_delete.
    rewrite (merge_fold_delete fs _ _ (S i) p None); [done| |done].
    rewrite list_lookup_fmap. simpl. by rewrite Hp.
Qed.

Lemma merge_skips_missing_entry_witness :
  merge_8bit_grayscale_tif_files sample_fs "out.tif"
    ["in/a.tif"; "in/zz.tif"; "in/b.tif"] (Some [10; 30; 20])
  = merge_8bit_grayscale_tif_files sample_fs "out.tif"
      ["in/a.tif"; "in/b.tif"] (Some [10; 20]).
Proof.
  apply (proj1 (merge_skips_missing_entry sample_fs "out.tif"
                  ["in/a.tif"; "in/zz.tif"; "in/b.tif"] 1 "in/zz.tif"
                  ltac:(lia) eq_refl eq_refl) [10; 30; 20]).
Defined.

(** *** Assembling, then extracting *)

Lemma load_image_stored fs p m :
  fs !! p = Some m → channels_first m = false → load_image fs p = Some m.
Proof.
  intros Hp Hs. unfold load_image, isfile.
  rewrite Hp, bool_decide_eq_true_2 by eauto. simpl.
  by rewrite io_imread_stored.
Qed.

Lemma merge_fold_present fs (es : list region) stack :
  (∀ e, e ∈ es → fs !! region_path e = Some (region_mask e)) →
  (∀ e, e ∈ es → dims3 (region_mask e) = dims3 stack) →
  (∀ e, e ∈ es → 0 ≤ region_label e ≤ 255) →
  foldl (merge_step fs) (Ok stack)
        (zip (region_path <$> es) (Some <$> (region_label <$> es)))
  = Ok (foldl paint stack es)
  ∧ dims3 (foldl paint stack es) = dims3 stack.
Proof.
  revert stack. induction es as [|e es IH]; intros stack Hfs Hdims Hlab.
  { done. }
  assert (fs !! region_path e = Some (region_mask e)) as He
    by (apply Hfs; by left).
  assert (dims3 (region_mask e) = dims3 stack) as Hd
    by (apply Hdims; by left).
  assert (0 ≤ region_label e ≤ 255) as Hl by (apply Hlab; by left).
  assert (merge_step fs (Ok stack) (region_path e, Some (region_label e))
          = Ok (paint stack e)) as Hstep.
  { unfold merge_step, isfile. rewrite He, bool_decide_eq_true_2 by eauto.
    unfold masked_store. by rewrite !decide_True by done. }
  assert (dims3 (paint stack e) = dims3 stack) as Hp.
  { unfold paint. by rewrite dims3_zip3. }
  rewrite !fmap_cons. cbn [zip_with foldl]. rewrite Hstep, <- Hp.
  apply IH.
  - intros e' He'. apply Hfs. by right.
  - intros e' He'. rewrite Hp. apply Hdims. by right.
  - intros e' He'. apply Hlab. by right.
Qed.

(** The value of one voxel after the loop: the colour of the last mask
    that is foreground there. *)
Lemma paint_fold_at (es : list region) stack i j k x :
  at3 stack i j k = Some x →
  (∀ e, e ∈ es → is_Some (at3 (region_mask e) i j k)) →
  at3 (foldl paint stack es) i j k
  = Some (foldl (λ s e, if voxel_of i j k e =? 0
                        then s else region_label e) x es).
Proof.
  revert stack x. induction es as [|e es IH]; intros stack x Hx Hes; simpl.
  { done. }
  destruct (Hes e) as [m Hm]; [by left|].
  apply IH.
  - unfold paint, voxel_of. by rewrite at3_zip3, Hx, Hm.
  - intros e' He'. apply Hes. by right.
Qed.

Lemma voxel_fold_background (es : list region) (f : region → Z) x :
  (∀ e, e ∈ es → f e = 0) →
  foldl (λ s e, if f e =? 0 then s else region_label e) x es = x.
Proof.
  induction es as [|e es IH]; intros Hes; simpl; [done|].
  rewrite (Hes e) by (by left). simpl. apply IH.
  intros e' He'. apply Hes. by right.
Qed.

Lemma voxel_fold_last (l1 l2 : list region) e (f : region → Z) x :
  f e ≠ 0 → (∀ e', e' ∈ l2 → f e' = 0) →
  foldl (λ s e, if f e =? 0 then s else region_label e) x
        (l1 ++ e :: l2)
  = region_label e.
Proof.
  intros He Hl2. rewrite foldl_app. simpl.
  destruct (Z.eqb_spec (f e) 0) as [?|_]; [done|].
  by apply voxel_fold_background.
Qed.

(** The loop of the extraction: no exception when every colour has a name,
    and the mask of a colour is in the file of its name when no other colour
    of the list has that name. *)
Lemma extract_fold (combined : list (list (list Z))) (dic : gmap Z string)
    (output_path : string) (colors : list Z)
    (fs : gmap string (list (list (list Z)))) :
  (∀ c, c ∈ colors → is_Some (dic !! c)) →
  let r := foldl (extract_step combined dic output_path) (fs, None) colors in
  r.2 = None
  ∧ (∀ c n, c ∈ colors → dic !! c = Some n →
       (∀ c', c' ∈ colors → dic !! c' = Some n → c' = c) →
       r.1 !! (output_path +:+ "/" +:+ n)
       = Some (map3 (λ x, if x =? c then 255 else 0) combined)).
Proof.
  induction colors as [|c0 colors IH] using rev_ind; intros Hdic.
  { split; [done|]. intros c n Hc. by apply elem_of_nil in Hc. }
  cbn zeta. rewrite foldl_app. cbn [foldl].
  destruct IH as [Herr IH].
  { intros c Hc. apply Hdic, elem_of_app. by left. }
  set (r := foldl (extract_step combined dic output_path) (fs, None) colors)
    in *.
  destruct (Hdic c0) as [n0 Hn0].
  { apply elem_of_app. right. by left. }
  unfold extract_step. rewrite Herr, Hn0. simpl. split; [done|].
  intros c n Hc Hn Hinj.
  destruct (decide (n = n0)) as [->|Hne].
  - assert (c0 = c) as ->.
    { apply Hinj; [|done]. apply elem_of_app. right. by left. }
    by rewrite lookup_insert_eq.
  - rewrite lookup_insert_ne.
    2:{ intros Heq. apply Hne. symmetry.
        by apply (inj (String.append "/")), (inj (String.append output_path)). }
    apply elem_of_app in Hc as [Hc|Hc].
    + apply IH; [done | done |].
      intros c' Hc'. apply Hinj, elem_of_app. by left.
    + apply list_elem_of_singleton in Hc as ->. congruence.
Qed.

Lemma NoDup_fmap_eq {A B} (f : A → B) (l : list A) x y :
  NoDup (f <$> l) → x ∈ l → y ∈ l → f x = f y → x = y.
Proof.
  induction l as [|z l IH]; simpl; intros Hnd Hx Hy Hf.
  { by apply elem_of_nil in Hx. }
  apply NoDup_cons in Hnd as [Hz Hnd].
  apply elem_of_cons in Hx as [->|Hx], Hy as [->|Hy]; try done.
  - destruct Hz. rewrite Hf. by apply list_elem_of_fmap_2.
  - destruct Hz. rewrite <- Hf. by apply list_elem_of_fmap_2.
  - by apply IH.
Qed.

(** A list either has no element with a property, or has a last one. *)
Lemma last_such {A} (P : A → Prop) `{∀ x, Decision (P x)} (l : list A) :
  (∀ x, x ∈ l → ¬ P x)
  ∨ (∃ l1 x l2, l = l1 ++ x :: l2 ∧ P x ∧ ∀ y, y ∈ l2 → ¬ P y).
Proof.
  induction l as [|z l IH].
  { left. intros x Hx. by apply elem_of_nil in Hx. }
  destruct IH as [Hnone|(l1 & x & l2 & -> & Hx & Hl2)].
  - destruct (decide (P z)) as [Hz|Hz].
    + right. exists [], z, l. done.
    + left. intros x [->|Hx]%elem_of_cons; [done | by apply Hnone].
  - right. exists (z :: l1), x, l2. done.
Qed.

(** *** The claim on assembling and extracting *)

(** C8 fails in the code for masks of three planes: [load_image] reads the
    first mask with [io.imread], which takes it for an image with three
    channels and moves its first axis to the end, so the stack has the shape
    [(1, 2, 3)] while the masks, read with [tiff.imread], have the shape
    [(3, 1, 2)]: the first mask does not fit and [IndexError] is raised. *)
Lemma merge_three_planes_fails :
  disjoint_masks [[[255; 0]]; [[0; 0]]; [[0; 0]]]
                 [[[0; 255]]; [[0; 0]]; [[0; 255]]]
  ∧ load_image three_plane_fs "in/a.tif" = Some [[[255; 0; 0]; [0; 0; 0]]]
  ∧ merge_8bit_grayscale_tif_files three_plane_fs "merged.tif"
      ["in/a.tif"; "in/b.tif"] (Some [10; 20]) = Raise IndexError.
Proof.
  split; [|split; vm_compute; reflexivity].
  intros i j k x y Hx Hy.
  destruct i as [|[|[|i]]]; destruct j as [|j]; destruct k as [|[|k]];
    try discriminate Hx; injection Hx as <-; injection Hy as <-; auto.
Qed.

(** X20: the round trip of C8, where [io.imread] reads the first mask as it
    is stored: for a catalog (not empty) of regions with distinct names and
    distinct labels in [1, 255], whose mask files exist, have one shape, hold
    only 0 and 255, are pairwise disjoint and are not taken for images with
    their channels first, merging the masks with their labels and extracting
    the labels from the merged volume raises no exception and writes, under
    the name of every region, exactly the mask of that region. *)
Theorem extract_merge_round_trip
    (fs : gmap string (list (list (list Z)))) (es : list region)
    (dic : gmap Z string) (merged_path output_path : string) :
  es ≠ [] →
  (∀ e, e ∈ es → fs !! region_path e = Some (region_mask e)) →
  (∀ e, e ∈ es → dic !! region_label e = Some (region_name e)) →
  NoDup (region_label <$> es) →
  NoDup (region_name <$> es) →
  (∀ e, e ∈ es → 1 ≤ region_label e ≤ 255) →
  (∀ e e', e ∈ es → e' ∈ es →
           dims3 (region_mask e) = dims3 (region_mask e')) →
  (∀ e i j k x, e ∈ es → at3 (region_mask e) i j k = Some x →
                x = 0 ∨ x = 255) →
  (∀ e e', e ∈ es → e' ∈ es → e ≠ e' →
           disjoint_masks (region_mask e) (region_mask e')) →
  (∀ e, e ∈ es → channels_first (region_mask e) = false) →
  ∃ fs1,
    merge_8bit_grayscale_tif_files fs merged_path (region_path <$> es)
      (Some (region_label <$> es)) = Ok fs1
    ∧ (extract_8bit_grayscale_tif_files fs1 merged_path
         (region_label <$> es) dic output_path).2 = None
    ∧ ∀ e, e ∈ es →
        (extract_8bit_grayscale_tif_files fs1 merged_path
           (region_label <$> es) dic output_path).1
          !! (output_path +:+ "/" +:+ region_name e)
        = Some (region_mask e).
Proof.
  intros Hne Hfs Hdic Hlabels Hnames Hrange Hdims Hbin Hdisj Hstored.
  destruct es as [|e0 es']; [done|]. set (es := e0 :: es') in *.
  assert (e0 ∈ es) as He0 by (by left).
  set (stack0 := map3 (λ _ : Z, 0) (region_mask e0)).
  destruct (merge_fold_present fs es stack0) as [Hfold Hmdims].
  { done. }
  { intros e He. unfold stack0. rewrite dims3_map3. by apply Hdims. }
  { intros e He. specialize (Hrange e He). lia. }
  set (merged := foldl paint stack0 es) in *.
  exists (<[merged_path := merged]> fs). split.
  { unfold merge_8bit_grayscale_tif_files.
    change (region_path <$> es)
      with (region_path e0 :: (region_path <$> es')).
    cbv beta iota.
    rewrite (load_image_stored fs _ (region_mask e0)) by auto. cbn zeta.
    change (region_path e0 :: (region_path <$> es'))
      with (region_path <$> es).
    fold stack0. by rewrite Hfold. }
  unfold extract_8bit_grayscale_tif_files. rewrite lookup_insert_eq.
  destruct (extract_fold merged dic output_path (region_label <$> es)
              (<[merged_path := merged]> fs)) as [Herr Hfiles].
  { intros c (e & -> & He)%list_elem_of_fmap. rewrite (Hdic e He). eauto. }
  split; [done|]. intros e He.
  rewrite (Hfiles (region_label e) (region_name e)).
  2:{ by apply list_elem_of_fmap_2. }
  2:{ by apply Hdic. }
  2:{ intros c' (e' & -> & He')%list_elem_of_fmap Hc'.
      rewrite (Hdic e' He') in Hc'. injection Hc' as Hc'.
      by rewrite (NoDup_fmap_eq region_name es e' e Hnames He' He Hc'). }
  f_equal. apply array3_ext.
  { rewrite dims3_map3, Hmdims. unfold stack0. rewrite dims3_map3.
    by apply Hdims. }
  intros i j k. rewrite at3_map3.
  destruct (at3 (region_mask e) i j k) as [m|] eqn:Hm.
  2:{ destruct (at3 merged i j k) as [x|] eqn:Hx; [|done].
      destruct (at3_dims3 merged (region_mask e) i j k) as [y Hy];
        [|by eauto|congruence].
      rewrite Hmdims. unfold stack0. rewrite dims3_map3. by apply Hdims. }
  assert (∀ e', e' ∈ es → is_Some (at3 (region_mask e') i j k)) as Hsome.
  { intros e' He'. apply (at3_dims3 (region_mask e)); [by apply Hdims|].
    by eauto. }
  unfold merged. rewrite (paint_fold_at es stack0 i j k 0).
  2:{ unfold stack0. rewrite at3_map3.
      by destruct (Hsome e0 He0) as [y ->]. }
  2:{ done. }
  cbn [fmap option_fmap option_map]. f_equal.
  set (f := voxel_of i j k).
  assert (f e = m) as Hfe by (unfold f, voxel_of; by rewrite Hm).
  destruct (last_such (λ e', f e' ≠ 0) es)
    as [Hnone|(l1 & e' & l2 & Hsplit & Hnz & Hl2)].
  - rewrite (voxel_fold_background es f).
    2:{ intros e' He'. specialize (Hnone e' He').
        destruct (decide (f e' = 0)); [done | by destruct Hnone]. }
    specialize (Hrange e He). specialize (Hnone e He).
    destruct (Z.eqb_spec 0 (region_label e)) as [?|_]; [lia|].
    destruct (decide (f e = 0)); [congruence | by destruct Hnone].
  - rewrite Hsplit. rewrite (voxel_fold_last l1 l2 e' f 0 Hnz).
    2:{ intros y Hy. specialize (Hl2 y Hy).
        destruct (decide (f y = 0)); [done | by destruct Hl2]. }
    assert (e' ∈ es) as He'.
    { rewrite Hsplit. apply elem_of_app. right. by left. }
    destruct (Z.eqb_spec (region_label e') (region_label e)) as [Heq|Hlab].
    + apply (NoDup_fmap_eq region_label es e' e Hlabels He' He) in Heq.
      subst e'. rewrite Hfe in Hnz.
      destruct (Hbin e i j k m He Hm); congruence.
    + assert (e ≠ e') as Hee' by (by intros ->).
      destruct (Hsome e' He') as [y Hy].
      destruct (Hdisj e e' He He' Hee' i j k m y Hm Hy) as [->| ->];
        [done|]. unfold f, voxel_of in Hnz. rewrite Hy in Hnz.
      by destruct Hnz.
Qed.

Lemma extract_merge_round_trip_witness :
  ∃ fs1,
    merge_8bit_grayscale_tif_files sample_fs "merged.tif"
      ["in/a.tif"; "in/b.tif"] (Some [10; 20]) = Ok fs1
    ∧ (extract_8bit_grayscale_tif_files fs1 "merged.tif" [10; 20]
         (<[10 := "a.tif"]> (<[20 := "b.tif"]> ∅)) "out").2 = None
    ∧ ∀ e, e ∈ [Region "in/a.tif" "a.tif" 10 [[[255; 0]; [0; 0]]];
                Region "in/b.tif" "b.tif" 20 [[[0; 0]; [255; 255]]]] →
        (extract_8bit_grayscale_tif_files fs1 "merged.tif" [10; 20]
           (<[10 := "a.tif"]> (<[20 := "b.tif"]> ∅)) "out").1
          !! ("out" +:+ "/" +:+ region_name e)
        = Some (region_mask e).
Proof.
  apply (extract_merge_round_trip sample_fs
           [Region "in/a.tif" "a.tif" 10 [[[255; 0]; [0; 0]]];
            Region "in/b.tif" "b.tif" 20 [[[0; 0]; [255; 255]]]]
           (<[10 := "a.tif"]> (<[20 := "b.tif"]> ∅)) "merged.tif" "out").
  - discriminate.
  - intros e [->|[->|[]%elem_of_nil]%elem_of_cons]%elem_of_cons;
      reflexivity.
  - intros e [->|[->|[]%elem_of_nil]%elem_of_cons]%elem_of_cons;
      reflexivity.
  - repeat constructor; rewrite ?elem_of_cons, ?elem_of_nil;
      intros H; repeat destruct H as [H|H]; discriminate || done.
  - repeat constructor; rewrite ?elem_of_cons, ?elem_of_nil;
      intros H; repeat destruct H as [H|H]; discriminate || done.
  - intros e [->|[->|[]%elem_of_nil]%elem_of_cons]%elem_of_cons;
      simpl; lia.
  - intros e e' [->|[->|[]%elem_of_nil]%elem_of_cons]%elem_of_cons
      [->|[->|[]%elem_of_nil]%elem_of_cons]%elem_of_cons; reflexivity.
  - intros e i j k x [->|[->|[]%elem_of_nil]%elem_of_cons]%elem_of_cons H;
      destruct i as [|i]; destruct j as [|[|j]]; destruct k as [|[|k]];
      try discriminate H; injection H as <-; auto.
  - intros e e' [->|[->|[]%elem_of_nil]%elem_of_cons]%elem_of_cons
      [->|[->|[]%elem_of_nil]%elem_of_cons]%elem_of_cons Hne;
      try (by destruct Hne); intros i j k x y Hx Hy;
      destruct i as [|i]; destruct j as [|[|j]]; destruct k as [|[|k]];
      try discriminate Hx; injection Hx as <-; injection Hy as <-; auto.
  - intros e [->|[->|[]%elem_of_nil]%elem_of_cons]%elem_of_cons;
      reflexivity.
Defined.

End TiffFacts.

Module CatalogFacts.
Import Catalog.

Lemma parse_fold regions_path lines recs tif_paths color_values dic :
  Forall2 (λ line rec, parse_line line = Ok rec) lines recs →
  foldl (parse_step regions_path) (Ok (tif_paths, color_values, dic)) lines
  = Ok (tif_paths ++ (os_path_join regions_path <$> recs.*1),
        color_values ++ recs.*2,
        record_all dic recs).
Proof.
  intros Hall. revert tif_paths color_values dic.
  induction Hall as [|line [name color] lines recs Hline _ IH];
    intros tif_paths color_values dic.
  { simpl. by rewrite !app_nil_r. }
  cbn [foldl]. unfold parse_step at 2. rewrite Hline, IH.
  rewrite !fmap_cons. cbn [fst snd].
  by rewrite <- !app_assoc.
Qed.

Lemma record_all_other dic recs color :
  color ∉ recs.*2 → record_all dic recs !! color = dic !! color.
Proof.
  revert dic. induction recs as [|[name c] recs IH]; intros dic Hc.
  { done. }
  rewrite fmap_cons, not_elem_of_cons in Hc. destruct Hc as [Hne Hc].
  unfold record_all. cbn [foldl]. fold (record_all (<[c := name]> dic) recs).
  rewrite IH by done. simpl in *. by rewrite lookup_insert_ne.
Qed.

Lemma record_all_last dic l1 name color l2 :
  color ∉ l2.*2 →
  record_all dic (l1 ++ (name, color) :: l2) !! color = Some name.
Proof.
  intros Hc. unfold record_all. rewrite foldl_app. cbn [foldl].
  fold (record_all dic l1).
  fold (record_all (<[color := name]> (record_all dic l1)) l2).
  rewrite record_all_other by done. simpl. apply lookup_insert_eq.
Qed.

(** *** The claim on the region table *)




End CatalogFacts.

(** * Further properties of the gap filling *)

Module SdfExtra.
Import Array2 Array2Facts Float64 Float64Facts Sdf SdfFacts.


Lemma within_closer d1 d2 md :
  dist_ltb d1 d2 = true → within d2 md = true → within d1 md = true.
Proof.
  destruct d1 as [a|], d2 as [b|]; simpl; try done.
  intros H%Z.ltb_lt. apply (within_mono a b). lia.
Qed.

Lemma within_le_bound d md md' :
  (md <= md')%Q → within d md = true → within d md' = true.
Proof.
  destruct d as [s|]; simpl; [|done]. intros Hle H.
  apply Qle_bool_iff in H. apply Qle_bool_iff. by eapply Qle_trans.
Qed.


(** X1: the result of [fill_2d_image_gaps] has the shape of the input. *)
Theorem fill_keeps_shape (image : list (list Z)) (md : Q) :
  shape2 (fill_2d_image_gaps image md) = shape2 image
  ∧ ∀ r c, is_Some (at2 (fill_2d_image_gaps image md) r c)
           ↔ is_Some (at2 image r c).
Proof.
  split; [apply fill_with_order_shape|]. intros r c.
  unfold fill_2d_image_gaps. destruct (at2 image r c) as [v|] eqn:Hv.
  - rewrite (fill_with_order_at _ _ _ _ _ v Hv). split; eauto.
  - rewrite fill_with_order_at_None by done. done.
Qed.

(** X2: [fill_2d_image_gaps] writes no value that the input does not hold:
    the value of every pixel of the result is the value of some pixel of
    the input. *)
Theorem fill_no_new_label (image : list (list Z)) (md : Q) (r c : nat)
    (w : Z) :
  at2 (fill_2d_image_gaps image md) r c = Some w →
  ∃ r' c', at2 image r' c' = Some w.
Proof.
  intros Hw. destruct (at2 image r c) as [v|] eqn:Hv.
  2:{ unfold fill_2d_image_gaps in Hw.
      by rewrite fill_with_order_at_None in Hw. }
  destruct (Z.eq_dec v 0) as [->|Hne].
  - destruct (Z.eq_dec w 0) as [->|Hw0]; [by eauto|].
    destruct (fill_background_filled _ image md r c w Hv Hw Hw0)
      as (r' & c' & Hat & _). eauto.
  - unfold fill_2d_image_gaps in Hw.
    rewrite (fill_labelled_at _ image md r c v Hv Hne) in Hw.
    injection Hw as <-. eauto.
Qed.

Lemma fill_no_new_label_witness :
  ∃ r' c', at2 [[7; 0; 0; 3]] r' c' = Some 7.
Proof.
  apply (fill_no_new_label [[7; 0; 0; 3]] 5 0 1 7). reflexivity.
Defined.



(** X4: a background pixel gets a label other than 0 exactly when some
    labelled pixel lies within [max_distance] of it, as the code decides it
    (the distance rounded to [float64] is at most [max_distance]), so no gap
    within the bound is left open. *)
Theorem fill_background_filled_iff (image : list (list Z)) (md : Q)
    (r c : nat) :
  at2 image r c = Some 0 →
  (∃ w, w ≠ 0 ∧ at2 (fill_2d_image_gaps image md) r c = Some w)
  ↔ (∃ r' c' v, at2 image r' c' = Some v ∧ v ≠ 0
                ∧ within (Finite (sq_dist (r, c) (r', c'))) md = true).
Proof.
  intros H0. split.
  - intros (w & Hw0 & Hw).
    destruct (fill_background_filled _ image md r c w H0 Hw Hw0)
      as (r' & c' & Hat & Hin). by exists r', c', w.
  - intros (r' & c' & v & Hv & Hne & Hin).
    by eapply fill_background_near.
Qed.

Lemma fill_background_filled_iff_witness :
  (∃ w, w ≠ 0 ∧ at2 (fill_2d_image_gaps [[7; 0; 0]] 1) 0 1 = Some w)
  ↔ (∃ r' c' v, at2 [[7; 0; 0]] r' c' = Some v ∧ v ≠ 0
                ∧ within (Finite (sq_dist (0, 1)%nat (r', c'))) 1 = true).
Proof. apply (fill_background_filled_iff [[7; 0; 0]] 1 0 1). reflexivity. Defined.

Lemma sq_dist_zero p q : sq_dist p q = 0 → p = q.
Proof.
  destruct p as [r c], q as [r' c']. unfold sq_dist. simpl. intros H.
  pose proof (Z.square_nonneg (Z.of_nat r - Z.of_nat r')) as Hr.
  pose proof (Z.square_nonneg (Z.of_nat c - Z.of_nat c')) as Hc.
  assert ((Z.of_nat r - Z.of_nat r') * (Z.of_nat r - Z.of_nat r') = 0)
    as Hr0 by lia.
  assert ((Z.of_nat c - Z.of_nat c') * (Z.of_nat c - Z.of_nat c') = 0)
    as Hc0 by lia.
  apply Z.mul_eq_0 in Hr0, Hc0. f_equal; lia.
Qed.

Lemma within_below_one s md :
  (md < 1)%Q → 1 ≤ s → within (Finite s) md = false.
Proof.
  intros Hmd Hs. unfold within.
  destruct (Qle_bool (np_sqrt s) md) eqn:Hsq; [|done].
  apply Qle_bool_iff in Hsq. exfalso.
  pose proof (np_sqrt_ge_1 s Hs) as H1.
  apply (Qlt_irrefl 1). eapply Qle_lt_trans; [|exact Hmd].
  by eapply Qle_trans.
Qed.

(** X5: with [max_distance] below 1 (zero and negative bounds included)
    nothing is filled: the result is the input. *)
Theorem fill_bound_below_one (image : list (list Z)) (md : Q) :
  (md < 1)%Q → fill_2d_image_gaps image md = image.
Proof.
  intros Hmd. apply fill_fixed_point_iff. intros r c r' c' v H0 Hv Hne.
  apply within_below_one; [done|].
  assert (0 ≤ sq_dist (r, c) (r', c')) as Hpos.
  { unfold sq_dist. apply Z.add_nonneg_nonneg; apply Z.square_nonneg. }
  destruct (Z.eq_dec (sq_dist (r, c) (r', c')) 0) as [Hz|Hz]; [|lia].
  apply sq_dist_zero in Hz. injection Hz as -> ->. congruence.
Qed.

Lemma fill_bound_below_one_witness :
  fill_2d_image_gaps [[7; 0; 0; 3]] (1 # 2) = [[7; 0; 0; 3]].
Proof. apply (fill_bound_below_one [[7; 0; 0; 3]] (1 # 2)). reflexivity. Defined.

(** The pairs kept at one pixel under a bound [md] and under a larger bound
    [md']: equal once the pair under [md] is set, and until then the pair
    under [md'] holds no distance within [md]. *)
Lemma pixel_fold_two_bounds image md md' p colors :
  (md <= md')%Q →
  let st := foldl (pixel_step image md p) (Infinite, 0) colors in
  let st' := foldl (pixel_step image md' p) (Infinite, 0) colors in
  (st = (Infinite, 0) ∧ within st'.1 md = false)
  ∨ (st' = st ∧ within st.1 md = true).
Proof.
  intros Hle. induction colors as [|c colors IH] using rev_ind.
  { by left. }
  cbn zeta in *. rewrite !foldl_app. cbn [foldl].
  destruct (foldl (pixel_step image md p) (Infinite, 0) colors)
    as [d cl].
  destruct (foldl (pixel_step image md' p) (Infinite, 0) colors)
    as [d' cl'].
  unfold pixel_step. destruct (Z.eqb_spec c 0) as [?|Hc0]; [done|].
  cbn [fst snd] in *.
  destruct IH as [[[= -> ->] Hout]|[[= -> ->] Hin]].
  - destruct (within (dt_at image c p) md) eqn:Hw.
    + assert (dist_ltb (dt_at image c p) Infinite = true) as ->.
      { by destruct (dt_at image c p). }
      rewrite (within_le_bound _ md md' Hle Hw), andb_true_r.
      assert (dist_ltb (dt_at image c p) d' = true) as ->.
      { destruct (dist_ltb (dt_at image c p) d') eqn:Hlt; [done|].
        destruct (dt_at image c p) as [a|], d' as [b|]; try done.
        simpl in Hlt. apply Z.ltb_ge in Hlt.
        by rewrite (within_mono b a md Hlt Hw) in Hout. }
      right. done.
    + rewrite andb_false_r. left. split; [done|].
      by destruct (dist_ltb _ d' && within _ md').
  - destruct (dist_ltb (dt_at image c p) d) eqn:Hlt; simpl.
    + pose proof (within_closer _ _ md Hlt Hin) as Hw.
      rewrite Hw, (within_le_bound _ md md' Hle Hw). right. done.
    + right. done.
Qed.

(** X6: raising [max_distance] changes no pixel that the smaller bound
    already gave a label: a pixel that is not 0 in the result for [md] has
    the same value in the result for every [md' >= md]. *)
Theorem fill_bound_monotone (image : list (list Z)) (md md' : Q)
    (r c : nat) (w : Z) :
  (md <= md')%Q →
  at2 (fill_2d_image_gaps image md) r c = Some w → w ≠ 0 →
  at2 (fill_2d_image_gaps image md') r c = Some w.
Proof.
  intros Hle Hw Hw0. unfold fill_2d_image_gaps in *.
  destruct (at2 image r c) as [v|] eqn:Hv.
  2:{ by rewrite fill_with_order_at_None in Hw. }
  rewrite (fill_with_order_at _ _ _ _ _ v Hv) in Hw.
  rewrite (fill_with_order_at _ _ _ _ _ v Hv). cbn zeta in *.
  destruct (Z.eq_dec v 0) as [Hv0|Hne].
  2:{ apply Z.eqb_neq in Hne. by rewrite Hne in *. }
  subst v. simpl in *.
  destruct (pixel_fold_two_bounds image md md' (r, c) (np_unique image) Hle)
    as [[Hst _]|[-> Hin]].
  - rewrite Hst in Hw. simpl in Hw. by injection Hw as <-.
  - rewrite Hin in Hw. by rewrite (within_le_bound _ md md' Hle Hin).
Qed.

Lemma fill_bound_monotone_witness :
  at2 (fill_2d_image_gaps [[7; 0; 0; 0; 3]] 2) 0 1 = Some 7.
Proof.
  apply (fill_bound_monotone [[7; 0; 0; 0; 3]] 1 2 0 1 7).
  - discriminate.
  - reflexivity.
  - discriminate.
Defined.

(** X22: for an integer [max_distance] from 0 to below [2^26] (the pipeline
    passes 8) the rounding of the distances does not matter, and the
    distance bound of C2 holds for the exact Euclidean distances: a
    background pixel that gets a label other than 0 has a pixel of that label
    at squared distance at most [max_distance ^ 2], and a background pixel
    whose squared distance to every labelled pixel is more than
    [max_distance ^ 2] stays 0. *)
Theorem fill_integer_bound_exact (image : list (list Z)) (md : Z)
    (r c : nat) :
  0 ≤ md < 2 ^ 26 →
  at2 image r c = Some 0 →
  (∀ w, at2 (fill_2d_image_gaps image (inject_Z md)) r c = Some w → w ≠ 0 →
        ∃ r' c', at2 image r' c' = Some w
                 ∧ sq_dist (r, c) (r', c') ≤ md * md)
  ∧ ((∀ r' c' v, at2 image r' c' = Some v → v ≠ 0 →
                 md * md < sq_dist (r, c) (r', c')) →
     at2 (fill_2d_image_gaps image (inject_Z md)) r c = Some 0).
Proof.
  intros Hmd H0.
  assert (∀ s, within (Finite s) (inject_Z md) = true ↔ s ≤ md * md) as Hw.
  { intros s. unfold within. rewrite Qle_bool_iff.
    by apply np_sqrt_le_integer. }
  split.
  - intros w Hfill Hne.
    destruct (fill_background_filled _ image (inject_Z md) r c w H0 Hfill Hne)
      as (r' & c' & Hat & Hin).
    exists r', c'. split; [done|]. by apply Hw.
  - intros Hfar. apply fill_background_far; [done|].
    intros r' c' v Hv Hne. specialize (Hfar r' c' v Hv Hne).
    destruct (within _ _) eqn:Hin; [|done]. apply Hw in Hin. lia.
Qed.

Lemma fill_integer_bound_exact_witness :
  (∃ r' c', at2 [[7; 0; 0; 0; 0]] r' c' = Some 7
            ∧ sq_dist (0, 2)%nat (r', c') ≤ 2 * 2)
  ∧ at2 (fill_2d_image_gaps [[7; 0; 0; 0; 0]] (inject_Z 2)) 0 3 = Some 0.
Proof.
  split.
  - apply (proj1 (fill_integer_bound_exact [[7; 0; 0; 0; 0]] 2 0%nat 2%nat
                    ltac:(lia) eq_refl) 7).
    + reflexivity.
    + discriminate.
  - apply (proj2 (fill_integer_bound_exact [[7; 0; 0; 0; 0]] 2 0%nat 3%nat
                    ltac:(lia) eq_refl)).
    intros r' c' v Hv Hne.
    destruct r' as [|r']; [|discriminate Hv].
    destruct c' as [|[|[|[|[|c']]]]]; try discriminate Hv;
      injection Hv as <-; try (exfalso; by apply Hne).
    by vm_compute.
Defined.

End SdfExtra.

(** * Further properties of the view converters *)

Module ViewsExtra.
Import Volume VolumeFacts Views ViewsFacts.

Lemma rearranges_compose a b c a1 b1 c1 a2 b2 c2 σ1 τ1 σ2 τ2 σ3 τ3 v w u u' :
  rearranges a b c a1 b1 c1 σ1 τ1 v w →
  rearranges a1 b1 c1 a2 b2 c2 σ2 τ2 w u →
  rearranges a b c a2 b2 c2 σ3 τ3 v u' →
  (∀ idx, in_shape a2 b2 c2 idx → σ1 (σ2 idx) = σ3 idx) →
  u = u'.
Proof.
  intros Hw (-> & Hσ2 & _) (-> & _ & _) Hcomp.
  apply build3_ext. intros i j k Hi Hj Hk.
  assert (in_shape a2 b2 c2 (i, j, k)) as Hidx by done.
  destruct (Hσ2 _ Hidx) as [(Hi' & Hj' & Hk') _].
  destruct (σ2 (i, j, k)) as [[i' j'] k'] eqn:Hσ. simpl in *.
  rewrite (rearranges_get3 _ _ _ _ _ _ _ _ _ _ _ _ _ Hw Hi' Hj' Hk').
  by rewrite <- Hσ, Hcomp.
Qed.

(** X7: what each converter computes on a file [v] of shape [(a, b, c)]
    that [io.imread] reads as it is stored: the shape of the result and, for
    every position of the result, the position of [v] whose sample it
    holds. *)
Theorem converters_geometry (a b c : nat) (v : list (list (list Z))) :
  rect3 a b c v → (0 < a)%nat → (0 < b)%nat → (0 < c)%nat →
  is_uint8 v →
  channels_first v = false →
  (rect3 b a c (convert_dorsal_tif_to_coronal_tif v)
   ∧ ∀ i j k, (i < b)%nat → (j < a)%nat → (k < c)%nat →
       get3 (convert_dorsal_tif_to_coronal_tif v) i j k
       = get3 v (a - 1 - j) i k)
  ∧ (rect3 c a b (convert_dorsal_tif_to_sagittal_tif v)
     ∧ ∀ i j k, (i < c)%nat → (j < a)%nat → (k < b)%nat →
         get3 (convert_dorsal_tif_to_sagittal_tif v) i j k
         = get3 v (a - 1 - j) k i)
  ∧ (rect3 c b a (convert_sagittal_tif_to_coronal_tif v)
     ∧ ∀ i j k, (i < c)%nat → (j < b)%nat → (k < a)%nat →
         get3 (convert_sagittal_tif_to_coronal_tif v) i j k
         = get3 v k j i)
  ∧ (rect3 b c a (convert_sagittal_tif_to_dorsal_tif v)
     ∧ ∀ i j k, (i < b)%nat → (j < c)%nat → (k < a)%nat →
         get3 (convert_sagittal_tif_to_dorsal_tif v) i j k
         = get3 v k (b - 1 - i) j)
  ∧ (rect3 b a c (convert_coronal_tif_to_dorsal_tif v)
     ∧ ∀ i j k, (i < b)%nat → (j < a)%nat → (k < c)%nat →
         get3 (convert_coronal_tif_to_dorsal_tif v) i j k
         = get3 v j (b - 1 - i) k)
  ∧ (rect3 c b a (convert_coronal_tif_to_sagittal_tif v)
     ∧ ∀ i j k, (i < c)%nat → (j < b)%nat → (k < a)%nat →
         get3 (convert_coronal_tif_to_sagittal_tif v) i j k
         = get3 v k j i).
Proof.
  intros Hv Ha Hb Hc Hu Hs.
  pose proof (dorsal_to_coronal_rearranges a b c v Hv Hu Ha Hb Hc Hs) as H1.
  pose proof (dorsal_to_sagittal_rearranges a b c v Hv Hu Ha Hb Hc Hs) as H2.
  pose proof (sagittal_to_coronal_rearranges a b c v Hv Hu Ha Hb Hc Hs) as H3.
  pose proof (sagittal_to_dorsal_rearranges a b c v Hv Hu Ha Hb Hc Hs) as H4.
  pose proof (coronal_to_dorsal_rearranges a b c v Hv Hu Ha Hb Hc Hs) as H5.
  pose proof (coronal_to_sagittal_rearranges a b c v Hv Hu Ha Hb Hc Hs) as H6.
  repeat split;
    first [ by eapply rearranges_rect3
          | intros i j k Hi Hj Hk;
            first [ exact (rearranges_get3 _ _ _ _ _ _ _ _ _ _ i j k H1 Hi Hj Hk)
                  | exact (rearranges_get3 _ _ _ _ _ _ _ _ _ _ i j k H2 Hi Hj Hk)
                  | exact (rearranges_get3 _ _ _ _ _ _ _ _ _ _ i j k H3 Hi Hj Hk)
                  | exact (rearranges_get3 _ _ _ _ _ _ _ _ _ _ i j k H4 Hi Hj Hk)
                  | exact (rearranges_get3 _ _ _ _ _ _ _ _ _ _ i j k H5 Hi Hj Hk)
                  | exact (rearranges_get3 _ _ _ _ _ _ _ _ _ _ i j k H6 Hi Hj Hk) ] ].
Qed.

Lemma converters_geometry_witness :
  get3 (convert_dorsal_tif_to_sagittal_tif sample_volume) 2 0 1
  = get3 sample_volume (2 - 1 - 0) 1 2.
Proof.
  refine (proj2 (proj1 (proj2
            (converters_geometry 2 2 3 sample_volume sample_volume_rect3
               ltac:(lia) ltac:(lia) ltac:(lia) sample_volume_is_uint8
               eq_refl)))
            2%nat 0%nat 1%nat _ _ _); lia.
Defined.

(** X8: where [io.imread] reads the files as they are stored, the
    conversions agree along every path: converting from one view to a second
    and from there to the third gives what the direct converter from the
    first view to the third gives. *)
Theorem reorient_path_independent (a b c : nat)
    (v : list (list (list Z))) (view1 view2 view3 : view) :
  rect3 a b c v → (0 < a)%nat → (0 < b)%nat → (0 < c)%nat →
  is_uint8 v →
  view1 ≠ view2 → view2 ≠ view3 → view1 ≠ view3 →
  channels_first v = false →
  ∃ w, reorient v view1 view2 = Some w
       ∧ (channels_first w = false →
          reorient w view2 view3 = reorient v view1 view3).
Proof.
  intros Hv Ha Hb Hc Hu H12 H23 H13 Hs.
  destruct view1, view2, view3;
    try (exfalso; apply H12; reflexivity);
    try (exfalso; apply H23; reflexivity);
    try (exfalso; apply H13; reflexivity);
    unfold reorient; eexists; (split; [reflexivity|]); intros Hs'; f_equal.
  - pose proof (dorsal_to_coronal_rearranges a b c v Hv Hu Ha Hb Hc Hs) as Hw.
    eapply (rearranges_compose a b c b a c c a b);
      [ exact Hw
      | apply coronal_to_sagittal_rearranges;
        eauto using rearranges_rect3, rearranges_is_uint8
      | exact (dorsal_to_sagittal_rearranges a b c v Hv Hu Ha Hb Hc Hs)
      | solve_inverse ].
  - pose proof (dorsal_to_sagittal_rearranges a b c v Hv Hu Ha Hb Hc Hs) as Hw.
    eapply (rearranges_compose a b c c a b b a c);
      [ exact Hw
      | apply sagittal_to_coronal_rearranges;
        eauto using rearranges_rect3, rearranges_is_uint8
      | exact (dorsal_to_coronal_rearranges a b c v Hv Hu Ha Hb Hc Hs)
      | solve_inverse ].
  - pose proof (coronal_to_dorsal_rearranges a b c v Hv Hu Ha Hb Hc Hs) as Hw.
    eapply (rearranges_compose a b c b a c c b a);
      [ exact Hw
      | apply dorsal_to_sagittal_rearranges;
        eauto using rearranges_rect3, rearranges_is_uint8
      | exact (coronal_to_sagittal_rearranges a b c v Hv Hu Ha Hb Hc Hs)
      | solve_inverse ].
  - pose proof (coronal_to_sagittal_rearranges a b c v Hv Hu Ha Hb Hc Hs) as Hw.
    eapply (rearranges_compose a b c c b a b a c);
      [ exact Hw
      | apply sagittal_to_dorsal_rearranges;
        eauto using rearranges_rect3, rearranges_is_uint8
      | exact (coronal_to_dorsal_rearranges a b c v Hv Hu Ha Hb Hc Hs)
      | solve_inverse ].
  - pose proof (sagittal_to_dorsal_rearranges a b c v Hv Hu Ha Hb Hc Hs) as Hw.
    eapply (rearranges_compose a b c b c a c b a);
      [ exact Hw
      | apply dorsal_to_coronal_rearranges;
        eauto using rearranges_rect3, rearranges_is_uint8
      | exact (sagittal_to_coronal_rearranges a b c v Hv Hu Ha Hb Hc Hs)
      | solve_inverse ].
  - pose proof (sagittal_to_coronal_rearranges a b c v Hv Hu Ha Hb Hc Hs) as Hw.
    eapply (rearranges_compose a b c c b a b c a);
      [ exact Hw
      | apply coronal_to_dorsal_rearranges;
        eauto using rearranges_rect3, rearranges_is_uint8
      | exact (sagittal_to_dorsal_rearranges a b c v Hv Hu Ha Hb Hc Hs)
      | solve_inverse ].
Qed.

Lemma reorient_path_independent_witness :
  ∃ w, reorient sample_volume Dorsal Coronal = Some w
       ∧ reorient w Coronal Sagittal = reorient sample_volume Dorsal Sagittal.
Proof.
  destruct (reorient_path_independent 2 2 3 sample_volume
              Dorsal Coronal Sagittal) as (w & Hw & Hpath).
  - exact sample_volume_rect3.
  - lia.
  - lia.
  - lia.
  - exact sample_volume_is_uint8.
  - discriminate.
  - discriminate.
  - discriminate.
  - reflexivity.
  - exists w. split; [exact Hw|]. apply Hpath.
    vm_compute in Hw. injection Hw as <-. reflexivity.
Defined.

(** X21: what [io.imread] makes of a file of shape [(a, b, c)] with 3 or 4
    planes: when the last axis has neither 3 nor 4 elements, every converter
    works on the array of shape [(b, c, a)] that holds the planes of the
    file along its last axis, and gives for the file what it gives for a
    file that stores this array. *)
Theorem converters_move_first_axis (a b c : nat)
    (v : list (list (list Z))) :
  rect3 a b c v → (0 < a)%nat → (0 < b)%nat → (0 < c)%nat →
  (channels_first v = true ↔ (a = 3 ∨ a = 4)%nat ∧ ¬ (c = 3 ∨ c = 4)%nat)
  ∧ (channels_first v = true →
     let moved := build3 b c a (λ i j k, get3 v k i j) in
     io_imread v = moved
     ∧ channels_first moved = false
     ∧ ∀ from_view to_view,
         reorient v from_view to_view = reorient moved from_view to_view).
Proof.
  intros Hv Ha Hb Hc. split.
  - rewrite (channels_first_rect3 a b c) by done.
    rewrite andb_true_iff, negb_true_iff, bool_decide_eq_false,
      bool_decide_eq_true. tauto.
  - intros Hcf moved.
    assert (io_imread v = moved) as Hm by (by apply io_imread_moved).
    split; [done|]. rewrite <- Hm.
    split; [by apply (channels_first_moved a b c)|].
    intros from_view to_view. symmetry. by apply (reorient_io_imread a b c).
Qed.

Lemma converters_move_first_axis_witness :
  reorient [[[7; 10]; [1; 4]]; [[8; 11]; [2; 5]]; [[9; 12]; [3; 6]]]
    Sagittal Dorsal
  = reorient [[[7; 8; 9]; [10; 11; 12]]; [[1; 2; 3]; [4; 5; 6]]]
      Sagittal Dorsal.
Proof.
  refine (proj2 (proj2 (proj2
            (converters_move_first_axis 3 2 2
               [[[7; 10]; [1; 4]]; [[8; 11]; [2; 5]]; [[9; 12]; [3; 6]]]
               _ _ _ _) eq_refl)) Sagittal Dorsal); try lia.
  split; [reflexivity|]. repeat (constructor; try split).
Defined.

End ViewsExtra.

(** * Further properties of merging and extracting *)

Module TiffExtra.
Import Array2 Array2Facts Volume VolumeFacts Tiff TiffFacts.

Lemma merge_step_Raise fs e (entries : list (string * option Z)) :
  foldl (merge_step fs) (Raise e) entries = Raise e.
Proof. induction entries as [|x entries IH]; [done|]. exact IH. Qed.

Lemma merge_step_fits fs stack entry :
  entry_fits fs stack entry →
  ∃ stack', merge_step fs (Ok stack) entry = Ok stack'
            ∧ dims3 stack' = dims3 stack.
Proof.
  destruct entry as [p c]. unfold entry_fits, merge_step. simpl. intros Hp.
  destruct (isfile fs p); [|by eauto].
  destruct (fs !! p) as [m|]; [|by eauto].
  destruct (Hp m eq_refl) as [Hd Hc].
  unfold masked_store. rewrite !decide_True by done.
  eexists. split; [done|]. by rewrite dims3_zip3.
Qed.

Lemma merge_fold_fits fs stack (entries : list (string * option Z)) :
  Forall (entry_fits fs stack) entries →
  ∃ merged, foldl (merge_step fs) (Ok stack) entries = Ok merged
            ∧ dims3 merged = dims3 stack.
Proof.
  revert stack. induction entries as [|entry entries IH]; intros stack Hall.
  { by exists stack. }
  apply Forall_cons in Hall as [Hp Hall]. cbn [foldl].
  destruct (merge_step_fits fs stack entry Hp) as (stack' & -> & Hd).
  destruct (IH stack') as (merged & Hm & Hdm).
  { eapply Forall_impl; [exact Hall|]. intros e He m Hm. rewrite Hd.
    by apply He. }
  exists merged. split; [done | congruence].
Qed.

(** The first entry that does not fit decides the exception. *)
Lemma merge_fold_first_unfit fs stack (l1 l2 : list (string * option Z))
    entry m :
  Forall (entry_fits fs stack) l1 → fs !! entry.1 = Some m →
  (dims3 m ≠ dims3 stack →
   foldl (merge_step fs) (Ok stack) (l1 ++ entry :: l2) = Raise IndexError)
  ∧ (dims3 m = dims3 stack → ¬ 0 ≤ default 255 entry.2 ≤ 255 →
     foldl (merge_step fs) (Ok stack) (l1 ++ entry :: l2)
     = Raise OverflowError).
Proof.
  intros Hl1 Hm. rewrite foldl_app. cbn [foldl].
  destruct (merge_fold_fits fs stack l1 Hl1) as (stack1 & -> & Hd).
  destruct entry as [p c]. simpl in *. unfold merge_step, isfile.
  rewrite Hm, bool_decide_eq_true_2 by eauto. unfold masked_store.
  rewrite Hd. split.
  - intros Hne. rewrite decide_False by done. apply merge_step_Raise.
  - intros Heq Hc. rewrite decide_True, decide_False by done.
    apply merge_step_Raise.
Qed.

(** X9: when [merge_8bit_grayscale_tif_files] succeeds and when it raises.
    An empty list raises [IndexError] and a missing first file
    [AttributeError].  Otherwise the stack has the shape of what
    [io.imread] makes of the first file, and the entries are visited in
    order: when every mask file that is present has that shape and a colour
    from 0 to 255, the call writes a volume of that shape to [output_path]
    and changes no other file; the first present mask of another shape
    raises [IndexError], and the first colour outside 0 to 255 (of a present
    mask of that shape) raises [OverflowError]. *)
Theorem merge_outcome (fs : gmap string (list (list (list Z))))
    (output_path : string) (color_values : option (list Z)) :
  merge_8bit_grayscale_tif_files fs output_path [] color_values
  = Raise IndexError
  ∧ ∀ first rest,
      (fs !! first = None →
       merge_8bit_grayscale_tif_files fs output_path (first :: rest)
         color_values = Raise AttributeError)
      ∧ ∀ file, fs !! first = Some file →
          let image := io_imread file in
          let entries := merge_entries (first :: rest) color_values in
          (Forall (entry_fits fs image) entries →
           ∃ merged,
             merge_8bit_grayscale_tif_files fs output_path (first :: rest)
               color_values = Ok (<[output_path := merged]> fs)
             ∧ dims3 merged = dims3 image)
          ∧ (∀ l1 entry l2 m,
               entries = l1 ++ entry :: l2 →
               Forall (entry_fits fs image) l1 →
               fs !! entry.1 = Some m →
               (dims3 m ≠ dims3 image →
                merge_8bit_grayscale_tif_files fs output_path
                  (first :: rest) color_values = Raise IndexError)
               ∧ (dims3 m = dims3 image →
                  ¬ 0 ≤ default 255 entry.2 ≤ 255 →
                  merge_8bit_grayscale_tif_files fs output_path
                    (first :: rest) color_values = Raise OverflowError)).
Proof.
  split; [done|]. intros first rest. split.
  { unfold merge_8bit_grayscale_tif_files, load_image, isfile.
    intros ->. rewrite bool_decide_eq_false_2; [done|]. by intros [? ?]. }
  intros file Hfirst image entries. subst entries.
  unfold merge_8bit_grayscale_tif_files, load_image, isfile, merge_entries.
  rewrite Hfirst.
  rewrite bool_decide_eq_true_2 by eauto. cbn [fmap option_fmap option_map].
  fold image. cbn zeta.
  set (stack := map3 (λ _ : Z, 0) image).
  assert (∀ entry, entry_fits fs image entry → entry_fits fs stack entry)
    as Hfits.
  { intros entry He m Hm. unfold stack. rewrite dims3_map3. by apply He. }
  split.
  - intros Hall.
    destruct (merge_fold_fits fs stack
                (zip (first :: rest)
                   match color_values with
                   | Some l => Some <$> l
                   | None => replicate (length (first :: rest)) None
                   end)) as (merged & -> & Hd).
    { eapply Forall_impl; [exact Hall | exact Hfits]. }
    exists merged. split; [done|]. unfold stack in Hd.
    by rewrite Hd, dims3_map3.
  - intros l1 entry l2 m Hsplit Hl1 Hm. rewrite Hsplit.
    destruct (merge_fold_first_unfit fs stack l1 l2 entry m) as [H1 H2].
    { eapply Forall_impl; [exact Hl1 | exact Hfits]. }
    { done. }
    assert (dims3 stack = dims3 image) as Hds by apply dims3_map3.
    rewrite Hds in H1, H2. split.
    + intros Hne. by rewrite H1.
    + intros Heq Hc. by rewrite H2.
Qed.

Lemma merge_outcome_witness :
  merge_8bit_grayscale_tif_files other_shape_fs "out.tif"
    ["in/a.tif"; "in/c.tif"] (Some [10; 20])
  = Raise IndexError
  ∧ merge_8bit_grayscale_tif_files other_shape_fs "out.tif"
      ["in/a.tif"; "in/b.tif"] (Some [10; 256])
    = Raise OverflowError.
Proof.
  split.
  - destruct (merge_outcome other_shape_fs "out.tif" (Some [10; 20]))
      as [_ H].
    destruct (H "in/a.tif" ["in/c.tif"]) as [_ H'].
    destruct (H' [[[255; 0]; [0; 0]]]) as [_ H'']; [vm_compute; reflexivity|].
    apply (H'' [("in/a.tif", Some 10)] ("in/c.tif", Some 20) [] [[[255]]]).
    + reflexivity.
    + apply Forall_cons. split; [|by apply Forall_nil].
      intros m Hm. vm_compute in Hm. injection Hm as <-.
      split; [reflexivity | simpl; lia].
    + vm_compute. reflexivity.
    + discriminate.
  - destruct (merge_outcome other_shape_fs "out.tif" (Some [10; 256]))
      as [_ H].
    destruct (H "in/a.tif" ["in/b.tif"]) as [_ H'].
    destruct (H' [[[255; 0]; [0; 0]]]) as [_ H'']; [vm_compute; reflexivity|].
    apply (H'' [("in/a.tif", Some 10)] ("in/b.tif", Some 256) []
             [[[0; 0]; [255; 255]]]).
    + reflexivity.
    + apply Forall_cons. split; [|by apply Forall_nil].
      intros m Hm. vm_compute in Hm. injection Hm as <-.
      split; [reflexivity | simpl; lia].
    + vm_compute. reflexivity.
    + reflexivity.
    + simpl. lia.
Defined.

(** The value of a voxel after the loop of the merge over masks that are
    all present and of the shape of the stack. *)
Lemma paint_fold_voxel (es : list region) stack i j k x :
  (∀ e, e ∈ es → dims3 (region_mask e) = dims3 stack) →
  at3 stack i j k = Some 0 →
  at3 (foldl paint stack es) i j k = Some x →
  ((∀ e, e ∈ es → voxel_of i j k e = 0) ∧ x = 0)
  ∨ (∃ l1 e l2, es = l1 ++ e :: l2 ∧ voxel_of i j k e ≠ 0
                ∧ (∀ e', e' ∈ l2 → voxel_of i j k e' = 0)
                ∧ x = region_label e).
Proof.
  intros Hdims H0. rewrite (paint_fold_at es stack i j k 0 H0).
  2:{ intros e He. apply (at3_dims3 stack); [|by eauto].
      symmetry. by apply Hdims. }
  intros [= <-].
  destruct (last_such (λ e', voxel_of i j k e' ≠ 0) es)
    as [Hnone|(l1 & e & l2 & Hsplit & Hnz & Hl2)].
  - left. assert (∀ e, e ∈ es → voxel_of i j k e = 0) as Hz.
    { intros e He. specialize (Hnone e He).
      destruct (decide (voxel_of i j k e = 0)); [done | by destruct Hnone]. }
    split; [done|]. by apply voxel_fold_background.
  - right. exists l1, e, l2.
    assert (∀ e', e' ∈ l2 → voxel_of i j k e' = 0) as Hz.
    { intros e' He'. specialize (Hl2 e' He').
      destruct (decide (voxel_of i j k e' = 0)); [done | by destruct Hl2]. }
    split; [done|]. split; [done|]. split; [done|].
    rewrite Hsplit. by apply voxel_fold_last.
Qed.

(** The merge of masks that are all present, of one shape and read as they
    are stored, with labels that are [uint8]. *)
Lemma merge_present fs (e0 : region) (es' : list region) output_path :
  (∀ e, e ∈ e0 :: es' → fs !! region_path e = Some (region_mask e)) →
  (∀ e, e ∈ e0 :: es' → dims3 (region_mask e) = dims3 (region_mask e0)) →
  (∀ e, e ∈ e0 :: es' → 0 ≤ region_label e ≤ 255) →
  channels_first (region_mask e0) = false →
  let merged := foldl paint (map3 (λ _ : Z, 0) (region_mask e0))
                      (e0 :: es') in
  merge_8bit_grayscale_tif_files fs output_path
    (region_path <$> e0 :: es') (Some (region_label <$> e0 :: es'))
  = Ok (<[output_path := merged]> fs)
  ∧ dims3 merged = dims3 (region_mask e0).
Proof.
  intros Hfs Hdims Hlab Hstored merged.
  set (es := e0 :: es') in *.
  assert (e0 ∈ es) as He0 by (by left).
  set (stack0 := map3 (λ _ : Z, 0) (region_mask e0)) in *.
  destruct (merge_fold_present fs es stack0) as [Hfold Hmdims].
  { done. }
  { intros e He. unfold stack0. rewrite dims3_map3. by apply Hdims. }
  { done. }
  split.
  - unfold merge_8bit_grayscale_tif_files.
    change (region_path <$> es)
      with (region_path e0 :: (region_path <$> es')).
    cbv beta iota.
    rewrite (load_image_stored fs _ (region_mask e0)) by auto. cbn zeta.
    change (region_path e0 :: (region_path <$> es'))
      with (region_path <$> es).
    fold stack0. by rewrite Hfold.
  - unfold merged. rewrite Hmdims. unfold stack0. by rewrite dims3_map3.
Qed.

(** The merged volume, voxel by voxel. *)
Lemma merge_present_voxels fs (es : list region) output_path :
  es ≠ [] →
  (∀ e, e ∈ es → fs !! region_path e = Some (region_mask e)) →
  (∀ e e', e ∈ es → e' ∈ es →
           dims3 (region_mask e) = dims3 (region_mask e')) →
  (∀ e, e ∈ es → 0 ≤ region_label e ≤ 255) →
  (∀ e, e ∈ es → channels_first (region_mask e) = false) →
  ∃ merged,
    merge_8bit_grayscale_tif_files fs output_path (region_path <$> es)
      (Some (region_label <$> es)) = Ok (<[output_path := merged]> fs)
    ∧ (∀ e, e ∈ es → dims3 merged = dims3 (region_mask e))
    ∧ ∀ i j k x, at3 merged i j k = Some x →
        ((∀ e, e ∈ es → voxel_of i j k e = 0) ∧ x = 0)
        ∨ (∃ l1 e l2, es = l1 ++ e :: l2 ∧ voxel_of i j k e ≠ 0
                      ∧ (∀ e', e' ∈ l2 → voxel_of i j k e' = 0)
                      ∧ x = region_label e).
Proof.
  intros Hne Hfs Hdims Hlab Hstored. destruct es as [|e0 es']; [done|].
  assert (e0 ∈ e0 :: es') as He0 by (by left).
  destruct (merge_present fs e0 es' output_path) as [Hmerge Hd].
  { done. }
  { intros e He. by apply Hdims. }
  { done. }
  { by apply Hstored. }
  eexists. split; [exact Hmerge|]. split.
  { intros e He. rewrite Hd. by apply Hdims. }
  intros i j k x Hx.
  apply (paint_fold_voxel (e0 :: es')
           (map3 (λ _ : Z, 0) (region_mask e0))); [| |done].
  - intros e He. rewrite dims3_map3. by apply Hdims.
  - rewrite at3_map3.
    destruct (at3_dims3 _ (region_mask e0) i j k Hd) as [y ->]; by eauto.
Qed.

(** X10: where masks overlap, the last one in the list wins.  For mask
    files that are all present, of one shape and read as they are stored,
    with colours from 0 to 255, every voxel of the merged volume is 0 when
    no mask is foreground there, and otherwise the colour of the last mask
    of the list that is foreground there. *)
Theorem merge_last_mask_wins (fs : gmap string (list (list (list Z))))
    (es : list region) (output_path : string) :
  es ≠ [] →
  (∀ e, e ∈ es → fs !! region_path e = Some (region_mask e)) →
  (∀ e e', e ∈ es → e' ∈ es →
           dims3 (region_mask e) = dims3 (region_mask e')) →
  (∀ e, e ∈ es → 0 ≤ region_label e ≤ 255) →
  (∀ e, e ∈ es → channels_first (region_mask e) = false) →
  ∃ merged,
    merge_8bit_grayscale_tif_files fs output_path (region_path <$> es)
      (Some (region_label <$> es)) = Ok (<[output_path := merged]> fs)
    ∧ (∀ e, e ∈ es → dims3 merged = dims3 (region_mask e))
    ∧ ∀ i j k x, at3 merged i j k = Some x →
        ((∀ e, e ∈ es → voxel_of i j k e = 0) ∧ x = 0)
        ∨ (∃ l1 e l2, es = l1 ++ e :: l2 ∧ voxel_of i j k e ≠ 0
                      ∧ (∀ e', e' ∈ l2 → voxel_of i j k e' = 0)
                      ∧ x = region_label e).
Proof. exact (merge_present_voxels fs es output_path). Qed.

Lemma merge_last_mask_wins_witness :
  ∃ merged,
    merge_8bit_grayscale_tif_files sample_fs "merged.tif"
      (region_path <$> overlap_catalog)
      (Some (region_label <$> overlap_catalog))
    = Ok (<["merged.tif" := merged]> sample_fs)
    ∧ (∀ e, e ∈ overlap_catalog → dims3 merged = dims3 (region_mask e))
    ∧ ∀ i j k x, at3 merged i j k = Some x →
        ((∀ e, e ∈ overlap_catalog → voxel_of i j k e = 0) ∧ x = 0)
        ∨ (∃ l1 e l2,
             overlap_catalog = l1 ++ e :: l2 ∧ voxel_of i j k e ≠ 0
             ∧ (∀ e', e' ∈ l2 → voxel_of i j k e' = 0)
             ∧ x = region_label e).
Proof.
  apply (merge_last_mask_wins sample_fs overlap_catalog "merged.tif").
  - discriminate.
  - intros e [->|[->|[]%elem_of_nil]%elem_of_cons]%elem_of_cons;
      vm_compute; reflexivity.
  - intros e e' [->|[->|[]%elem_of_nil]%elem_of_cons]%elem_of_cons
      [->|[->|[]%elem_of_nil]%elem_of_cons]%elem_of_cons; reflexivity.
  - intros e [->|[->|[]%elem_of_nil]%elem_of_cons]%elem_of_cons;
      simpl; lia.
  - intros e [->|[->|[]%elem_of_nil]%elem_of_cons]%elem_of_cons;
      reflexivity.
Defined.

(** *** Extraction *)

Lemma extract_step_error combined dic output_path fs e (colors : list Z) :
  foldl (extract_step combined dic output_path) (fs, Some e) colors
  = (fs, Some e).
Proof. induction colors as [|c colors IH]; [done|]. exact IH. Qed.

Lemma extract_fold_other (combined : list (list (list Z)))
    (dic : gmap Z string) (output_path : string) (colors : list Z)
    (fs : gmap string (list (list (list Z)))) (p : string) :
  (∀ c n, c ∈ colors → dic !! c = Some n →
          p ≠ output_path +:+ "/" +:+ n) →
  (foldl (extract_step combined dic output_path) (fs, None) colors).1 !! p
  = fs !! p.
Proof.
  induction colors as [|c0 colors IH] using rev_ind; intros Hp; [done|].
  rewrite foldl_app. cbn [foldl].
  assert ((foldl (extract_step combined dic output_path) (fs, None)
             colors).1 !! p = fs !! p) as IH'.
  { apply IH. intros c n Hc. apply Hp, elem_of_app. by left. }
  destruct (foldl (extract_step combined dic output_path) (fs, None) colors)
    as [fs' err]. unfold extract_step. simpl in *.
  destruct err; [done|].
  destruct (dic !! c0) as [n0|] eqn:Hn0; simpl; [|done].
  rewrite lookup_insert_ne; [done|]. intros Heq.
  apply (Hp c0 n0); [|done|done]. apply elem_of_app. right. by left.
Qed.

(** X11: what the extraction writes.  When the combined file is present and
    every colour of the list has a name in the dictionary, no exception is
    raised; under the name of a colour that no other colour of the list
    shares lies the mask that is 255 exactly where the volume holds that
    colour and 0 elsewhere; and no other file is written or changed, so a
    label of the volume that is not in the list is dropped. *)
Theorem extract_writes (fs : gmap string (list (list (list Z))))
    (combined_tiff : string) (combined_image : list (list (list Z)))
    (colors : list Z) (dic : gmap Z string) (output_path : string) :
  fs !! combined_tiff = Some combined_image →
  (∀ c, c ∈ colors → is_Some (dic !! c)) →
  let r := extract_8bit_grayscale_tif_files fs combined_tiff colors dic
             output_path in
  r.2 = None
  ∧ (∀ c n, c ∈ colors → dic !! c = Some n →
       (∀ c', c' ∈ colors → dic !! c' = Some n → c' = c) →
       r.1 !! (output_path +:+ "/" +:+ n)
       = Some (map3 (λ x, if x =? c then 255 else 0) combined_image))
  ∧ (∀ p, (∀ c n, c ∈ colors → dic !! c = Some n →
                  p ≠ output_path +:+ "/" +:+ n) →
          r.1 !! p = fs !! p).
Proof.
  intros Hfile Hdic. unfold extract_8bit_grayscale_tif_files.
  rewrite Hfile. cbn zeta.
  destruct (extract_fold combined_image dic output_path colors fs Hdic)
    as [Herr Hfiles].
  split; [done|]. split; [done|].
  intros p Hp. by apply extract_fold_other.
Qed.

Lemma extract_writes_witness :
  let r := extract_8bit_grayscale_tif_files sample_fs "in/b.tif" [255]
             (<[255 := "fg.tif"]> ∅) "out" in
  r.2 = None
  ∧ (∀ c n, c ∈ [255] → (<[255 := "fg.tif"]> ∅ : gmap Z string) !! c = Some n →
       (∀ c', c' ∈ [255] →
              (<[255 := "fg.tif"]> ∅ : gmap Z string) !! c' = Some n →
              c' = c) →
       r.1 !! ("out" +:+ "/" +:+ n)
       = Some (map3 (λ x, if x =? c then 255 else 0) [[[0; 0]; [255; 255]]]))
  ∧ (∀ p, (∀ c n, c ∈ [255] →
                  (<[255 := "fg.tif"]> ∅ : gmap Z string) !! c = Some n →
                  p ≠ "out" +:+ "/" +:+ n) →
          r.1 !! p = sample_fs !! p).
Proof.
  apply (extract_writes sample_fs "in/b.tif" [[[0; 0]; [255; 255]]] [255]
           (<[255 := "fg.tif"]> ∅) "out").
  - vm_compute. reflexivity.
  - intros c Hc. apply list_elem_of_singleton in Hc as ->.
    exists "fg.tif". vm_compute. reflexivity.
Defined.

(** X12: the two failures of the extraction.  A combined file that cannot
    be read is reported and nothing is written; a colour without a name in
    the dictionary raises [KeyError] after the files of the colours before
    it are written, and the colours after it are not visited. *)
Theorem extract_failures (fs : gmap string (list (list (list Z))))
    (combined_tiff : string) (dic : gmap Z string) (output_path : string) :
  (∀ colors, fs !! combined_tiff = None →
     extract_8bit_grayscale_tif_files fs combined_tiff colors dic output_path
     = (fs, None))
  ∧ (∀ colors1 c colors2,
       is_Some (fs !! combined_tiff) →
       (∀ c', c' ∈ colors1 → is_Some (dic !! c')) →
       dic !! c = None →
       extract_8bit_grayscale_tif_files fs combined_tiff
         (colors1 ++ c :: colors2) dic output_path
       = ((extract_8bit_grayscale_tif_files fs combined_tiff colors1 dic
             output_path).1, Some KeyError)).
Proof.
  split.
  - intros colors Hfile. unfold extract_8bit_grayscale_tif_files.
    by rewrite Hfile.
  - intros colors1 c colors2 [image Hfile] Hdic Hc.
    unfold extract_8bit_grayscale_tif_files. rewrite Hfile.
    rewrite foldl_app. cbn [foldl].
    destruct (extract_fold image dic output_path colors1 fs Hdic)
      as [Herr _]. cbn zeta in Herr.
    destruct (foldl (extract_step image dic output_path) (fs, None) colors1)
      as [fs1 err]. simpl in Herr. subst err.
    unfold extract_step at 2. simpl. rewrite Hc.
    apply extract_step_error.
Qed.

Lemma extract_failures_witness :
  extract_8bit_grayscale_tif_files sample_fs "in/b.tif"
    ([255] ++ 7 :: [255]) (<[255 := "fg.tif"]> ∅) "out"
  = ((extract_8bit_grayscale_tif_files sample_fs "in/b.tif" [255]
        (<[255 := "fg.tif"]> ∅) "out").1, Some KeyError).
Proof.
  apply (proj2 (extract_failures sample_fs "in/b.tif"
                  (<[255 := "fg.tif"]> ∅) "out") [255] 7 [255]).
  - exists [[[0; 0]; [255; 255]]]. vm_compute. reflexivity.
  - intros c Hc. apply list_elem_of_singleton in Hc as ->.
    exists "fg.tif". vm_compute. reflexivity.
  - vm_compute. reflexivity.
Defined.

(** *** Overlapping masks *)

Lemma NoDup_split_unique {A} (l1 l2 l1' l2' : list A) x :
  NoDup (l1 ++ x :: l2) → l1 ++ x :: l2 = l1' ++ x :: l2' →
  l1 = l1' ∧ l2 = l2'.
Proof.
  revert l1'. induction l1 as [|a l1 IH]; intros l1' Hnd Heq.
  - destruct l1' as [|a' l1']; simpl in *.
    + by injection Heq as ->.
    + injection Heq as <- ->. apply NoDup_cons in Hnd as [Hx _].
      destruct Hx. apply elem_of_app. right. by left.
  - destruct l1' as [|a' l1']; simpl in *.
    + injection Heq as -> <-. apply NoDup_cons in Hnd as [Hx _].
      destruct Hx. apply elem_of_app. right. by left.
    + injection Heq as <- Heq. apply NoDup_cons in Hnd as [_ Hnd].
      destruct (IH l1' Hnd Heq) as [-> ->]. done.
Qed.

Lemma last_such_unique {A} (P : A → Prop) (l1 l2 l1' l2' : list A) x x' :
  l1 ++ x :: l2 = l1' ++ x' :: l2' →
  P x → P x' → (∀ y, y ∈ l2 → ¬ P y) → (∀ y, y ∈ l2' → ¬ P y) →
  x = x'.
Proof.
  revert l1'. induction l1 as [|a l1 IH]; intros l1' Heq Hx Hx' Hl2 Hl2'.
  - destruct l1' as [|a' l1']; simpl in *.
    + by injection Heq as ->.
    + injection Heq as <- ->. destruct (Hl2 x'); [|done].
      apply elem_of_app. right. by left.
    - destruct l1' as [|a' l1']; simpl in *.
    + injection Heq as -> <-. destruct (Hl2' x); [|done].
      apply elem_of_app. right. by left.
    + injection Heq as <- Heq. by apply (IH l1').
Qed.

(** X13: merging, then extracting, resolves overlaps: the masks written are
    pairwise disjoint.  For a catalog of distinct names and distinct labels
    in [1, 255] whose mask files are present, of one shape and read as they
    are stored, the file written for a region is 255 exactly on the voxels
    where the mask of the region is foreground and no mask later in the list
    is, and 0 elsewhere. *)
Theorem extract_merge_overlap
    (fs : gmap string (list (list (list Z)))) (es : list region)
    (dic : gmap Z string) (merged_path output_path : string) :
  es ≠ [] →
  (∀ e, e ∈ es → fs !! region_path e = Some (region_mask e)) →
  (∀ e, e ∈ es → dic !! region_label e = Some (region_name e)) →
  NoDup (region_label <$> es) →
  NoDup (region_name <$> es) →
  (∀ e, e ∈ es → 1 ≤ region_label e ≤ 255) →
  (∀ e e', e ∈ es → e' ∈ es →
           dims3 (region_mask e) = dims3 (region_mask e')) →
  (∀ e, e ∈ es → channels_first (region_mask e) = false) →
  ∃ fs1,
    merge_8bit_grayscale_tif_files fs merged_path (region_path <$> es)
      (Some (region_label <$> es)) = Ok fs1
    ∧ (extract_8bit_grayscale_tif_files fs1 merged_path
         (region_label <$> es) dic output_path).2 = None
    ∧ ∀ l1 e l2, es = l1 ++ e :: l2 →
        ∃ extracted,
          (extract_8bit_grayscale_tif_files fs1 merged_path
             (region_label <$> es) dic output_path).1
            !! (output_path +:+ "/" +:+ region_name e) = Some extracted
          ∧ dims3 extracted = dims3 (region_mask e)
          ∧ ∀ i j k x, at3 extracted i j k = Some x →
              ((voxel_of i j k e ≠ 0
                ∧ ∀ e', e' ∈ l2 → voxel_of i j k e' = 0) ∧ x = 255)
              ∨ (¬ (voxel_of i j k e ≠ 0
                    ∧ ∀ e', e' ∈ l2 → voxel_of i j k e' = 0) ∧ x = 0).
Proof.
  intros Hne Hfs Hdic Hlabels Hnames Hrange Hdims Hstored.
  destruct es as [|e0 es']; [done|]. set (es := e0 :: es') in *.
  assert (e0 ∈ es) as He0 by (by left).
  destruct (merge_present fs e0 es' merged_path) as [Hmerge Hd].
  { done. }
  { intros e He. by apply Hdims. }
  { intros e He. specialize (Hrange e He). lia. }
  { by apply Hstored. }
  set (stack0 := map3 (λ _ : Z, 0) (region_mask e0)) in *.
  set (merged := foldl paint stack0 es) in *.
  exists (<[merged_path := merged]> fs). split; [done|].
  unfold extract_8bit_grayscale_tif_files. rewrite lookup_insert_eq.
  destruct (extract_fold merged dic output_path (region_label <$> es)
              (<[merged_path := merged]> fs)) as [Herr Hfiles].
  { intros c (e & -> & He)%list_elem_of_fmap. rewrite (Hdic e He). eauto. }
  split; [done|]. intros l1 e l2 Hsplit.
  assert (e ∈ es) as He.
  { rewrite Hsplit. apply elem_of_app. right. by left. }
  eexists. split.
  { apply (Hfiles (region_label e) (region_name e)).
    - by apply list_elem_of_fmap_2.
    - by apply Hdic.
    - intros c' (e' & -> & He')%list_elem_of_fmap Hc'.
      rewrite (Hdic e' He') in Hc'. injection Hc' as Hc'.
      by rewrite (NoDup_fmap_eq region_name es e' e Hnames He' He Hc'). }
  split.
  { rewrite dims3_map3. etrans; [exact Hd|]. by apply Hdims. }
  intros i j k x. rewrite at3_map3.
  destruct (at3 merged i j k) as [y|] eqn:Hy; [|done]. intros [= <-].
  destruct (paint_fold_voxel es stack0 i j k y)
    as [[Hz ->]|(l1' & e' & l2' & Hsplit' & Hnz & Hl2' & ->)].
  { intros e' He'. unfold stack0. rewrite dims3_map3. by apply Hdims. }
  { unfold stack0. rewrite at3_map3.
    destruct (at3_dims3 merged (region_mask e0) i j k Hd) as [z ->];
      by eauto. }
  { done. }
  - right. specialize (Hrange e He).
    destruct (Z.eqb_spec 0 (region_label e)) as [?|_]; [lia|].
    split; [|done]. intros [Hnz _]. by rewrite Hz in Hnz.
  - assert (e' ∈ es) as He'.
    { rewrite Hsplit'. apply elem_of_app. right. by left. }
    destruct (Z.eqb_spec (region_label e') (region_label e)) as [Heq|Hlab].
    + apply (NoDup_fmap_eq region_label es e' e Hlabels He' He) in Heq.
      subst e'. left. split; [|done]. split; [done|].
      assert (NoDup es) as Hnd by (by eapply NoDup_fmap_1).
      rewrite Hsplit in Hnd, Hsplit'.
      destruct (NoDup_split_unique l1 l2 l1' l2' e Hnd Hsplit') as [_ ->].
      done.
    + right. split; [|done]. intros [Hnz' Hl2].
      destruct Hlab. f_equal. symmetry.
      apply (last_such_unique (λ e, voxel_of i j k e ≠ 0) l1 l2 l1' l2' e e').
      * by rewrite <- Hsplit, <- Hsplit'.
      * done.
      * done.
      * intros y' Hy' Hnzy. by rewrite (Hl2 y' Hy') in Hnzy.
      * intros y' Hy' Hnzy. by rewrite (Hl2' y' Hy') in Hnzy.
Qed.

Lemma extract_merge_overlap_witness :
  ∃ fs1,
    merge_8bit_grayscale_tif_files sample_fs "merged.tif"
      (region_path <$> overlap_catalog)
      (Some (region_label <$> overlap_catalog)) = Ok fs1
    ∧ (extract_8bit_grayscale_tif_files fs1 "merged.tif"
         (region_label <$> overlap_catalog) overlap_dic "out").2 = None
    ∧ ∀ l1 e l2, overlap_catalog = l1 ++ e :: l2 →
        ∃ extracted,
          (extract_8bit_grayscale_tif_files fs1 "merged.tif"
             (region_label <$> overlap_catalog) overlap_dic "out").1
            !! ("out" +:+ "/" +:+ region_name e) = Some extracted
          ∧ dims3 extracted = dims3 (region_mask e)
          ∧ ∀ i j k x, at3 extracted i j k = Some x →
              ((voxel_of i j k e ≠ 0
                ∧ ∀ e', e' ∈ l2 → voxel_of i j k e' = 0) ∧ x = 255)
              ∨ (¬ (voxel_of i j k e ≠ 0
                    ∧ ∀ e', e' ∈ l2 → voxel_of i j k e' = 0) ∧ x = 0).
Proof.
  apply (extract_merge_overlap sample_fs overlap_catalog overlap_dic
           "merged.tif" "out").
  - discriminate.
  - intros e [->|[->|[]%elem_of_nil]%elem_of_cons]%elem_of_cons;
      vm_compute; reflexivity.
  - intros e [->|[->|[]%elem_of_nil]%elem_of_cons]%elem_of_cons;
      vm_compute; reflexivity.
  - repeat constructor; rewrite ?elem_of_cons, ?elem_of_nil;
      intros H; repeat destruct H as [H|H]; discriminate || done.
  - repeat constructor; rewrite ?elem_of_cons, ?elem_of_nil;
      intros H; repeat destruct H as [H|H]; discriminate || done.
  - intros e [->|[->|[]%elem_of_nil]%elem_of_cons]%elem_of_cons;
      simpl; lia.
  - intros e e' [->|[->|[]%elem_of_nil]%elem_of_cons]%elem_of_cons
      [->|[->|[]%elem_of_nil]%elem_of_cons]%elem_of_cons; reflexivity.
  - intros e [->|[->|[]%elem_of_nil]%elem_of_cons]%elem_of_cons;
      reflexivity.
Defined.

(** *** [normalize_stack] *)

(** X14: [normalize_stack] gives a binary mask of the shape of its input,
    255 where the input is positive and 0 elsewhere, and normalizing once
    more changes nothing. *)
Theorem normalize_stack_binary (tif_data : list (list (list Z))) :
  dims3 (normalize_stack tif_data) = dims3 tif_data
  ∧ (∀ i j k x, at3 tif_data i j k = Some x →
       at3 (normalize_stack tif_data) i j k
       = Some (if 0 <? x then 255 else 0))
  ∧ normalize_stack (normalize_stack tif_data) = normalize_stack tif_data.
Proof.
  unfold normalize_stack. split; [apply dims3_map3|]. split.
  - intros i j k x Hx. rewrite at3_map3, Hx. simpl.
    by destruct (0 <? x).
  - apply array3_ext; [by rewrite !dims3_map3|].
    intros i j k. rewrite !at3_map3.
    destruct (at3 tif_data i j k) as [x|]; [|done]. simpl.
    by destruct (0 <? x).
Qed.

(** *** Merging without colours *)





End TiffExtra.

(** * Further properties of the region table *)

Module CatalogExtra.
Import Catalog CatalogFacts.

Lemma parse_step_Raise regions_path e (lines : list string) :
  foldl (parse_step regions_path) (Raise e) lines = Raise e.
Proof. induction lines as [|line lines IH]; [done|]. exact IH. Qed.

Lemma split_length sep s : length (split sep s) = S (count_char sep s).
Proof.
  induction s as [|c s IH]; simpl; [done|].
  destruct (Ascii.eqb c sep); simpl; [by rewrite IH|].
  destruct (split sep s) as [|field fields]; simpl in *; [done|].
  by rewrite IH.
Qed.

Lemma lstrip_all_space s : all_space s = true → lstrip s = EmptyString.
Proof.
  induction s as [|c s IH]; simpl; [done|].
  intros [Hc Hs]%andb_true_iff. rewrite Hc. by apply IH.
Qed.

Lemma parse_failed_line regions_path (lines : list string) line acc :
  line ∈ lines → parse_line line = Raise ValueError →
  foldl (parse_step regions_path) acc lines = Raise ValueError.
Proof.
  revert acc. induction lines as [|l lines IH]; intros acc Hin Hline.
  { by apply elem_of_nil in Hin. }
  cbn [foldl]. apply elem_of_cons in Hin as [<-|Hin].
  - assert (parse_step regions_path acc line = Raise ValueError) as ->.
    { unfold parse_step. destruct acc as [[[? ?] ?]|[]]; [|done].
      by rewrite Hline. }
    apply parse_step_Raise.
  - by apply IH.
Qed.

(** X16: the lines that make the parser fail.  A line that, once stripped,
    does not hold exactly one ['|'] raises [ValueError]; so does a line of
    white space only, for instance an empty line at the end of the table;
    and one such line anywhere in the table makes the whole call raise
    [ValueError]. *)
Theorem parse_value_errors (regions_path : string) :
  (∀ line, count_char "|" (strip line) ≠ 1%nat →
           parse_line line = Raise ValueError)
  ∧ (∀ line, all_space line = true → parse_line line = Raise ValueError)
  ∧ (∀ lines line,
       line ∈ lines → parse_line line = Raise ValueError →
       parse_anatomical_structures_txt_file lines regions_path
       = Raise ValueError).
Proof.
  split; [|split].
  - intros line Hcount. unfold parse_line.
    pose proof (split_length "|" (strip line)) as Hlen.
    destruct (split "|" (strip line)) as [|f1 [|f2 [|f3 fs]]];
      simpl in Hlen; try done.
    destruct Hcount. lia.
  - intros line Hsp. unfold parse_line, strip.
    by rewrite (lstrip_all_space line Hsp).
  - intros lines line Hin Hline. by eapply parse_failed_line.
Qed.

Lemma parse_value_errors_witness :
  parse_anatomical_structures_txt_file
    ["forebrain|10"; "mid|brain|20"] "regions" = Raise ValueError.
Proof.
  refine (proj2 (proj2 (parse_value_errors "regions"))
            ["forebrain|10"; "mid|brain|20"] "mid|brain|20" _ _).
  - apply elem_of_cons. right. by left.
  - apply (proj1 (parse_value_errors "regions")). vm_compute. lia.
Defined.

(** A table that is loaded is a table of lines that all parse. *)
Lemma parse_Ok_inv regions_path (lines : list string) acc res :
  foldl (parse_step regions_path) (Ok acc) lines = Ok res →
  ∃ recs, Forall2 (λ line rec, parse_line line = Ok rec) lines recs.
Proof.
  revert acc. induction lines as [|line lines IH]; intros acc Hres.
  { exists []. constructor. }
  cbn [foldl] in Hres. destruct acc as [[paths colors] dic].
  unfold parse_step at 2 in Hres.
  destruct (parse_line line) as [[name color]|e] eqn:Hline.
  - destruct (IH _ Hres) as (recs & Hrecs).
    exists ((name, color) :: recs). by constructor.
  - by rewrite parse_step_Raise in Hres.
Qed.

(** X17: what a loaded table looks like, and that it suits the extraction.
    When the parser returns, the paths and the colours have one entry per
    line, the dictionary has a name for exactly the colours of the list,
    and the extraction called with these colours and this dictionary never
    raises [KeyError]. *)
Theorem parse_result_suits_extract (lines : list string)
    (regions_path : string) (tif_paths : list string)
    (color_values : list Z) (dic : gmap Z string) :
  parse_anatomical_structures_txt_file lines regions_path
  = Ok (tif_paths, color_values, dic) →
  length tif_paths = length lines
  ∧ length color_values = length lines
  ∧ (∀ c, c ∈ color_values ↔ is_Some (dic !! c))
  ∧ ∀ fs combined_tiff output_path,
      (Tiff.extract_8bit_grayscale_tif_files fs combined_tiff color_values
         dic output_path).2 = None.
Proof.
  intros Hres. unfold parse_anatomical_structures_txt_file in Hres.
  destruct (parse_Ok_inv _ _ _ _ Hres) as (recs & Hrecs).
  rewrite (parse_fold regions_path lines recs [] [] ∅ Hrecs) in Hres.
  injection Hres as <- <- <-. simpl.
  assert (length recs = length lines) as Hlen.
  { symmetry. by eapply Forall2_length. }
  assert (∀ c, c ∈ recs.*2 ↔ is_Some (record_all ∅ recs !! c)) as Hdom.
  { intros c. split.
    - intros Hc.
      destruct (TiffFacts.last_such (λ rec : string * Z, rec.2 = c) recs)
        as [Hnone|(l1 & [name c'] & l2 & -> & Hc' & Hl2)].
      + apply list_elem_of_fmap in Hc as (rec & -> & Hrec).
        by destruct (Hnone rec Hrec).
      + simpl in Hc'. subst c'. rewrite record_all_last; [by eauto|].
        intros (rec & Heq & Hrec)%list_elem_of_fmap.
        by destruct (Hl2 rec Hrec).
    - intros Hsome. destruct (decide (c ∈ recs.*2)) as [?|Hnot]; [done|].
      rewrite record_all_other in Hsome by done.
      rewrite lookup_empty in Hsome. by destruct Hsome. }
  split; [by rewrite !length_fmap|]. split; [by rewrite !length_fmap|].
  split; [done|]. intros fs combined_tiff output_path.
  unfold Tiff.extract_8bit_grayscale_tif_files.
  destruct (fs !! combined_tiff) as [image|]; [|done].
  apply TiffFacts.extract_fold. intros c Hc. by apply Hdom.
Qed.

Lemma parse_result_suits_extract_witness :
  length ["regions/forebrain"; "regions/hindbrain"]
  = length duplicate_label_table
  ∧ length [10; 10] = length duplicate_label_table
  ∧ (∀ c, c ∈ [10; 10]
          ↔ is_Some ((<[10 := "hindbrain"]> ∅ : gmap Z string) !! c))
  ∧ ∀ fs combined_tiff output_path,
      (Tiff.extract_8bit_grayscale_tif_files fs combined_tiff [10; 10]
         (<[10 := "hindbrain"]> ∅) output_path).2 = None.
Proof.
  apply (parse_result_suits_extract duplicate_label_table "regions"
           ["regions/forebrain"; "regions/hindbrain"] [10; 10]
           (<[10 := "hindbrain"]> ∅)).
  vm_compute. reflexivity.
Defined.

End CatalogExtra.
